(** * ai-web-search-fastapi: the web-research pipeline, embedded in Rocq

    The development follows the three source files of the core:
    - [markdown_cleaner.py]: the [MarkdownCleaner] rewrite rules, on top of a
      backtracking matcher that plays the part of Python's [re] module;
    - [oprah.py]: URL discovery, the single-URL fetch and the fan-out;
    - [webthinker.py]: the bounded extraction stage, the top-level [search]
      and the cached entry point [search_web].

    Text is a [string] of bytes.  The statements are about ASCII text, on
    which Python's Unicode-aware classes ([\w], [\s], [\d]), [str.lower] and
    [str.strip] coincide with the ASCII ones used here; the few non-ASCII
    literals of the patterns are kept as their UTF-8 byte sequences.
    Everything outside the repository (HTTP, the search service, the HTML
    libraries, the vector store, the language model, [urlparse]) is a
    parameter: a field of the [world] or [services] record, or a variable of
    the section that uses it. *)

From Stdlib Require Import String Ascii List Bool Arith NArith ZArith Lia.
From Stdlib Require Import Sorting.Permutation DecimalString.
From stdpp Require Import gmap strings list.
Import ListNotations.

Local Open Scope string_scope.
Local Open Scope nat_scope.
Local Open Scope list_scope.

(** ** Python string primitives used by the sources *)

Module Py.

Definition chars := list ascii.

Definition of_str (s : string) : chars := list_ascii_of_string s.
Definition to_str (l : chars) : string := string_of_list_ascii l.

Definition code (c : ascii) : nat := nat_of_ascii c.

Definition in_range (lo hi : nat) (c : ascii) : bool :=
  (lo <=? code c) && (code c <=? hi).

Definition is_upper (c : ascii) : bool := in_range 65 90 c.
Definition is_lower (c : ascii) : bool := in_range 97 122 c.
Definition is_digit (c : ascii) : bool := in_range 48 57 c.

(** [str.isspace] on ASCII: TAB..CR, FS..US and the space. *)
Definition is_space (c : ascii) : bool :=
  in_range 9 13 c || in_range 28 32 c.

(** [\w] on ASCII: letters, digits and the underscore. *)
Definition is_word (c : ascii) : bool :=
  is_upper c || is_lower c || is_digit c || (code c =? 95).

Definition lower_char (c : ascii) : ascii :=
  if is_upper c then ascii_of_nat (code c + 32) else c.

Definition upper_char (c : ascii) : ascii :=
  if is_lower c then ascii_of_nat (code c - 32) else c.

Definition ceqb (a b : ascii) : bool := Ascii.eqb a b.

Definition lower_l (l : chars) : chars := map lower_char l.

(** [s.startswith(p)] *)
Fixpoint prefix_l (p s : chars) : bool :=
  match p, s with
  | [], _ => true
  | a :: p', b :: s' => ceqb a b && prefix_l p' s'
  | _ :: _, [] => false
  end.

(** [p in s] *)
Fixpoint contains_l (p s : chars) : bool :=
  prefix_l p s ||
  match s with
  | [] => false
  | _ :: s' => contains_l p s'
  end.

(** [s.endswith(p)] *)
Definition suffix_l (p s : chars) : bool := prefix_l (rev p) (rev s).

(** [s.replace(old, new)]: leftmost, non-overlapping occurrences.  [skip]
    counts the characters of an occurrence that are still to be dropped. *)
Fixpoint replace_go (old new : chars) (skip : nat) (s : chars) : chars :=
  match s with
  | [] => []
  | c :: t =>
      match skip with
      | S n => replace_go old new n t
      | O =>
          if prefix_l old s
          then new ++ replace_go old new (List.length old - 1) t
          else c :: replace_go old new 0 t
      end
  end.

Definition replace_l (old new s : chars) : chars :=
  match old with
  | [] => new ++ flat_map (fun c => c :: new) s
  | _ :: _ => replace_go old new 0 s
  end.

(** [s.split(sep, maxsplit)] for a non-empty separator; [maxsplit = None]
    is the unbounded split.  [cur] is the piece being read, reversed. *)
Fixpoint split_go (sep : chars) (budget : option nat) (skip : nat)
    (cur : chars) (s : chars) : list chars :=
  match s with
  | [] => [rev cur]
  | c :: t =>
      match skip with
      | S n => split_go sep budget n cur t
      | O =>
          let may := match budget with Some O => false | _ => true end in
          if may && prefix_l sep s
          then rev cur ::
               split_go sep (option_map Nat.pred budget)
                        (List.length sep - 1) [] t
          else split_go sep budget 0 (c :: cur) t
      end
  end.

Definition split_l (sep : chars) (maxsplit : option nat) (s : chars)
  : list chars :=
  split_go sep maxsplit 0 [] s.

(** [sep.join(parts)] *)
Fixpoint join_l (sep : chars) (parts : list chars) : chars :=
  match parts with
  | [] => []
  | [p] => p
  | p :: rest => p ++ sep ++ join_l sep rest
  end.

Fixpoint lstrip_l (s : chars) : chars :=
  match s with
  | c :: t => if is_space c then lstrip_l t else s
  | [] => []
  end.

(** [s.strip()] *)
Definition strip_l (s : chars) : chars := rev (lstrip_l (rev (lstrip_l s))).

(** A list that begins with no blank, if it begins at all. *)
Definition clean_start (s : chars) : Prop :=
  match s with
  | [] => True
  | c :: _ => is_space c = false
  end.

Definition lower (s : string) : string := to_str (lower_l (of_str s)).
Definition contains (p s : string) : bool := contains_l (of_str p) (of_str s).
Definition startswith (s p : string) : bool := prefix_l (of_str p) (of_str s).
Definition endswith (s p : string) : bool := suffix_l (of_str p) (of_str s).
Definition replace (s old new : string) : string :=
  to_str (replace_l (of_str old) (of_str new) (of_str s)).
Definition split (s sep : string) (maxsplit : option nat) : list string :=
  map to_str (split_l (of_str sep) maxsplit (of_str s)).
Definition join (sep : string) (parts : list string) : string :=
  to_str (join_l (of_str sep) (map of_str parts)).
Definition strip (s : string) : string := to_str (strip_l (of_str s)).

(** The characters the sources write as escapes. *)
Definition LF : string := String (ascii_of_nat 10) EmptyString.
Definition CR : string := String (ascii_of_nat 13) EmptyString.
Definition nl : ascii := ascii_of_nat 10.

End Py.

(** ** The fragment of Python's [re] that the cleaner uses

    A backtracking matcher in continuation-passing style: alternatives are
    tried left to right, a greedy repetition tries one more iteration before
    stopping and a lazy one stops first, so the first success is the match
    Python's engine reports.  Every repeated sub-pattern of the sources
    consumes at least one character; the matcher asks for that progress at
    each iteration, which bounds the iterations by the remaining length. *)

Module Re.

Import Py.

Inductive citem : Type :=
  | IChar (c : ascii)
  | IRange (lo hi : ascii)
  | IWord
  | ISpace
  | INotSpace
  | IDigit.

Inductive regex : Type :=
  | Lit (s : string)
  | Any
  | Cls (neg : bool) (items : list citem)
  | Seq (r1 r2 : regex)
  | Alt (r1 r2 : regex)
  | Rep (greedy : bool) (lo : nat) (hi : option nat) (r : regex)
  | Grp (n : nat) (r : regex)
  | Eol
  | WordB
  | NotAhead (r : regex).

Definition captures := list (nat * chars).

Fixpoint group (g : captures) (n : nat) : option chars :=
  match g with
  | [] => None
  | (i, v) :: g' => if Nat.eqb i n then Some v else group g' n
  end.

Definition item_match (it : citem) (c : ascii) : bool :=
  match it with
  | IChar a => ceqb a c
  | IRange lo hi => in_range (code lo) (code hi) c
  | IWord => is_word c
  | ISpace => is_space c
  | INotSpace => negb (is_space c)
  | IDigit => is_digit c
  end.

(** With [re.IGNORECASE] a class item matches a character when it matches
    one of its two cases. *)
Definition item_match_ci (ci : bool) (it : citem) (c : ascii) : bool :=
  item_match it c ||
  (ci && (item_match it (lower_char c) || item_match it (upper_char c))).

Definition cls_match (ci neg : bool) (items : list citem) (c : ascii) : bool :=
  xorb neg (existsb (fun it => item_match_ci ci it c) items).

Definition chr_match (ci : bool) (a c : ascii) : bool :=
  if ci then ceqb (lower_char a) (lower_char c) else ceqb a c.

(** Reads the literal [lit] at the head of [s]; returns what was read
    (reversed, on top of [pre]) and the rest. *)
Fixpoint lit_match (ci : bool) (lit : chars) (pre s : chars)
  : option (chars * chars) :=
  match lit with
  | [] => Some (pre, s)
  | a :: lit' =>
      match s with
      | c :: s' =>
          if chr_match ci a c then lit_match ci lit' (c :: pre) s' else None
      | [] => None
      end
  end.

Definition at_word_boundary (pre s : chars) : bool :=
  let w (o : option ascii) :=
    match o with Some c => is_word c | None => false end in
  xorb (w (hd_error pre)) (w (hd_error s)).

(** [$] without [re.MULTILINE]: the end, or just before a final newline. *)
Definition at_eol (s : chars) : bool :=
  match s with
  | [] => true
  | [c] => ceqb c nl
  | _ => false
  end.

Definition below (hi : option nat) (cnt : nat) : bool :=
  match hi with
  | None => true
  | Some h => cnt <? h
  end.

(** The iterations of a repetition: [body] matches the repeated pattern
    once, [cnt] iterations are done, [fuel] bounds the ones to come.  A
    greedy repetition tries one more iteration first, a lazy one tries to
    stop first. *)
Fixpoint rep_loop {R : Type}
    (body : chars -> chars -> captures ->
            (chars -> chars -> captures -> option R) -> option R)
    (greedy : bool) (lo : nat) (hi : option nat)
    (k : chars -> chars -> captures -> option R)
    (fuel cnt : nat) (pre s : chars) (g : captures) {struct fuel}
  : option R :=
  let stop (_ : unit) := if lo <=? cnt then k pre s g else None in
  let more (_ : unit) :=
    match fuel with
    | O => None
    | S fuel' =>
        if below hi cnt then
          body pre s g
            (fun pre' s' g' =>
               if List.length s' <? List.length s
               then rep_loop body greedy lo hi k fuel' (S cnt) pre' s' g'
               else None)
        else None
    end in
  if greedy then
    match more tt with
    | Some x => Some x
    | None => stop tt
    end
  else
    match stop tt with
    | Some x => Some x
    | None => more tt
    end.

(** [run ci r pre s g k]: match [r] at the position whose left context is
    [pre] (reversed) and whose right context is [s], then continue with [k]. *)
Fixpoint run {R : Type} (ci : bool) (r : regex) (pre s : chars) (g : captures)
    (k : chars -> chars -> captures -> option R) {struct r} : option R :=
  match r with
  | Lit lit =>
      match lit_match ci (of_str lit) pre s with
      | Some (pre', s') => k pre' s' g
      | None => None
      end
  | Any =>
      match s with
      | c :: s' => if ceqb c nl then None else k (c :: pre) s' g
      | [] => None
      end
  | Cls neg items =>
      match s with
      | c :: s' => if cls_match ci neg items c then k (c :: pre) s' g else None
      | [] => None
      end
  | Seq r1 r2 =>
      run ci r1 pre s g (fun pre' s' g' => run ci r2 pre' s' g' k)
  | Alt r1 r2 =>
      match run ci r1 pre s g k with
      | Some x => Some x
      | None => run ci r2 pre s g k
      end
  | Rep greedy lo hi r' =>
      rep_loop (fun pre' s' g' k' => run ci r' pre' s' g' k')
               greedy lo hi k (S (List.length s)) 0 pre s g
  | Grp n r' =>
      run ci r' pre s g
        (fun pre' s' g' =>
           k pre' s'
             ((n, rev (firstn (List.length pre' - List.length pre) pre')) :: g'))
  | Eol => if at_eol s then k pre s g else None
  | WordB => if at_word_boundary pre s then k pre s g else None
  | NotAhead r' =>
      match run ci r' pre s g (fun _ _ _ => Some tt) with
      | Some _ => None
      | None => k pre s g
      end
  end.

(** A match found at a position: the matched text, the groups, and the
    two contexts at its end. *)
Record found : Type := Found {
  f_text : chars;
  f_groups : captures;
  f_pre : chars;
  f_rest : chars
}.

Definition match_here (ci : bool) (r : regex) (pre s : chars) : option found :=
  run ci r pre s []
    (fun pre' s' g' =>
       Some (Found (rev (firstn (List.length pre' - List.length pre) pre'))
                   g' pre' s')).

(** [re.search]: the leftmost position with a match; returns the text
    before it as well. *)
Fixpoint search_from (ci : bool) (r : regex) (pre s : chars)
  : option (chars * found) :=
  match match_here ci r pre s with
  | Some f => Some (rev pre, f)
  | None =>
      match s with
      | [] => None
      | c :: s' => search_from ci r (c :: pre) s'
      end
  end.

Definition search_l (ci : bool) (r : regex) (s : chars) : option found :=
  option_map snd (search_from ci r [] s).

(** [re.sub] with a replacement function: leftmost non-overlapping
    matches, scanning resumes where the previous match ended. *)
Fixpoint sub_go (fuel : nat) (ci : bool) (r : regex) (repl : found -> chars)
    (pre s : chars) : chars :=
  match fuel with
  | O => s
  | S fuel' =>
      match match_here ci r pre s with
      | Some f =>
          if List.length (f_rest f) <? List.length s
          then repl f ++ sub_go fuel' ci r repl (f_pre f) (f_rest f)
          else
            repl f ++
            match s with
            | [] => []
            | c :: s' => c :: sub_go fuel' ci r repl (c :: pre) s'
            end
      | None =>
          match s with
          | [] => []
          | c :: s' => c :: sub_go fuel' ci r repl (c :: pre) s'
          end
      end
  end.

Definition sub_l (ci : bool) (r : regex) (repl : found -> chars) (s : chars)
  : chars :=
  sub_go (S (List.length s)) ci r repl [] s.

(** [re.sub] with a replacement function that may raise: the first
    exception ([None]) aborts the whole substitution. *)
Fixpoint sub_try_go (fuel : nat) (ci : bool) (r : regex)
    (repl : found -> option chars) (pre s : chars) : option chars :=
  match fuel with
  | O => Some s
  | S fuel' =>
      match match_here ci r pre s with
      | Some f =>
          match repl f with
          | None => None
          | Some out =>
              option_map (app out)
                (if List.length (f_rest f) <? List.length s
                 then sub_try_go fuel' ci r repl (f_pre f) (f_rest f)
                 else
                   match s with
                   | [] => Some []
                   | c :: s' =>
                       option_map (cons c)
                         (sub_try_go fuel' ci r repl (c :: pre) s')
                   end)
          end
      | None =>
          match s with
          | [] => Some []
          | c :: s' =>
              option_map (cons c) (sub_try_go fuel' ci r repl (c :: pre) s')
          end
      end
  end.

(** The string-level interface. *)
Definition grp (f : found) (n : nat) : string :=
  match group (f_groups f) n with
  | Some v => to_str v
  | None => ""
  end.

Definition has_grp (f : found) (n : nat) : bool :=
  match group (f_groups f) n with
  | Some (_ :: _) => true
  | _ => false
  end.

Definition whole (f : found) : string := to_str (f_text f).

Definition search (ci : bool) (r : regex) (s : string) : option found :=
  search_l ci r (of_str s).

Definition sub (ci : bool) (r : regex) (repl : found -> string) (s : string)
  : string :=
  to_str (sub_l ci r (fun f => of_str (repl f)) (of_str s)).

Definition sub_try (ci : bool) (r : regex) (repl : found -> option string)
    (s : string) : option string :=
  option_map to_str
    (sub_try_go (S (List.length (of_str s))) ci r
       (fun f => option_map of_str (repl f)) [] (of_str s)).

(** Removal of every match: [re.sub(pattern, '', text)]. *)
Definition remove (ci : bool) (r : regex) (s : string) : string :=
  sub ci r (fun _ => "") s.

(** Pattern-building shorthands. *)
Fixpoint cat (rs : list regex) : regex :=
  match rs with
  | [] => Lit ""
  | [r] => r
  | r :: rs' => Seq r (cat rs')
  end.

Fixpoint alts (rs : list regex) : regex :=
  match rs with
  | [] => Cls false []
  | [r] => r
  | r :: rs' => Alt r (alts rs')
  end.

Definition star (r : regex) : regex := Rep true 0 None r.
Definition plus (r : regex) : regex := Rep true 1 None r.
Definition opt (r : regex) : regex := Rep true 0 (Some 1) r.
Definition lazy_star (r : regex) : regex := Rep false 0 None r.
Definition times (lo hi : nat) (r : regex) : regex := Rep true lo (Some hi) r.
Definition at_least (lo : nat) (r : regex) : regex := Rep true lo None r.

(** Every match of the pattern holds the character [c]: it stands in a
    literal that no match can skip. *)
Fixpoint needs (c : ascii) (r : regex) : bool :=
  match r with
  | Lit lit => existsb (ceqb c) (of_str lit)
  | Seq r1 r2 => needs c r1 || needs c r2
  | Alt r1 r2 => needs c r1 && needs c r2
  | Rep _ lo _ r' => (1 <=? lo) && needs c r'
  | Grp _ r' => needs c r'
  | _ => false
  end.

(** Neither an upper-case nor a lower-case letter. *)
Definition caseless (c : ascii) : bool :=
  negb (is_upper c) && negb (is_lower c).

(** What a continuation-passing matcher owes: a success continues on a
    split of the remaining input, and, when [must] holds, what was consumed
    holds [c]. *)
Definition segment_ok {R : Type} (c : ascii)
    (m : chars -> chars -> captures ->
         (chars -> chars -> captures -> option R) -> option R)
    (must : Prop) : Prop :=
  forall pre s g k x,
    m pre s g k = Some x ->
    exists mid s' g', s = mid ++ s' /\ k (rev mid ++ pre) s' g' = Some x /\
      (must -> In c mid).

(** A matcher looks at its continuation only on what remains of its own
    input. *)
Definition local_in_k {R : Type}
    (m : chars -> chars -> captures ->
         (chars -> chars -> captures -> option R) -> option R) : Prop :=
  forall pre s g k1 k2,
    (forall pre' s' g',
       List.length s' <= List.length s -> k1 pre' s' g' = k2 pre' s' g') ->
    m pre s g k1 = m pre s g k2.

Definition ws : regex := Cls false [ISpace].
Definition wd : regex := Cls false [IWord].
Definition dg : regex := Cls false [IDigit].
Definition ch (s : string) : citem :=
  match s with
  | String c _ => IChar c
  | EmptyString => IChar nl
  end.
Definition none_of (items : list citem) : regex := Cls true items.
Definition one_of (items : list citem) : regex := Cls false items.

End Re.

(** ** markdown_cleaner.py *)

Module MarkdownCleaner.

Import Py Re.

(** What [clean_image_ref] reads of [urllib.parse.urlparse(url)]. *)
Record url_parts : Type := UrlParts {
  scheme : string;
  netloc : string;
  path : string
}.

Definition ci_on : bool := true.   (* flags=re.IGNORECASE *)
Definition ci_off : bool := false.

Definition _normalize_line_breaks (text : string) : string :=
  replace (replace text (CR +:+ LF) LF) CR LF.

(** The month alternatives of [date_pattern]. *)
Definition month_names : regex :=
  alts [ cat [Lit "Jan"; opt (Lit "uary")];
         cat [Lit "Feb"; opt (Lit "ruary")];
         cat [Lit "Mar"; opt (Lit "ch")];
         cat [Lit "Apr"; opt (Lit "il")];
         Lit "May";
         cat [Lit "Jun"; opt (Lit "e")];
         cat [Lit "Jul"; opt (Lit "y")];
         cat [Lit "Aug"; opt (Lit "ust")];
         cat [Lit "Sep"; opt (Lit "tember")];
         cat [Lit "Oct"; opt (Lit "ober")];
         cat [Lit "Nov"; opt (Lit "ember")];
         cat [Lit "Dec"; opt (Lit "ember")] ].

(** The source pattern, in Python's syntax:
      (\d{1,2})\s+(Jan(?:uary)?|Feb(?:ruary)?|...|Dec(?:ember)?),?\s+(\d{4})
      \s*(?:•|·)?\s*(\d{1,2}):(\d{2})\s*([ap]m)?\s*([A-Z]{2,4})? *)
Definition date_pattern : regex :=
  cat [ Grp 1 (times 1 2 dg); plus ws;
        Grp 2 month_names; opt (Lit ","); plus ws;
        Grp 3 (times 4 4 dg); star ws;
        opt (alts [Lit "•"; Lit "·"]); star ws;
        Grp 4 (times 1 2 dg); Lit ":"; Grp 5 (times 2 2 dg); star ws;
        opt (Grp 6 (cat [one_of [ch "a"; ch "p"]; Lit "m"])); star ws;
        opt (Grp 7 (times 2 4 (one_of [IRange "A" "Z"]))) ].

Definition _extract_article_date (text : string) : string :=
  match search ci_off date_pattern text with
  | Some date_match =>
      let original_date_str := whole date_match in
      let day := grp date_match 1 in
      let month := grp date_match 2 in
      let year := grp date_match 3 in
      let hour := grp date_match 4 in
      let minute := grp date_match 5 in
      let clean_date :=
        "Published on " +:+ day +:+ " " +:+ month +:+ " " +:+ year in
      let clean_date :=
        if negb (String.eqb hour "") && negb (String.eqb minute "") then
          let time_str := hour +:+ ":" +:+ minute in
          let time_str :=
            if has_grp date_match 6
            then time_str +:+ " " +:+ grp date_match 6 else time_str in
          clean_date +:+ " at " +:+ time_str
        else clean_date in
      let clean_date :=
        if has_grp date_match 7
        then clean_date +:+ " " +:+ grp date_match 7 else clean_date in
      let text := replace text original_date_str clean_date in
      let text := replace text clean_date "" in
      let text_parts := split text (LF +:+ LF) (Some 2) in
      if 2 <=? List.length text_parts then
        if contains "![" (hd "" text_parts) then
          hd "" text_parts +:+ LF +:+ LF +:+ clean_date +:+ LF +:+ LF +:+
          join (LF +:+ LF) (tl text_parts)
        else
          hd "" text_parts +:+ LF +:+ LF +:+ clean_date +:+ LF +:+ LF +:+
          join (LF +:+ LF) (tl text_parts)
      else clean_date +:+ LF +:+ LF +:+ text
  | None => text
  end.

Section ImageReferences.

(** [urlparse] of the standard library; [None] stands for the [ValueError]
    it raises on a malformed network location. *)
Variable urlparse : string -> option url_parts.

Definition img_pattern : regex :=
  cat [ Lit "!["; Grp 1 (lazy_star Any); Lit "]("; Grp 2 (lazy_star Any);
        Lit ")" ].

Definition clean_image_ref (m : found) : option string :=
  let alt_text := strip (grp m 1) in
  let url := strip (grp m 2) in
  let alt_text := remove ci_off (cat [plus ws; Lit "image"; Eol]) alt_text in
  let alt_text :=
    remove ci_off (cat [WordB; Lit "image"; WordB; plus ws]) alt_text in
  match urlparse url with
  | None => None
  | Some url_parts =>
      let clean_url :=
        scheme url_parts +:+ "://" +:+ netloc url_parts +:+ path url_parts in
      let clean_url := replace clean_url " " "%20" in
      let clean_url :=
        sub ci_off (cat [Lit "."; plus ws]) (fun _ => ".") clean_url in
      Some ("![" +:+ alt_text +:+ "](" +:+ clean_url +:+ ")")
  end.

Definition _clean_image_references (text : string) : option string :=
  sub_try ci_off img_pattern clean_image_ref text.

End ImageReferences.

Definition stars : regex := Lit "**".

(** A run of [text = re.sub(pattern, repl, text)] statements. *)
Definition rewrite : Type := regex * (found -> string).

Definition apply_rewrites (ci : bool) (rewrites : list rewrite)
    (text : string) : string :=
  fold_left (fun text rw => sub ci (fst rw) (snd rw) text) rewrites text.

(** The source patterns and their replacements:
      (\w+)\s*\*\*\s*,\s*\*\*\s*(\w+)       \1, \2
      (\d+)\s*\*\*\s*:\s*\*\*\s*(\d+)       \1:\2
      \s+([.,;:!?])                         \1
      in\s+\*\*\s*(\w+)\s*\*\*\s*,\s*\*\*\s*(\w+)\s*\*\*     in **\1, \2**
      (\w+)\s+Super\s+Giants\s+\(\s*LSG\s*\)               Lucknow Super Giants (LSG)
      Royal\s+Challengers\s+Bengaluru\s+\(\s*RCB\s*\)      Royal Challengers Bengaluru (RCB)
      match\s+no\.\s+(\d+)                  match no. \1
      at\s+the\s+\*\*\s*(\w+(?:\s+\w+)* )\s+Stadium\s*\*\*   at the **\1 Stadium**
    (the last group has no blank before its closing parenthesis) *)
Definition text_formatting_rewrites : list rewrite :=
  [ (cat [Grp 1 (plus wd); star ws; stars; star ws; Lit ","; star ws; stars;
          star ws; Grp 2 (plus wd)],
     fun m => grp m 1 +:+ ", " +:+ grp m 2);
    (cat [Grp 1 (plus dg); star ws; stars; star ws; Lit ":"; star ws; stars;
          star ws; Grp 2 (plus dg)],
     fun m => grp m 1 +:+ ":" +:+ grp m 2);
    (cat [plus ws;
          Grp 1 (one_of [ch "."; ch ","; ch ";"; ch ":"; ch "!"; ch "?"])],
     fun m => grp m 1);
    (cat [Lit "in"; plus ws; stars; star ws; Grp 1 (plus wd); star ws; stars;
          star ws; Lit ","; star ws; stars; star ws; Grp 2 (plus wd);
          star ws; stars],
     fun m => "in **" +:+ grp m 1 +:+ ", " +:+ grp m 2 +:+ "**");
    (cat [Grp 1 (plus wd); plus ws; Lit "Super"; plus ws; Lit "Giants";
          plus ws; Lit "("; star ws; Lit "LSG"; star ws; Lit ")"],
     fun _ => "Lucknow Super Giants (LSG)");
    (cat [Lit "Royal"; plus ws; Lit "Challengers"; plus ws; Lit "Bengaluru";
          plus ws; Lit "("; star ws; Lit "RCB"; star ws; Lit ")"],
     fun _ => "Royal Challengers Bengaluru (RCB)");
    (cat [Lit "match"; plus ws; Lit "no."; plus ws; Grp 1 (plus dg)],
     fun m => "match no. " +:+ grp m 1);
    (cat [Lit "at"; plus ws; Lit "the"; plus ws; stars; star ws;
          Grp 1 (cat [plus wd; star (cat [plus ws; plus wd])]);
          plus ws; Lit "Stadium"; star ws; stars],
     fun m => "at the **" +:+ grp m 1 +:+ " Stadium**") ].

Definition _fix_text_formatting (text : string) : string :=
  apply_rewrites ci_off text_formatting_rewrites text.

(** [for pattern in patterns: text = re.sub(pattern, '', text,
    flags=re.IGNORECASE)] *)
Definition remove_all (patterns : list regex) (text : string) : string :=
  fold_left (fun text pattern => remove ci_on pattern text) patterns text.

(** The loop that keeps the lines holding none of the keywords. *)
Definition drop_keyword_lines (keywords : list string) (text : string)
  : string :=
  let lines := split text LF None in
  let cleaned_lines :=
    List.filter
      (fun line =>
         let line_lower := lower line in
         negb (existsb (fun keyword => contains keyword line_lower) keywords))
      lines in
  join LF cleaned_lines.

(** [https?:\/\/] *)
Definition http : regex := cat [Lit "http"; opt (Lit "s"); Lit "://"].

Definition shortener : regex :=
  cat [ http; alts [Lit "bit.ly"; Lit "tinyurl.com"; Lit "goo.gl"]; Lit "/";
        plus (none_of [ISpace; ch ")"]); Lit ")" ].

Definition lazy_any : regex := lazy_star Any.

(** The source patterns, applied with re.IGNORECASE:
      \*\*\s*BET\s+NOW\s*:\s*\*\*\s*\[.*?\]\(https?:\/\/(?:bit\.ly|tinyurl\.com|goo\.gl)\/[^\s)]+\)
      \[(?:Bet|Claim|Get|Grab|Win).*?(?:bonus|offer|promotion|bet|sign[\s-]?up).*?\]
          \(https?:\/\/(?:bit\.ly|tinyurl\.com|goo\.gl)\/[^\s)]+\)
      \*\*.*?WIN\s+WELCOME\s+BONUS.*?\*\*
      \[.*?(?:bet|claim|win|bonus|offer).*?\]\(https?:\/\/.*?\) *)
Definition betting_patterns : list regex :=
  [ cat [stars; star ws; Lit "BET"; plus ws; Lit "NOW"; star ws; Lit ":";
         star ws; stars; star ws; Lit "["; lazy_any; Lit "]("; shortener];
    cat [Lit "[";
         alts [Lit "Bet"; Lit "Claim"; Lit "Get"; Lit "Grab"; Lit "Win"];
         lazy_any;
         alts [Lit "bonus"; Lit "offer"; Lit "promotion"; Lit "bet";
               cat [Lit "sign"; opt (one_of [ISpace; ch "-"]); Lit "up"]];
         lazy_any; Lit "]("; shortener];
    cat [stars; lazy_any; Lit "WIN"; plus ws; Lit "WELCOME"; plus ws;
         Lit "BONUS"; lazy_any; stars];
    cat [Lit "["; lazy_any;
         alts [Lit "bet"; Lit "claim"; Lit "win"; Lit "bonus"; Lit "offer"];
         lazy_any; Lit "]("; http; lazy_any; Lit ")"] ].

Definition betting_keywords : list string :=
  [ "bet now"; "welcome bonus"; "sign up"; "click"; "sign-up"; "bonus code";
    "free bet"; "promo code"; "deposit"; "betting"; "wagering"; "sportsbook" ].

Definition _remove_betting_promotions (text : string) : string :=
  let text := remove_all betting_patterns text in
  drop_keyword_lines betting_keywords text.

Definition networks : regex :=
  alts [Lit "Twitter"; Lit "Facebook"; Lit "Instagram"; Lit "WhatsApp";
        Lit "Telegram"].

(** The source patterns, applied with re.IGNORECASE:
      \[Follow\s+(?:The\s+)?(?:\w+\s+)+on\s+(?:Twitter|Facebook|Instagram|WhatsApp|Telegram)\]
          \(https?:\/\/.*?\)
      \[Subscribe\s+to\s+our\s+(?:YouTube|Facebook|Telegram)\s+channel\]\(https?:\/\/.*?\)
      Follow\s+(?:us|The\s+\w+)\s+on\s+(?:Twitter|Facebook|Instagram|WhatsApp|Telegram)
      https?:\/\/(?:sn-now\.com|bit\.ly)\/\w+(?:WhatsApp|Facebook|Twitter|Instagram)\w* *)
Definition social_patterns : list regex :=
  [ cat [Lit "[Follow"; plus ws; opt (cat [Lit "The"; plus ws]);
         plus (cat [plus wd; plus ws]); Lit "on"; plus ws; networks;
         Lit "]("; http; lazy_any; Lit ")"];
    cat [Lit "[Subscribe"; plus ws; Lit "to"; plus ws; Lit "our"; plus ws;
         alts [Lit "YouTube"; Lit "Facebook"; Lit "Telegram"]; plus ws;
         Lit "channel]("; http; lazy_any; Lit ")"];
    cat [Lit "Follow"; plus ws;
         alts [Lit "us"; cat [Lit "The"; plus ws; plus wd]]; plus ws;
         Lit "on"; plus ws; networks];
    cat [http; alts [Lit "sn-now.com"; Lit "bit.ly"]; Lit "/"; plus wd;
         alts [Lit "WhatsApp"; Lit "Facebook"; Lit "Twitter"; Lit "Instagram"];
         star wd] ].

Definition social_keywords : list string :=
  [ "follow us"; "join us"; "subscribe"; "like our"; "share this";
    "connect with us"; "stay updated"; "don't miss"; "for more updates" ].

Definition _remove_social_media_promotions (text : string) : string :=
  let text := remove_all social_patterns text in
  drop_keyword_lines social_keywords text.

(** [\[.*?\]\(https?:\/\/.*?\)] *)
Definition any_link : regex :=
  cat [Lit "["; lazy_any; Lit "]("; http; lazy_any; Lit ")"].

(** The source patterns, applied with re.IGNORECASE:
      \*\*\s*READ\s+MORE\s*:\s*\*\*\s*\[.*?\]\(https?:\/\/.*?\)
      \[ALSO\s+READ:.*?\]\(https?:\/\/.*?\)
      \*\*\s*RELATED:?\s*\*\*\s*\[.*?\]\(https?:\/\/.*?\)
      \*\*\s*CHECK\s+OUT:?\s*\*\*\s*\[.*?\]\(https?:\/\/.*?\) *)
Definition article_patterns : list regex :=
  [ cat [stars; star ws; Lit "READ"; plus ws; Lit "MORE"; star ws; Lit ":";
         star ws; stars; star ws; any_link];
    cat [Lit "[ALSO"; plus ws; Lit "READ:"; lazy_any; Lit "]("; http;
         lazy_any; Lit ")"];
    cat [stars; star ws; Lit "RELATED"; opt (Lit ":"); star ws; stars;
         star ws; any_link];
    cat [stars; star ws; Lit "CHECK"; plus ws; Lit "OUT"; opt (Lit ":");
         star ws; stars; star ws; any_link] ].

Definition _remove_other_article_promotions (text : string) : string :=
  remove_all article_patterns text.

(** The source patterns, applied with re.IGNORECASE:
      For\s+more\s+(?:updates|news|information)\s+on.*?visit\s+our\s+website
      Don\'t\s+forget\s+to\s+(?:follow|subscribe|check)\s+us\s+on
      Copyright\s+©\s+\d{4}.*?All\s+rights\s+reserved
      © \d{4}(?:–\d{4})?\s+(?:\w+\s+)+\.\s+All\s+rights\s+reserved\. *)
Definition footer_patterns : list regex :=
  [ cat [Lit "For"; plus ws; Lit "more"; plus ws;
         alts [Lit "updates"; Lit "news"; Lit "information"]; plus ws;
         Lit "on"; lazy_any; Lit "visit"; plus ws; Lit "our"; plus ws;
         Lit "website"];
    cat [Lit "Don't"; plus ws; Lit "forget"; plus ws; Lit "to"; plus ws;
         alts [Lit "follow"; Lit "subscribe"; Lit "check"]; plus ws;
         Lit "us"; plus ws; Lit "on"];
    cat [Lit "Copyright"; plus ws; Lit "©"; plus ws; times 4 4 dg; lazy_any;
         Lit "All"; plus ws; Lit "rights"; plus ws; Lit "reserved"];
    cat [Lit "© "; times 4 4 dg; opt (cat [Lit "–"; times 4 4 dg]); plus ws;
         plus (cat [plus wd; plus ws]); Lit "."; plus ws; Lit "All"; plus ws;
         Lit "rights"; plus ws; Lit "reserved."] ].

Definition _remove_footer_elements (text : string) : string :=
  remove_all footer_patterns text.

Definition punct : regex :=
  one_of [ch ","; ch "."; ch ";"; ch ":"; ch "!"; ch "?"].

(** The source patterns and their replacements:
      \*\*\s+\*\*           ' '
      \*\*\)\s+\*\*         two stars, a closing parenthesis, a blank
      \*\*\s*,\s*\*\*       ', '
      \*\*\s+(\w+)\*\*      \1 between two pairs of stars
      (\w+)\s+\*\*          \1 followed by two stars
      \*\*\s*([,.;:!?])     \1
      \*\*\*\*              '**' *)
Definition bold_rewrites : list rewrite :=
  [ (cat [stars; plus ws; stars], fun _ => " ");
    (cat [Lit "**)"; plus ws; stars], fun _ => "**) ");
    (cat [stars; star ws; Lit ","; star ws; stars], fun _ => ", ");
    (cat [stars; plus ws; Grp 1 (plus wd); stars],
     fun m => "**" +:+ grp m 1 +:+ "**");
    (cat [Grp 1 (plus wd); plus ws; stars], fun m => grp m 1 +:+ "**");
    (cat [stars; star ws; Grp 1 punct], fun m => grp m 1);
    (Lit "****", fun _ => "**") ].

Definition _fix_bold_formatting (text : string) : string :=
  apply_rewrites ci_off bold_rewrites text.

(** [\w+(?:\s+\w+)*] *)
Definition words : regex := cat [plus wd; star (cat [plus ws; plus wd])].

(** The source pattern:
      (\w+(?:\s+\w+)* )\s+\((\w+)\)\s+(?:vs|versus|v\/s|will\s+(?:face|play|meet))
          \s+(\w+(?:\s+\w+)* )\s+\((\w+)\)   (without the blank before the closing parenthesis of groups 1 and 3) *)
Definition team_match_pattern : regex :=
  cat [ Grp 1 words; plus ws; Lit "("; Grp 2 (plus wd); Lit ")"; plus ws;
        alts [Lit "vs"; Lit "versus"; Lit "v/s";
              cat [Lit "will"; plus ws;
                   alts [Lit "face"; Lit "play"; Lit "meet"]]];
        plus ws; Grp 3 words; plus ws; Lit "("; Grp 4 (plus wd); Lit ")" ].

Definition team_to_heading (m : found) : string :=
  "## " +:+ grp m 1 +:+ " (" +:+ grp m 2 +:+ ") vs " +:+ grp m 3 +:+ " (" +:+ grp m 4 +:+ ")".

(** The source pattern:
      at\s+the\s+\*\*\s*([\w\s]+Stadium[\w\s]* )\s*\*\*\s+in\s+\*\*\s*([\w\s,]+)\s*\*\*
          (without the blank before the closing parenthesis of group 1) *)
Definition stadium_pattern : regex :=
  cat [ Lit "at"; plus ws; Lit "the"; plus ws; stars; star ws;
        Grp 1 (cat [plus (one_of [IWord; ISpace]); Lit "Stadium";
                    star (one_of [IWord; ISpace])]);
        star ws; stars; plus ws; Lit "in"; plus ws; stars; star ws;
        Grp 2 (plus (one_of [IWord; ISpace; ch ","])); star ws; stars ].

Definition stadium_to_heading (m : found) : string :=
  "### Venue: " +:+ grp m 1 +:+ " in " +:+ grp m 2.

(** [[\s\S]*?] *)
Definition lazy_anything : regex := lazy_star (one_of [ISpace; INotSpace]).

(** The source pattern, searched with re.IGNORECASE:
      (match\s+no\.\s+(\d+)[\s\S]*?IPL[\s\S]*?\d{4}) *)
Definition match_info_pattern : regex :=
  Grp 1 (cat [Lit "match"; plus ws; Lit "no."; plus ws; Grp 2 (plus dg);
              lazy_anything; Lit "IPL"; lazy_anything; times 4 4 dg]).

Definition _fix_heading_structure (text : string) : string :=
  let text := sub ci_off team_match_pattern team_to_heading text in
  let text := sub ci_off stadium_pattern stadium_to_heading text in
  if contains "match no." (lower text) then
    match search ci_on match_info_pattern text with
    | Some m =>
        let match_info := grp m 1 in
        replace text match_info ("### Match Information" +:+ LF +:+ match_info)
    | None => text
    end
  else text.

Definition logo_terms : regex :=
  alts [Lit "logo"; Lit "icon"; Lit "badge"; Lit "emblem"; Lit "symbol"].

(** [(?:width|height)="?(?:20|30|40|50|60|70|80|90|100)"?] *)
Definition small_size : regex :=
  let quote := Lit (String (ascii_of_nat 34) EmptyString) in
  cat [ alts [Lit "width"; Lit "height"]; Lit "="; opt quote;
        alts [Lit "20"; Lit "30"; Lit "40"; Lit "50"; Lit "60"; Lit "70";
              Lit "80"; Lit "90"; Lit "100"];
        opt quote ].

Definition not_gt : regex := lazy_star (none_of [ch ">"]).

(** The source patterns, applied with re.IGNORECASE:
      !\[.*?(?:logo|icon|badge|emblem|symbol).*?\]\(.*?\)
      !\[.*?\]\(.*?(?:logo|icon|badge|emblem|symbol).*?\)
      !\[.*?\]\(.*?(?:width|height)=...(?:20|30|40|50|60|70|80|90|100)....*?\)
      !\[\]\(.*?\)
      <img[^>]*?(?:logo|icon|badge|emblem|symbol)[^>]*?>
      <img[^>]*?(?:width|height)=...(?:20|30|40|50|60|70|80|90|100)...[^>]*?>
      where ... stands for an optional double quote *)
Definition logo_patterns : list regex :=
  [ cat [Lit "!["; lazy_any; logo_terms; lazy_any; Lit "]("; lazy_any;
         Lit ")"];
    cat [Lit "!["; lazy_any; Lit "]("; lazy_any; logo_terms; lazy_any;
         Lit ")"];
    cat [Lit "!["; lazy_any; Lit "]("; lazy_any; small_size; lazy_any;
         Lit ")"];
    cat [Lit "![]("; lazy_any; Lit ")"];
    cat [Lit "<img"; not_gt; logo_terms; not_gt; Lit ">"];
    cat [Lit "<img"; not_gt; small_size; not_gt; Lit ">"] ].

Definition _remove_logos (text : string) : string :=
  remove_all logo_patterns text.

(** The source pattern:
      \[([^\]]+)\]\(([^)]+)\) *)
Definition link_pattern : regex :=
  cat [ Lit "["; Grp 1 (plus (none_of [ch "]"])); Lit "](";
        Grp 2 (plus (none_of [ch ")"])); Lit ")" ].

Definition _remove_general_links (text : string) : string :=
  sub ci_off link_pattern (fun m => grp m 1) text.

Definition nlr : regex := Lit LF.

(** The source patterns and their replacements:
      \n{3,}                    two newlines
       +\n                      one newline
      (\n#{1,3} .+)\n(?!$|#|\n)   \1 and two newlines
       {2,}                     one blank *)
Definition whitespace_rewrites : list rewrite :=
  [ (at_least 3 nlr, fun _ => LF +:+ LF);
    (cat [plus (Lit " "); nlr], fun _ => LF);
    (cat [Grp 1 (cat [nlr; times 1 3 (Lit "#"); Lit " "; plus Any]); nlr;
          NotAhead (alts [Eol; Lit "#"; nlr])],
     fun m => grp m 1 +:+ LF +:+ LF);
    (at_least 2 (Lit " "), fun _ => " ") ].

Definition _clean_whitespace (text : string) : string :=
  let text := apply_rewrites ci_off whitespace_rewrites text in
  strip text.

Section Clean.

Variable urlparse : string -> option url_parts.

(** [verbose] only adds the statistics report, which divides by the length
    of the input. *)
Variable verbose : bool.

Definition clean (text : string) : option string :=
  if verbose && (String.length text =? 0) then None else
  let cleaned_text := text in
  let cleaned_text := _normalize_line_breaks cleaned_text in
  let cleaned_text := _extract_article_date cleaned_text in
  match _clean_image_references urlparse cleaned_text with
  | None => None
  | Some cleaned_text =>
      let cleaned_text := _remove_logos cleaned_text in
      let cleaned_text := _remove_general_links cleaned_text in
      let cleaned_text := _fix_text_formatting cleaned_text in
      let cleaned_text := _remove_betting_promotions cleaned_text in
      let cleaned_text := _remove_social_media_promotions cleaned_text in
      let cleaned_text := _remove_other_article_promotions cleaned_text in
      let cleaned_text := _remove_footer_elements cleaned_text in
      let cleaned_text := _fix_bold_formatting cleaned_text in
      let cleaned_text := _fix_heading_structure cleaned_text in
      let cleaned_text := _clean_whitespace cleaned_text in
      Some cleaned_text
  end.

End Clean.

End MarkdownCleaner.

(** ** Exceptions and awaited results

    The sources signal failure by raising; a call that may raise returns an
    [outcome].  The classes are the ones the handlers of the sources tell
    apart, all of them subclasses of Python's [Exception]; an exception that
    belongs to several of them carries the class of the first handler that
    would take it. *)

Module Exc.

Inductive exn_class : Type :=
  | TimeoutError      (* asyncio.TimeoutError *)
  | ClientError       (* aiohttp.ClientError *)
  | TypeError
  | OtherError.

Record exn : Type := Exn { exn_kind : exn_class; exn_msg : string }.

Inductive outcome (A : Type) : Type :=
  | Ret (a : A)
  | Raise (e : exn).

Arguments Ret {A} a.
Arguments Raise {A} e.

Definition bind {A B : Type} (m : outcome A) (f : A -> outcome B)
  : outcome B :=
  match m with
  | Ret a => f a
  | Raise e => Raise e
  end.

(** [try: body  except ...: handler] *)
Definition try_except {A : Type} (body : outcome A)
    (handler : exn -> outcome A) : outcome A :=
  match body with
  | Ret a => Ret a
  | Raise e => handler e
  end.

(** [asyncio.gather]: every task runs to its end, in the order of
    the finish times; a result is stored at the index of its awaitable, and
    the first exception to occur is the one the caller sees. *)
Section Gather.

Context {A : Type}.

(** A task: the time at which it finishes and what it ends with. *)
Definition task : Type := nat * outcome A.

Fixpoint insert_by_time (x : nat * task) (l : list (nat * task))
  : list (nat * task) :=
  match l with
  | [] => [x]
  | y :: l' =>
      if fst (snd x) <=? fst (snd y) then x :: l
      else y :: insert_by_time x l'
  end.

Definition completion_order (tasks : list task) : list (nat * task) :=
  fold_right insert_by_time [] (combine (seq 0 (List.length tasks)) tasks).

Fixpoint fill (slots : list (option A)) (done : list (nat * task))
  : outcome (list (option A)) :=
  match done with
  | [] => Ret slots
  | (i, (_, Ret a)) :: rest => fill (<[i := Some a]> slots) rest
  | (_, (_, Raise e)) :: _ => Raise e
  end.

Definition gather (tasks : list task) : outcome (list A) :=
  bind (fill (replicate (List.length tasks) None) (completion_order tasks))
       (fun slots => Ret (omap id slots)).

(** The slots hold nothing but the values of their own index. *)
Definition agrees (vals : list A) (slots : list (option A)) : Prop :=
  List.length slots = List.length vals /\
  forall i x, slots !! i = Some (Some x) -> vals !! i = Some x.

Definition filled (slots : list (option A)) (i : nat) : Prop :=
  exists x, slots !! i = Some (Some x).

End Gather.

End Exc.

Notation "'do' x <- m ; k" := (Exc.bind m (fun x => k))
  (at level 10, x name, m at level 100, k at level 200,
   format "'[v' 'do'  x  <-  m ; '/' k ']'").

(** ** oprah.py *)

Module Oprah.

Import Py Exc.

(** What the search service answers: the status and the decoded JSON body,
    an object whose ["results"] entry, when present, lists objects that may
    hold a ["url"]. *)
Record search_hit : Type := SearchHit { hit_url : option string }.

Record search_reply : Type := SearchReply {
  reply_status : Z;
  reply_json : outcome (option (list search_hit))
}.

(** What a page fetch answers: the status and the awaited body text. *)
Record http_response : Type := HttpResponse {
  status : Z;
  text : outcome string
}.

(** Everything [oprah.py] reaches outside the repository. *)
Record world : Type := World {
  (* [getenv('SEARCH_URL')] *)
  SEARCH_URL : string;
  (* the GET on the search service, by request URL *)
  search_get : string -> outcome search_reply;
  (* [request.app.state.aiohttp_session.get(url, allow_redirects=True)] *)
  session_get : string -> outcome http_response;
  (* when the fetch of a URL finishes *)
  finish_time : string -> nat;
  (* [BeautifulSoup(html).find_all] on the heading, paragraph and anchor
     tags, then [markdownify] *)
  markdownify_tags : string -> outcome string;
  (* [MarkdownTextSplitter().split_text] *)
  split_text : string -> outcome (list string);
  (* [MarkdownParser().parse] *)
  parser_parse : string -> outcome string;
  (* [urllib.parse.urlparse], [None] when it raises *)
  urlparse : string -> option MarkdownCleaner.url_parts
}.

Definition str_of_int (z : Z) : string :=
  DecimalString.NilZero.string_of_int (Z.to_int z).

Section WithWorld.

Variable w : world.

(** [markdown_cleaner = MarkdownCleaner()]: the cleaner of the module, not
    verbose. *)
Definition markdown_cleaner_clean (markdown : string) : outcome string :=
  match MarkdownCleaner.clean (urlparse w) false markdown with
  | Some cleaned => Ret cleaned
  | None => Raise (Exn OtherError "Invalid IPv6 URL")
  end.

Definition parse_html_content (html : string) : option string :=
  let body :=
    do markdown <- markdownify_tags w html;
    do cleaned_markdown <- markdown_cleaner_clean markdown;
    do split_text_ <- split_text w cleaned_markdown;
    let mtext :=
      fold_left (fun mtext text => mtext +:+ text +:+ LF) split_text_ "" in
    do mrtext <- parser_parse w mtext;
    Ret (Some mrtext) in
  match body with
  | Ret r => r
  | Raise _ => None
  end.

(** The body of the [try] of [fetch_article]. *)
Definition fetch_article_try (url : string) : outcome string :=
  do response <- session_get w url;
  if negb (Z.eqb (status response) 200) then
    Ret ("[Fetch Failed: " +:+ str_of_int (status response) +:+ "] " +:+ url)
  else
    do html <- text response;
    match parse_html_content html with
    | None | Some "" => Ret ("[Parse Failed] " +:+ url)
    | Some parsed_content =>
        Ret (parsed_content +:+ LF +:+ "Source: " +:+ url +:+ LF)
    end.

Definition fetch_article_except (url : string) (e : exn) : outcome string :=
  match exn_kind e with
  | TimeoutError => Ret ("[Timeout] " +:+ url)
  | ClientError => Ret ("[ClientError] " +:+ url)
  | _ => Ret ("[UnhandledError] " +:+ url)
  end.

Definition fetch_article (url : string) : outcome string :=
  try_except (fetch_article_try url) (fetch_article_except url).

Definition blocked_domains : list string :=
  [ "britannica.com"; "youtube.com"; "youtu.be"; "instagram.com";
    "facebook.com"; "twitter.com"; "x.com" ].

Definition skip_set : list string :=
  [ "https://uplegisassembly.gov.in/index_en.html" ].

(** The condition of the list comprehension of [get_news_urls]. *)
Definition keep_hit (result : search_hit) : bool :=
  match hit_url result with
  | None => false
  | Some url =>
      startswith url "https://"
      && negb (endswith (lower url) ".pdf")
      && forallb (fun domain => negb (contains domain url)) blocked_domains
      && negb (existsb (String.eqb url) skip_set)
  end.

Definition hit_urls (hits : list search_hit) : list string :=
  omap hit_url (List.filter keep_hit hits).

Definition search_request (query : string) : string :=
  let modified_query := replace query " " "+" in
  let modified_query :=
    if contains "latest" (lower query) || contains "current" (lower query)
    then modified_query +:+ "&time_range=day" else modified_query in
  SEARCH_URL w +:+ "?q=" +:+ modified_query +:+ "&format=json".

Definition get_news_urls (query : string) : outcome (list string) :=
  do response <- search_get w (search_request query);
  if negb (Z.eqb (reply_status response) 200) then Ret []
  else
    do data <- reply_json response;
    let sorted_results := data in
    let urls :=
      firstn 6 (hit_urls (match sorted_results with
                          | Some results => results
                          | None => []
                          end)) in
    Ret (elements (list_to_set urls : gset string)).

Definition webscraper (query : string) : outcome (option (list string)) :=
  do urls <- get_news_urls query;
  match urls with
  | [] => Ret None
  | _ :: _ =>
      let tasks :=
        map (fun url => (finish_time w url, fetch_article url)) urls in
      do results <- gather tasks;
      Ret (Some results)
  end.

End WithWorld.

End Oprah.

(** ** webthinker.py *)

Module WebThinker.

Import Py Exc.

(** The model and retrieval services behind [WebThinkerAgent]. *)
Record services : Type := Services {
  (* [embeddings.embed_query("hello world")] of [get_vector_store] *)
  embed_probe : outcome unit;
  (* the embedding calls of [add_texts] and of [similarity_search] *)
  embed_documents : list string -> outcome unit;
  embed_query : string -> outcome unit;
  (* L2 distance between the embeddings of a query and of a text *)
  distance : string -> string -> nat;
  (* [int(getenv('NUMBER_OF_POINTS'))] *)
  NUMBER_OF_POINTS : outcome nat;
  (* [(self.extraction_prompt | self.llm).ainvoke], and when it finishes *)
  extraction_chain : string -> string -> outcome string;
  extraction_time : string -> nat;
  (* [(self.join_prompt | self.llm).ainvoke] *)
  finalized_chain : string -> string -> outcome string
}.

(** The value under ["extracted_info"]: the summary, or the empty list of
    the degraded result. *)
Inductive info : Type :=
  | Summary (s : string)
  | EmptyList.

Record result : Type := Result {
  search_results : list string;
  extracted_info : info
}.

(** *** The admission gate of [gather_extracted_info]

    [asyncio.Semaphore(5)] and the tasks that go through
    [async with semaphore]: a task waits at the gate, is inside
    [extract_information], or has left. *)

Inductive phase : Type :=
  | Waiting
  | Extracting
  | Finished.

Record gate : Type := Gate {
  value : nat;            (* the counter of the semaphore *)
  phases : list phase     (* one per element of [final_results] *)
}.

Definition semaphore_init : nat := 5.

Definition gate_init (n : nat) : gate :=
  Gate semaphore_init (replicate n Waiting).

Definition phase_eqb (p q : phase) : bool :=
  match p, q with
  | Waiting, Waiting | Extracting, Extracting | Finished, Finished => true
  | _, _ => false
  end.

(** [semaphore.acquire()] without blocking: only while the counter is
    positive. *)
Definition enter (i : nat) (st : gate) : option gate :=
  match phases st !! i with
  | Some Waiting =>
      if 0 <? value st
      then Some (Gate (value st - 1) (<[i := Extracting]> (phases st)))
      else None
  | _ => None
  end.

(** The end of [extract_information] and [semaphore.release()]. *)
Definition leave (i : nat) (st : gate) : option gate :=
  match phases st !! i with
  | Some Extracting =>
      Some (Gate (value st + 1) (<[i := Finished]> (phases st)))
  | _ => None
  end.

(** What the event loop may do next, and a run of it from a state; an
    event that is not enabled stops the run. *)
Inductive event : Type :=
  | Enter (i : nat)
  | Leave (i : nat).

Definition fire (e : event) (st : gate) : option gate :=
  match e with
  | Enter i => enter i st
  | Leave i => leave i st
  end.

Fixpoint run_events (es : list event) (st : gate) : option gate :=
  match es with
  | [] => Some st
  | e :: es' =>
      match fire e st with
      | Some st' => run_events es' st'
      | None => None
      end
  end.

Definition in_flight (st : gate) : nat :=
  List.length (List.filter (phase_eqb Extracting) (phases st)).

Definition waiting (st : gate) : nat :=
  List.length (List.filter (phase_eqb Waiting) (phases st)).

Definition all_finished (st : gate) : bool :=
  forallb (phase_eqb Finished) (phases st).

Definition b2n (b : bool) : nat := if b then 1 else 0.

(** The counter and the calls in flight add up to the initial value. *)
Definition gate_ok (st : gate) : Prop :=
  value st + in_flight st = semaphore_init.


Section WithServices.

Variable w : Oprah.world.
Variable sv : services.

Definition extract_information (question search_results_ : string)
  : outcome string :=
  try_except
    (do extracted_info_ <- extraction_chain sv question search_results_;
     Ret extracted_info_)
    (fun e => Ret ("Error extracting information: " +:+ exn_msg e)).

Definition gather_extracted_info (question : string)
    (final_results : list string) : outcome string :=
  let safe_extract (result_ : string) :=
    (extraction_time sv result_, extract_information question result_) in
  let tasks := map safe_extract final_results in
  do extracted_info_list <- gather tasks;
  let total_extracted_info := join (LF +:+ LF) extracted_info_list in
  Ret total_extracted_info.

(** The FAISS store of one call: created empty by [get_vector_store], it
    holds the texts in insertion order. *)
Definition get_vector_store : outcome (list string) :=
  do _ <- embed_probe sv;
  Ret [].

Definition add_texts (vector_store texts : list string)
  : outcome (list string) :=
  do _ <- embed_documents sv texts;
  Ret (vector_store ++ texts).

Fixpoint insert_by_distance (question doc : string) (ranked : list string)
  : list string :=
  match ranked with
  | [] => [doc]
  | d :: ranked' =>
      if distance sv question doc <=? distance sv question d
      then doc :: ranked
      else d :: insert_by_distance question doc ranked'
  end.

Definition nearest_first (question : string) (docs : list string)
  : list string :=
  fold_right (insert_by_distance question) [] docs.

(** [FAISS.similarity_search] embeds the query and then searches the
    index, where [faiss] asserts [k > 0]; a hit that the index cannot
    supply is skipped, so fewer than [k] texts come back from a small
    index. *)
Definition similarity_search (vector_store : list string)
    (question : string) (k : nat) : outcome (list string) :=
  do _ <- embed_query sv question;
  if k =? 0 then Raise (Exn OtherError "")
  else Ret (firstn k (nearest_first question vector_store)).

(** The list comprehension of [search]; iterating over [None] raises. *)
Definition keep_results (scraped : option (list string))
  : outcome (list string) :=
  match scraped with
  | None => Raise (Exn TypeError "'NoneType' object is not iterable")
  | Some results =>
      Ret (List.filter (fun result_ => negb (String.eqb (strip result_) ""))
                       results)
  end.

Definition no_information : string := "No relevant information found.".

(** What [search] hands to [gather_extracted_info]. *)
Definition retrieve (question : string) (search_results_ : list string)
  : outcome (list string) :=
  do vector_store <- get_vector_store;
  do vector_store <-
    match search_results_ with
    | [] => Ret vector_store
    | _ :: _ => add_texts vector_store search_results_
    end;
  do k <- NUMBER_OF_POINTS sv;
  do final_results <- similarity_search vector_store question k;
  match final_results with
  | [] => Ret [no_information]
  | _ :: _ => Ret final_results
  end.

(** The body of the [try] of [WebThinkerAgent.search]. *)
Definition search_try (question : string) : outcome result :=
  do scraped <- Oprah.webscraper w question;
  do search_results_ <- keep_results scraped;
  do final_results <- retrieve question search_results_;
  do total_extracted_info <- gather_extracted_info question final_results;
  do finalized_summary <- finalized_chain sv question total_extracted_info;
  Ret (Result search_results_ (Summary finalized_summary)).

Definition degraded : result := Result [] EmptyList.

Definition search (question : string) : outcome result :=
  try_except (search_try question) (fun _ => Ret degraded).

End WithServices.

(** *** [search_web] under [alru_cache]

    The decorator keys an entry on the arguments of the call, here the
    [Request] object and the query; a [Request] is equal to itself only, so
    it is known by its identity.  An entry lives [ttl] seconds ([None]:
    for ever); at most [maxsize] entries are kept, the least recently used
    one leaving first. *)

Record cache_item : Type := CacheItem {
  item_request : nat;
  item_query : string;
  item_value : outcome info;
  item_expiry : option nat
}.

Record cache : Type := Cache {
  items : list cache_item;          (* least recently used first *)
  runs : list (nat * string)        (* the calls that ran the pipeline *)
}.

Definition cache_empty : cache := Cache [] [].

Definition maxsize : nat := 128.

Section SearchWeb.

(** The state of the outside world at each instant. *)
Variable world_at : nat -> Oprah.world.
Variable services_at : nat -> services.

(** [literal_eval(getenv('TTL_CACHE'))] *)
Variable ttl : option nat.

Definition alive (now : nat) (it : cache_item) : bool :=
  match item_expiry it with
  | None => true
  | Some t => now <? t
  end.

Definition same_key (request : nat) (query : string) (it : cache_item)
  : bool :=
  Nat.eqb (item_request it) request && String.eqb (item_query it) query.

(** The decorated function. *)
Definition search_web_wrapped (now : nat) (query : string) : outcome info :=
  do results <- search (world_at now) (services_at now) query;
  Ret (extracted_info results).

Definition search_web (c : cache) (now request : nat) (query : string)
  : outcome info * cache :=
  let live := List.filter (alive now) (items c) in
  match List.find (same_key request query) live with
  | Some it =>
      (item_value it,
       Cache (List.filter (fun x => negb (same_key request query x)) live
              ++ [it])
             (runs c))
  | None =>
      let v := search_web_wrapped now query in
      let kept :=
        match v with
        | Ret _ =>
            let added :=
              live ++ [CacheItem request query v
                         (option_map (fun t => now + t) ttl)] in
            if maxsize <? List.length added then tl added else added
        | Raise _ => live
        end in
      (v, Cache kept (runs c ++ [(request, query)]))
  end.

End SearchWeb.

End WebThinker.

(** ** The specification's vocabulary

    Definitions that follow the words of the specification, to be compared
    with the ones that follow the sources. *)

Module Spec.

Import Py Re Exc.

(** *** FetchOutcome (section 3 of the specification) *)

Inductive FetchOutcome : Type :=
  | Success (text : string)
  | FetchFailed (status : Z) (url : string)
  | ParseFailed (url : string)
  | Timeout (url : string)
  | ClientFailed (url : string)
  | UnhandledError (url : string).

(** The string under which an outcome travels through the pipeline. *)
Definition marker (o : FetchOutcome) : string :=
  match o with
  | Success text => text
  | FetchFailed status url =>
      "[Fetch Failed: " +:+ Oprah.str_of_int status +:+ "] " +:+ url
  | ParseFailed url => "[Parse Failed] " +:+ url
  | Timeout url => "[Timeout] " +:+ url
  | ClientFailed url => "[ClientError] " +:+ url
  | UnhandledError url => "[UnhandledError] " +:+ url
  end.

Definition is_failure (o : FetchOutcome) : bool :=
  match o with
  | Success _ => false
  | _ => true
  end.

(** Timeout, transport error, any other unexpected failure. *)
Definition failure_of (e : exn) (url : string) : FetchOutcome :=
  match exn_kind e with
  | TimeoutError => Timeout url
  | ClientError => ClientFailed url
  | TypeError | OtherError => UnhandledError url
  end.

(** Extraction that "yields no usable text". *)
Definition usable (extracted : option string) : option string :=
  match extracted with
  | None | Some "" => None
  | Some cleaned => Some cleaned
  end.

(** Section 4.2: what [fetch] returns for a URL. *)
Definition fetch_spec (w : Oprah.world) (url : string) : FetchOutcome :=
  match Oprah.session_get w url with
  | Raise e => failure_of e url
  | Ret response =>
      if Z.eqb (Oprah.status response) 200 then
        match Oprah.text response with
        | Raise e => failure_of e url
        | Ret html =>
            match usable (Oprah.parse_html_content w html) with
            | Some cleaned =>
                Success (cleaned +:+ LF +:+ "Source: " +:+ url +:+ LF)
            | None => ParseFailed url
            end
        end
      else FetchFailed (Oprah.status response) url
  end.

(** *** CandidateURL (sections 3 and 4.1) *)

Definition passes (url : string) : Prop :=
  startswith url "https://" = true /\
  endswith (lower url) ".pdf" = false /\
  (forall domain, domain ∈ Oprah.blocked_domains ->
                  contains domain url = false) /\
  url ∉ Oprah.skip_set.

(** *** TextCleaner (section 4.3): the rules a to m *)

Definition rule : Type := string -> option string.

Definition lift (f : string -> string) : rule := fun text => Some (f text).

(** Sequential composition; a rule that raises ends it. *)
Fixpoint run_rules (rules : list rule) (text : string) : option string :=
  match rules with
  | [] => Some text
  | r :: rules' =>
      match r text with
      | Some text' => run_rules rules' text'
      | None => None
      end
  end.

Section Rules.

Variable urlparse : string -> option MarkdownCleaner.url_parts.

Definition rule_a : rule := lift MarkdownCleaner._normalize_line_breaks.
Definition rule_b : rule := lift MarkdownCleaner._extract_article_date.
Definition rule_c : rule := MarkdownCleaner._clean_image_references urlparse.
Definition rule_d : rule := lift MarkdownCleaner._fix_text_formatting.
Definition rule_e : rule := lift MarkdownCleaner._remove_betting_promotions.
Definition rule_f : rule :=
  lift MarkdownCleaner._remove_social_media_promotions.
Definition rule_g : rule :=
  lift MarkdownCleaner._remove_other_article_promotions.
Definition rule_h : rule := lift MarkdownCleaner._remove_footer_elements.
Definition rule_i : rule := lift MarkdownCleaner._remove_logos.
Definition rule_j : rule := lift MarkdownCleaner._remove_general_links.
Definition rule_k : rule := lift MarkdownCleaner._fix_bold_formatting.
Definition rule_l : rule := lift MarkdownCleaner._fix_heading_structure.
Definition rule_m : rule := lift MarkdownCleaner._clean_whitespace.

(** The order in which the specification lists the rules. *)
Definition spec_order : list rule :=
  [ rule_a; rule_b; rule_c; rule_d; rule_e; rule_f; rule_g; rule_h; rule_i;
    rule_j; rule_k; rule_l; rule_m ].

(** The order in which [clean] calls them. *)
Definition code_order : list rule :=
  [ rule_a; rule_b; rule_c; rule_i; rule_j; rule_d; rule_e; rule_f; rule_g;
    rule_h; rule_k; rule_l; rule_m ].

Definition clean_in_spec_order (text : string) : option string :=
  run_rules spec_order text.

End Rules.

(** The rules for which the specification asks idempotence. *)
Inductive late_rule : Type :=
  | RuleG | RuleH | RuleI | RuleJ | RuleK | RuleL | RuleM.

Definition apply_rule (r : late_rule) : string -> string :=
  match r with
  | RuleG => MarkdownCleaner._remove_other_article_promotions
  | RuleH => MarkdownCleaner._remove_footer_elements
  | RuleI => MarkdownCleaner._remove_logos
  | RuleJ => MarkdownCleaner._remove_general_links
  | RuleK => MarkdownCleaner._fix_bold_formatting
  | RuleL => MarkdownCleaner._fix_heading_structure
  | RuleM => MarkdownCleaner._clean_whitespace
  end.

(** [re.search(pattern, text)] finds something. *)
Definition matches (ci : bool) (r : regex) (text : string) : bool :=
  match search ci r text with
  | Some _ => true
  | None => false
  end.

Definition none_matches (ci : bool) (patterns : list regex) (text : string)
  : bool :=
  forallb (fun p => negb (matches ci p text)) patterns.

(** The patterns a rule substitutes, with their flag. *)
Definition rule_patterns (r : late_rule) : bool * list regex :=
  match r with
  | RuleG => (MarkdownCleaner.ci_on, MarkdownCleaner.article_patterns)
  | RuleH => (MarkdownCleaner.ci_on, MarkdownCleaner.footer_patterns)
  | RuleI => (MarkdownCleaner.ci_on, MarkdownCleaner.logo_patterns)
  | RuleJ => (MarkdownCleaner.ci_off, [MarkdownCleaner.link_pattern])
  | RuleK => (MarkdownCleaner.ci_off, map fst MarkdownCleaner.bold_rewrites)
  | RuleL =>
      (MarkdownCleaner.ci_off,
       [MarkdownCleaner.team_match_pattern; MarkdownCleaner.stadium_pattern])
  | RuleM =>
      (MarkdownCleaner.ci_off, map fst MarkdownCleaner.whitespace_rewrites)
  end.

(** A text in which the rule finds nothing left to rewrite. *)
Definition settled (r : late_rule) (text : string) : bool :=
  none_matches (fst (rule_patterns r)) (snd (rule_patterns r)) text
  && match r with
     | RuleL =>
         negb (matches MarkdownCleaner.ci_on
                 MarkdownCleaner.match_info_pattern text)
     | _ => true
     end.

(** The characters without which a rule cannot fire, where there are
    such: a text that holds none of them is out of the rule's reach. *)
Definition absent (c : ascii) (text : string) : bool :=
  negb (existsb (ceqb c) (of_str text)).

Definition triggers (r : late_rule) : list ascii :=
  match r with
  | RuleG | RuleJ => ["["%char]
  | RuleI => ["!"%char; "<"%char]
  | RuleK => ["*"%char]
  | RuleL => ["("%char; "*"%char; "."%char]
  | RuleH | RuleM => []
  end.

Definition all_patterns (r : late_rule) : list regex :=
  snd (rule_patterns r) ++
  match r with
  | RuleL => [MarkdownCleaner.match_info_pattern]
  | _ => []
  end.

Definition needs_one_of (cs : list ascii) (p : regex) : bool :=
  existsb (fun c => caseless c && needs c p) cs.

(** Each pattern of the rule needs one of the rule's triggers. *)
Definition covered (r : late_rule) : bool :=
  forallb (needs_one_of (triggers r)) (all_patterns r).

Definition inert (r : late_rule) (text : string) : bool :=
  forallb (fun c => absent c text) (triggers r).

End Spec.

(** ** Concrete worlds for the examples *)

Module Examples.

Import Py Exc Oprah WebThinker.

(** A [urlparse] that always raises; the texts of the examples hold no
    image reference, so it is never called. *)
Definition urlparse_raises : string -> option MarkdownCleaner.url_parts :=
  fun _ => None.

(** A world around a given search reply in which every page fetch times
    out and the HTML libraries are the identity. *)
Definition world_of (reply : search_reply) : world :=
  World "http://searx.local/search" (fun _ => Ret reply)
        (fun _ => Raise (Exn TimeoutError "timed out"))
        (fun _ => 0) (fun html => Ret html) (fun text => Ret [text])
        (fun text => Ret text) urlparse_raises.

Definition hits_of (urls : list string) : list search_hit :=
  map (fun url => SearchHit (Some url)) urls.

Definition two_urls : list string := ["https://a.org/1"; "https://b.org/2"].

Definition world_two : world :=
  world_of (SearchReply 200 (Ret (Some (hits_of two_urls)))).

(** The search service is down. *)
Definition world_down : world := world_of (SearchReply 503 (Ret None)).

(** Seven hits, the first two equal: six distinct URLs pass the filters. *)
Definition hits_dup : list search_hit :=
  hits_of [ "https://a.org/1"; "https://a.org/1"; "https://b.org/2";
            "https://c.org/3"; "https://d.org/4"; "https://e.org/5";
            "https://f.org/6" ].

Definition world_dup : world :=
  world_of (SearchReply 200 (Ret (Some hits_dup))).

(** Services that always answer; the model echoes the passage. *)
Definition services_ok : services :=
  Services (Ret tt) (fun _ => Ret tt) (fun _ => Ret tt) (fun _ _ => 0)
           (Ret 3) (fun _ passage => Ret passage) (fun _ => 0)
           (fun _ facts => Ret facts).

(** A page with a team matchup and a betting line, and a world in which
    the first URL times out and the others serve that page. *)
Definition page : string :=
  "Preview" +:+ LF +:+ LF +:+
  "Mumbai Indians (MI) vs Chennai Super Kings (CSK)" +:+ LF +:+ LF +:+
  "Bet now and claim your bonus" +:+ LF +:+
  "The toss is at seven." +:+ LF.

Definition world_ipl : world :=
  World "http://searx.local/search"
        (fun _ =>
           Ret (SearchReply 200
                  (Ret (Some (hits_of [ "https://a.org/1"; "https://b.org/2";
                                        "https://c.org/x.PDF"; "http://d.org";
                                        "https://www.youtube.com/watch" ])))))
        (fun url =>
           if String.eqb url "https://a.org/1"
           then Raise (Exn TimeoutError "timed out")
           else Ret (HttpResponse 200 (Ret page)))
        (fun _ => 0) (fun html => Ret html) (fun text => Ret [text])
        (fun text => Ret text) urlparse_raises.

(** A betting link in markdown form. *)
Definition betting_link : string := "[Bet big offer](https://bit.ly/x)".


(** Five tasks inside [extract_information], a sixth at the gate. *)
Definition gate_full : gate := Gate 0 (replicate 5 Extracting ++ [Waiting]).

End Examples.

(** ** oprah.py: the browser fetch *)

Module Browser.

Import Py Exc Oprah.

Section WithBrowser.

Variable w : world.

(** [page.content()] after [page.goto(url, wait_until="networkidle")] in a
    Chromium page of Playwright; [Raise] when anything on the way raises. *)
Variable page_content : string -> outcome string.

(** The handler of [fetch_with_browser] first tests
    ['_browser' in globals()]; the module defines no such global, so the
    handler goes on to [return None]. *)
Definition fetch_with_browser (url : string) : option string :=
  let body :=
    do html <- page_content url;
    match parse_html_content w html with
    | None | Some "" => Ret None
    | Some parsed_content =>
        Ret (Some (parsed_content +:+ LF +:+ "Source: " +:+ url +:+ LF))
    end in
  match body with
  | Ret r => r
  | Raise _ => None
  end.

End WithBrowser.

End Browser.

(** ** app.py: the [/search] endpoint *)

Module App.

Import Py Exc Oprah WebThinker.

(** What the endpoint answers: the JSON object with the query and the
    results (status 200), the [JSONResponse] with the error (status 500), or
    the answer of FastAPI itself (status 422) when [q] is missing or fails
    [min_length=2], in which case the handler does not run. *)
Inductive response : Type :=
  | Ok (query : string) (results : info)
  | InternalServerError (error : string)
  | UnprocessableEntity.

(** [len(q)]: a query travels as UTF-8 bytes, and every byte but the
    continuation bytes starts a character. *)
Definition str_len (q : string) : nat :=
  List.length (List.filter (fun c => negb (in_range 128 191 c)) (of_str q)).

Section Endpoint.

Variable world_at : nat -> world.
Variable services_at : nat -> services.
Variable ttl : option nat.

Definition search (c : cache) (now request : nat) (q : option string)
  : response * cache :=
  match q with
  | None => (UnprocessableEntity, c)
  | Some q =>
      if str_len q <? 2 then (UnprocessableEntity, c) else
      match search_web world_at services_at ttl c now request q with
      | (Ret results, c') => (Ok q results, c')
      | (Raise e, c') => (InternalServerError (exn_msg e), c')
      end
  end.

End Endpoint.

End App.

(** ** Vocabulary of the further properties *)

Module Shape.

Import Py Re Exc Oprah WebThinker.

(** The test of the keyword loops: the line holds none of the keywords. *)
Definition keeps (keywords : list string) (line : string) : bool :=
  negb (existsb (fun keyword => contains keyword (lower line)) keywords).

(** Every character of the text is in the set [P]. *)
Definition chars_in (P : ascii -> Prop) (text : string) : Prop :=
  Forall P (of_str text).

Definition captures_in (P : ascii -> Prop) (g : captures) : Prop :=
  Forall (fun nv => Forall P nv.2) g.

(** What a matcher owes when its input, its left context and the groups
    read so far are made of characters of [P]: so are the ones it hands to
    its continuation. *)
Definition keeps_chars {R : Type} (P : ascii -> Prop)
    (m : chars -> chars -> captures ->
         (chars -> chars -> captures -> option R) -> option R) : Prop :=
  forall pre s g k x,
    Forall P pre -> Forall P s -> captures_in P g ->
    m pre s g k = Some x ->
    exists pre' s' g',
      Forall P pre' /\ Forall P s' /\ captures_in P g' /\
      k pre' s' g' = Some x.

Definition blank : ascii := " "%char.

Definition starts_blank (s : chars) : bool :=
  match s with
  | c :: _ => ceqb blank c
  | [] => false
  end.

(** The number of blanks at the head of a text. *)
Fixpoint blanks (s : chars) : nat :=
  match s with
  | c :: s' => if ceqb blank c then S (blanks s') else 0
  | [] => 0
  end.

(** Every run of blanks becomes one blank. *)
Fixpoint squeeze (s : chars) : chars :=
  match s with
  | [] => []
  | c :: s' =>
      if ceqb blank c && starts_blank s' then squeeze s' else c :: squeeze s'
  end.

(** The last pattern of [_clean_whitespace], two blanks or more. *)
Definition blank_run : regex := at_least 2 (Lit " ").

(** The key of a cache entry: the arguments of the call. *)
Definition item_key (it : cache_item) : nat * string :=
  (item_request it, item_query it).

(** What [alru_cache] keeps true of its entries: no more than [maxsize] of
    them, one per key, each holding a returned value. *)
Definition cache_ok (c : cache) : Prop :=
  List.length (items c) <= maxsize /\
  NoDup (map item_key (items c)) /\
  Forall (fun it => exists v, item_value it = Ret v) (items c).

(** Services whose extraction model always fails. *)
Definition services_mute : services :=
  Services (Ret tt) (fun _ => Ret tt) (fun _ => Ret tt) (fun _ _ => 0)
           (Ret 3) (fun _ _ => Raise (Exn OtherError "model unavailable"))
           (fun _ => 0) (fun _ facts => Ret facts).

(** A cache with one entry, written by request 1 and good until the
    instant 300. *)
Definition cache_one : cache :=
  Cache [CacheItem 1 "ipl" (Ret (Summary "Mumbai won.")) (Some 300)]
        [(1, "ipl")].

(** A full cache: [maxsize] entries that never expire, the one of request 0
    the least recently used. *)
Definition cache_full : cache :=
  Cache (map (fun request => CacheItem request "ipl" (Ret EmptyList) None)
             (seq 0 maxsize))
        [].

End Shape.

(** * Properties *)

Import Py Re Exc.

(** ** Strings *)

Lemma of_to_str (l : chars) : of_str (to_str l) = l.
Proof. apply list_ascii_of_string_of_list_ascii. Qed.

Lemma to_of_str (s : string) : to_str (of_str s) = s.
Proof. apply string_of_list_ascii_of_string. Qed.

Lemma lstrip_l_clean (s : chars) : clean_start (lstrip_l s).
Proof.
  induction s as [|c s IH]; simpl; [done|].
  by destruct (is_space c) eqn:E.
Qed.

Lemma lstrip_l_id (s : chars) : clean_start s -> lstrip_l s = s.
Proof. destruct s as [|c s]; simpl; [done|]. by intros ->. Qed.

Lemma lstrip_l_suffix (s : chars) : exists p, s = p ++ lstrip_l s.
Proof.
  induction s as [|c s [p IH]]; simpl; [by exists []|].
  destruct (is_space c); [|by exists []].
  exists (c :: p). simpl. by f_equal.
Qed.

Lemma lstrip_l_snoc (l : chars) (c : ascii) :
  is_space c = false -> lstrip_l (l ++ [c]) <> [].
Proof.
  intros Hc. induction l as [|a l IH]; simpl.
  - by rewrite Hc.
  - destruct (is_space a); [exact IH|done].
Qed.

Lemma strip_l_idem (s : chars) : strip_l (strip_l s) = strip_l s.
Proof.
  unfold strip_l.
  set (A := lstrip_l s). set (B := lstrip_l (rev A)).
  assert (HB : clean_start B) by apply lstrip_l_clean.
  assert (HT : clean_start (rev B)).
  { destruct (lstrip_l_suffix (rev A)) as [p Hp]. fold B in Hp.
    apply (f_equal (@rev ascii)) in Hp.
    rewrite rev_involutive, rev_app_distr in Hp.
    pose proof (lstrip_l_clean s) as HA. fold A in HA. rewrite Hp in HA.
    destruct (rev B); [done|exact HA]. }
  by rewrite (lstrip_l_id (rev B) HT), rev_involutive, (lstrip_l_id B HB).
Qed.

Lemma strip_idem (s : string) : strip (strip s) = strip s.
Proof. unfold strip. by rewrite of_to_str, strip_l_idem. Qed.

Lemma strip_l_nonempty (c : ascii) (t : chars) :
  is_space c = false -> strip_l (c :: t) <> [].
Proof.
  intros Hc. unfold strip_l. simpl lstrip_l at 2. rewrite Hc. simpl rev at 2.
  intros H. apply (f_equal (@rev ascii)) in H. rewrite rev_involutive in H.
  simpl in H. by apply lstrip_l_snoc in H.
Qed.

Lemma strip_nonempty (c : ascii) (t : string) :
  is_space c = false -> strip (String c t) <> "".
Proof.
  intros Hc. unfold strip, of_str. simpl list_ascii_of_string.
  pose proof (strip_l_nonempty c (list_ascii_of_string t) Hc) as H.
  destruct (strip_l _); [done|]. simpl. discriminate.
Qed.

(** ** Substitution *)

(** A substitution that finds no match returns its input. *)
Lemma sub_go_no_match (ci : bool) (r : regex) (repl : found -> chars)
    (s : chars) :
  forall fuel pre,
    search_from ci r pre s = None -> sub_go fuel ci r repl pre s = s.
Proof.
  induction s as [|c s IH]; intros [|fuel] pre H; simpl in *; try done.
  - destruct (match_here ci r pre []); done.
  - destruct (match_here ci r pre (c :: s)); [done|]. by rewrite IH.
Qed.

Lemma sub_no_match (ci : bool) (r : regex) (repl : found -> string)
    (s : string) :
  Spec.matches ci r s = false -> sub ci r repl s = s.
Proof.
  unfold Spec.matches, search, search_l, sub, sub_l. intros H.
  destruct (search_from ci r [] (of_str s)) eqn:E; [done|].
  by rewrite sub_go_no_match, to_of_str.
Qed.

Lemma remove_all_no_match (patterns : list regex) (s : string) :
  Spec.none_matches MarkdownCleaner.ci_on patterns s = true ->
  MarkdownCleaner.remove_all patterns s = s.
Proof.
  unfold MarkdownCleaner.remove_all, Spec.none_matches.
  induction patterns as [|p ps IH]; simpl; [done|].
  intros H. apply andb_true_iff in H as [Hp Hps].
  unfold remove at 2. rewrite sub_no_match by by apply negb_true_iff.
  by apply IH.
Qed.

Lemma apply_rewrites_no_match (ci : bool)
    (rewrites : list MarkdownCleaner.rewrite) (s : string) :
  Spec.none_matches ci (map fst rewrites) s = true ->
  MarkdownCleaner.apply_rewrites ci rewrites s = s.
Proof.
  unfold MarkdownCleaner.apply_rewrites, Spec.none_matches.
  induction rewrites as [|rw rws IH]; simpl; [done|].
  intros H. apply andb_true_iff in H as [Hp Hps].
  rewrite sub_no_match by by apply negb_true_iff.
  by apply IH.
Qed.

(** A settled text is a fixed point of its rule; the whitespace rule also
    asks that the text be stripped. *)
Lemma settled_fixed (r : Spec.late_rule) (text : string) :
  Spec.settled r text = true ->
  (r = Spec.RuleM -> strip text = text) ->
  Spec.apply_rule r text = text.
Proof.
  unfold Spec.settled. intros H Hs. apply andb_true_iff in H as [H HL].
  destruct r; simpl in *.
  - by apply remove_all_no_match.
  - by apply remove_all_no_match.
  - by apply remove_all_no_match.
  - unfold Spec.none_matches in H. simpl in H.
    apply andb_true_iff in H as [H _].
    unfold MarkdownCleaner._remove_general_links.
    apply sub_no_match. by apply negb_true_iff.
  - by apply apply_rewrites_no_match.
  - unfold Spec.none_matches in H. simpl in H.
    apply andb_true_iff in H as [H1 H]. apply andb_true_iff in H as [H2 _].
    unfold MarkdownCleaner._fix_heading_structure.
    rewrite (sub_no_match _ MarkdownCleaner.team_match_pattern)
      by by apply negb_true_iff.
    rewrite (sub_no_match _ MarkdownCleaner.stadium_pattern)
      by by apply negb_true_iff.
    apply negb_true_iff in HL. unfold Spec.matches in HL.
    destruct (contains _ _); [|done].
    by destruct (search MarkdownCleaner.ci_on
                   MarkdownCleaner.match_info_pattern text).
  - unfold MarkdownCleaner._clean_whitespace.
    rewrite apply_rewrites_no_match by done. by apply Hs.
Qed.

(** ** The fuel of the matcher is enough

    The results do not depend on the fuel once it exceeds the length of the
    input, which is what [run] and [sub_l] start with. *)

Lemma lit_match_length (ci : bool) (lit : chars) :
  forall pre s pre' s',
    lit_match ci lit pre s = Some (pre', s') ->
    List.length s' <= List.length s.
Proof.
  induction lit as [|a lit IH]; intros pre s pre' s' H; simpl in H.
  - injection H as <- <-. done.
  - destruct s as [|x s]; [done|]. destruct (chr_match ci a x); [|done].
    apply IH in H. simpl. lia.
Qed.

Lemma rep_loop_local {R : Type}
    (body : chars -> chars -> captures ->
            (chars -> chars -> captures -> option R) -> option R)
    (greedy : bool) (lo : nat) (hi : option nat) :
  local_in_k body ->
  forall fuel cnt pre s g k1 k2,
    (forall pre' s' g',
       List.length s' <= List.length s -> k1 pre' s' g' = k2 pre' s' g') ->
    rep_loop body greedy lo hi k1 fuel cnt pre s g
    = rep_loop body greedy lo hi k2 fuel cnt pre s g.
Proof.
  intros Hbody. induction fuel as [|fuel IHf]; intros cnt pre s g k1 k2 Hk;
    simpl; rewrite (Hk pre s g) by done.
  - done.
  - assert (Hm : forall (b : bool),
      (if b then
         body pre s g (fun pre' s' g' =>
           if List.length s' <? List.length s
           then rep_loop body greedy lo hi k1 fuel (S cnt) pre' s' g'
           else None)
       else None)
      = (if b then
         body pre s g (fun pre' s' g' =>
           if List.length s' <? List.length s
           then rep_loop body greedy lo hi k2 fuel (S cnt) pre' s' g'
           else None)
       else None)).
    { intros [|]; [|done]. apply Hbody. intros pre' s' g' Hl.
      destruct (_ <? _); [|done]. apply IHf. intros. apply Hk. lia. }
    by rewrite Hm.
Qed.

Lemma run_local (r : regex) :
  forall (R : Type) ci,
    local_in_k (R := R) (fun pre s g k => run ci r pre s g k).
Proof.
  induction r as [lit| |neg items|r1 IH1 r2 IH2|r1 IH1 r2 IH2
                 |greedy lo hi r' IH|n r' IH| | |r' IH];
    intros R ci pre s g k1 k2 Hk; cbn [run].
  - destruct (lit_match ci (of_str lit) pre s) as [[pre' s']|] eqn:E; [|done].
    apply Hk. by eapply lit_match_length.
  - destruct s as [|a s]; [done|]. destruct (ceqb a nl); [done|].
    apply Hk. simpl. lia.
  - destruct s as [|a s]; [done|]. destruct (cls_match _ _ _ _); [|done].
    apply Hk. simpl. lia.
  - apply IH1. intros pre' s' g' Hl. apply IH2. intros. apply Hk. lia.
  - by rewrite (IH1 R ci pre s g k1 k2 Hk), (IH2 R ci pre s g k1 k2 Hk).
  - apply rep_loop_local; [apply IH|done].
  - apply IH. intros. by apply Hk.
  - by rewrite Hk.
  - by rewrite Hk.
  - by rewrite Hk.
Qed.

(** More fuel than the input is long is all a repetition can use. *)
Lemma rep_loop_fuel {R : Type}
    (body : chars -> chars -> captures ->
            (chars -> chars -> captures -> option R) -> option R)
    (greedy : bool) (lo : nat) (hi : option nat)
    (k : chars -> chars -> captures -> option R) :
  local_in_k body ->
  forall fuel1 fuel2 cnt pre s g,
    List.length s < fuel1 -> List.length s < fuel2 ->
    rep_loop body greedy lo hi k fuel1 cnt pre s g
    = rep_loop body greedy lo hi k fuel2 cnt pre s g.
Proof.
  intros Hbody.
  induction fuel1 as [|fuel1 IH]; intros fuel2 cnt pre s g H1 H2; [lia|].
  destruct fuel2 as [|fuel2]; [lia|]. simpl.
  assert (Hm :
    body pre s g (fun pre' s' g' =>
      if List.length s' <? List.length s
      then rep_loop body greedy lo hi k fuel1 (S cnt) pre' s' g' else None)
    = body pre s g (fun pre' s' g' =>
      if List.length s' <? List.length s
      then rep_loop body greedy lo hi k fuel2 (S cnt) pre' s' g' else None)).
  { apply Hbody. intros pre' s' g' Hl.
    destruct (Nat.ltb_spec (List.length s') (List.length s)); [|done].
    apply IH; lia. }
  by rewrite Hm.
Qed.

Lemma run_rep_fuel {R : Type} (ci greedy : bool) (lo : nat) (hi : option nat)
    (r : regex) (pre s : chars) (g : captures)
    (k : chars -> chars -> captures -> option R) (fuel : nat) :
  List.length s < fuel ->
  run ci (Rep greedy lo hi r) pre s g k
  = rep_loop (fun pre' s' g' k' => run ci r pre' s' g' k') greedy lo hi k
             fuel 0 pre s g.
Proof.
  intros H. cbn [run]. apply rep_loop_fuel; [apply run_local|lia|done].
Qed.

(** Likewise for a substitution. *)
Lemma sub_go_fuel (ci : bool) (r : regex) (repl : found -> chars) :
  forall fuel1 fuel2 pre s,
    List.length s < fuel1 -> List.length s < fuel2 ->
    sub_go fuel1 ci r repl pre s = sub_go fuel2 ci r repl pre s.
Proof.
  induction fuel1 as [|fuel1 IH]; intros fuel2 pre s H1 H2; [lia|].
  destruct fuel2 as [|fuel2]; [lia|]. simpl.
  destruct (match_here ci r pre s) as [f|].
  - destruct (Nat.ltb_spec (List.length (f_rest f)) (List.length s)).
    + f_equal. apply IH; lia.
    + f_equal. destruct s as [|c s]; [done|].
      f_equal. apply IH; simpl in *; lia.
  - destruct s as [|c s]; [done|]. f_equal. apply IH; simpl in *; lia.
Qed.

(** ** The matcher consumes a segment of its input *)

Lemma chr_match_caseless (ci : bool) (c x : ascii) :
  caseless c = true -> chr_match ci c x = true -> x = c.
Proof.
  unfold caseless, chr_match. intros Hc H.
  apply andb_true_iff in Hc as [Hu Hl].
  apply negb_true_iff in Hu, Hl.
  destruct ci; [|by apply Ascii.eqb_eq in H].
  apply Ascii.eqb_eq in H. unfold lower_char in H. rewrite Hu in H.
  destruct (is_upper x) eqn:Hx; [|done].
  exfalso. subst c. clear Hu.
  unfold is_upper, is_lower, in_range, code in *.
  rewrite nat_ascii_embedding in Hl.
  - apply andb_true_iff in Hx as [H1 H2].
    apply Nat.leb_le in H1, H2.
    apply andb_false_iff in Hl as [Hl|Hl]; apply Nat.leb_gt in Hl; lia.
  - apply andb_true_iff in Hx as [H1 H2]. apply Nat.leb_le in H2. lia.
Qed.

Lemma lit_match_segment (ci : bool) (c : ascii) (lit : chars) :
  forall pre s pre' s',
    lit_match ci lit pre s = Some (pre', s') ->
    exists mid, s = mid ++ s' /\ pre' = rev mid ++ pre /\
      (caseless c = true -> existsb (ceqb c) lit = true -> In c mid).
Proof.
  induction lit as [|a lit IH]; intros pre s pre' s' H; simpl in H.
  - injection H as <- <-. exists []. by split.
  - destruct s as [|x s]; [done|].
    destruct (chr_match ci a x) eqn:E; [|done].
    destruct (IH _ _ _ _ H) as (mid & -> & -> & Hin).
    exists (x :: mid). split; [done|]. split.
    + simpl. by rewrite <- app_assoc.
    + intros Hc Hex. simpl in Hex. apply orb_true_iff in Hex as [Hex|Hex].
      * left. apply Ascii.eqb_eq in Hex. subst a.
        by apply (chr_match_caseless ci).
      * right. by apply Hin.
Qed.

Section RunSegment.

Variable c : ascii.
Hypothesis Hc : caseless c = true.

Lemma rep_loop_segment {R : Type}
    (body : chars -> chars -> captures ->
            (chars -> chars -> captures -> option R) -> option R)
    (greedy : bool) (lo : nat) (hi : option nat) (must : Prop)
    (k : chars -> chars -> captures -> option R) (x : R) :
  segment_ok c body must ->
  forall fuel cnt pre s g,
    rep_loop body greedy lo hi k fuel cnt pre s g = Some x ->
    exists mid s' g', s = mid ++ s' /\ k (rev mid ++ pre) s' g' = Some x /\
      (must -> cnt < lo -> In c mid).
Proof.
  intros Hbody.
  assert (Hstop : forall cnt pre s g,
            (if lo <=? cnt then k pre s g else None) = Some x ->
            exists mid s' g', s = mid ++ s' /\
              k (rev mid ++ pre) s' g' = Some x /\
              (must -> cnt < lo -> In c mid)).
  { intros cnt pre s g H.
    destruct (lo <=? cnt) eqn:E; [|done]. apply Nat.leb_le in E.
    exists [], s, g. repeat split; [done|]. intros _ Hlt. lia. }
  induction fuel as [|fuel IHf]; intros cnt pre s g H; simpl in H.
  - destruct greedy; [by eapply Hstop|].
    apply (Hstop cnt pre s g).
    destruct (if lo <=? cnt then _ else _); [exact H|done].
  - assert (Hmore :
      (if below hi cnt then
         body pre s g
           (fun pre' s' g' =>
              if List.length s' <? List.length s
              then rep_loop body greedy lo hi k fuel (S cnt) pre' s' g'
              else None)
       else None) = Some x ->
      exists mid s' g', s = mid ++ s' /\
        k (rev mid ++ pre) s' g' = Some x /\
        (must -> cnt < lo -> In c mid)).
    { intros H0. destruct (below hi cnt); [|done].
      apply Hbody in H0 as (m1 & s1 & g1 & -> & H0 & Hn1).
      destruct (_ <? _); [|done].
      apply IHf in H0 as (m2 & s2 & g2 & -> & H0 & _).
      exists (m1 ++ m2), s2, g2. split; [by rewrite app_assoc|].
      split; [by rewrite rev_app_distr, <- app_assoc|].
      intros Hx _. apply in_or_app. auto. }
    destruct greedy.
    + match type of H with
      | match ?M with _ => _ end = _ => destruct M as [y|] eqn:EM
      end.
      * injection H as ->. by apply Hmore.
      * by eapply Hstop.
    + match type of H with
      | match ?M with _ => _ end = _ => destruct M as [y|] eqn:EM
      end.
      * injection H as ->. by eapply Hstop.
      * by apply Hmore.
Qed.

Lemma run_segment (r : regex) :
  forall (R : Type) ci,
    segment_ok (R := R) c (fun pre s g k => run ci r pre s g k)
               (needs c r = true).
Proof.
  induction r as [lit| |neg items|r1 IH1 r2 IH2|r1 IH1 r2 IH2
                 |greedy lo hi r' IH|n r' IH| | |r' IH];
    intros R ci pre s g k x H; cbn [run] in H.
  - destruct (lit_match ci (of_str lit) pre s) as [[pre' s']|] eqn:E; [|done].
    destruct (lit_match_segment ci c _ _ _ _ _ E) as (mid & -> & -> & Hin).
    exists mid, s', g. repeat split; [done|]. simpl. by apply Hin.
  - destruct s as [|a s]; [done|]. destruct (ceqb a nl); [done|].
    exists [a], s, g. by repeat split.
  - destruct s as [|a s]; [done|].
    destruct (cls_match ci neg items a); [|done].
    exists [a], s, g. by repeat split.
  - apply IH1 in H as (m1 & s1 & g1 & -> & H & Hn1).
    apply IH2 in H as (m2 & s2 & g2 & -> & H & Hn2).
    exists (m1 ++ m2), s2, g2. split; [by rewrite app_assoc|].
    split; [by rewrite rev_app_distr, <- app_assoc|].
    simpl. intros Hn.
    apply orb_true_iff in Hn as [Hn|Hn]; apply in_or_app; auto.
  - destruct (run ci r1 pre s g k) eqn:E1.
    + injection H as ->. apply IH1 in E1 as (m & s' & g' & -> & H & Hn).
      exists m, s', g'. repeat split; [done|]. simpl. intros Hx.
      apply andb_true_iff in Hx as [Hx _]. auto.
    + apply IH2 in H as (m & s' & g' & -> & H & Hn).
      exists m, s', g'. repeat split; [done|]. simpl. intros Hx.
      apply andb_true_iff in Hx as [_ Hx]. auto.
  - apply (rep_loop_segment _ _ _ _ (needs c r' = true)) in H
      as (mid & s' & g' & -> & H & Hn); [|apply IH].
    exists mid, s', g'. repeat split; [done|].
    cbn [needs]. intros Hx. apply andb_true_iff in Hx as [Hlo Hx].
    apply Nat.leb_le in Hlo. apply Hn; [done|lia].
  - apply IH in H as (m & s' & g' & -> & H & Hn).
    eexists m, s', _. by repeat split.
  - destruct (at_eol s); [|done]. exists [], s, g. by repeat split.
  - destruct (at_word_boundary pre s); [|done].
    exists [], s, g. by repeat split.
  - destruct (run ci r' pre s g _); [done|]. exists [], s, g. by repeat split.
Qed.

(** A pattern that needs [c] matches nowhere in a text without [c]. *)
Lemma search_from_needs (ci : bool) (r : regex) (s : chars) :
  forall pre,
    needs c r = true -> ~ In c s -> search_from ci r pre s = None.
Proof.
  induction s as [|a s IH]; intros pre Hn Hnot; simpl.
  - unfold match_here.
    destruct (run ci r pre [] [] _) eqn:E; [|done].
    apply run_segment in E as (mid & s' & g' & Hs & _ & Hin).
    destruct mid; [|done]. by apply Hin in Hn.
  - unfold match_here.
    destruct (run ci r pre (a :: s) [] _) eqn:E.
    + apply run_segment in E as (mid & s' & g' & Hs & _ & Hin).
      exfalso. apply Hnot. rewrite Hs. apply in_or_app. left. by apply Hin.
    + apply IH; [done|]. intros Hx. apply Hnot. by right.
Qed.

End RunSegment.

Lemma absent_not_in (c : ascii) (text : string) :
  Spec.absent c text = true -> ~ In c (of_str text).
Proof.
  unfold Spec.absent. intros H Hin. apply negb_true_iff in H.
  assert (existsb (ceqb c) (of_str text) = true); [|congruence].
  apply existsb_exists. exists c. split; [done|]. apply Ascii.eqb_refl.
Qed.

Lemma matches_needs (ci : bool) (c : ascii) (r : regex) (text : string) :
  caseless c = true -> needs c r = true -> Spec.absent c text = true ->
  Spec.matches ci r text = false.
Proof.
  intros Hc Hn Ha. unfold Spec.matches, search, search_l.
  by rewrite (search_from_needs c Hc ci r (of_str text) [] Hn
                (absent_not_in _ _ Ha)).
Qed.

Lemma inert_no_match (ci : bool) (cs : list ascii) (p : regex)
    (text : string) :
  Spec.needs_one_of cs p = true ->
  forallb (fun c => Spec.absent c text) cs = true ->
  Spec.matches ci p text = false.
Proof.
  unfold Spec.needs_one_of. intros Hn Ha.
  apply existsb_exists in Hn as (c & Hin & Hc).
  apply andb_true_iff in Hc as [Hc Hn].
  rewrite forallb_forall in Ha. apply (matches_needs ci c); auto.
Qed.

Lemma inert_none_matches (ci : bool) (cs : list ascii) (ps : list regex)
    (text : string) :
  forallb (Spec.needs_one_of cs) ps = true ->
  forallb (fun c => Spec.absent c text) cs = true ->
  Spec.none_matches ci ps text = true.
Proof.
  unfold Spec.none_matches. intros Hps Ha.
  apply forallb_forall. intros p Hp. rewrite forallb_forall in Hps.
  apply negb_true_iff. apply (inert_no_match ci cs); auto.
Qed.

(** A text that holds none of the characters the patterns of a rule need
    is settled for that rule, and the rule leaves it as it is. *)
Lemma inert_settled (r : Spec.late_rule) (text : string) :
  Spec.covered r = true -> Spec.inert r text = true ->
  Spec.settled r text = true /\ Spec.apply_rule r text = text.
Proof.
  intros Hcov Hin.
  assert (Hs : Spec.settled r text = true).
  { unfold Spec.settled, Spec.covered, Spec.all_patterns, Spec.inert in *.
    rewrite forallb_app in Hcov. apply andb_true_iff in Hcov as [H1 H2].
    apply andb_true_iff. split.
    - by apply (inert_none_matches _ (Spec.triggers r)).
    - destruct r; try done. cbn [forallb] in H2.
      apply andb_true_iff in H2 as [H2 _].
      apply negb_true_iff.
      by apply (inert_no_match _ (Spec.triggers Spec.RuleL)). }
  split; [done|]. apply settled_fixed; [done|].
  intros ->. done.
Qed.

(** The rules g, i, j, k and l have such characters: the opening square
    bracket for g and j, the exclamation mark and the less-than sign for i,
    the star for k, and the opening parenthesis, the star and the full stop
    for l. *)
Example covered_rules :
  map Spec.covered
    [ Spec.RuleG; Spec.RuleH; Spec.RuleI; Spec.RuleJ; Spec.RuleK; Spec.RuleL;
      Spec.RuleM ]
  = [true; false; true; true; true; true; false].
Proof. vm_compute. reflexivity. Qed.

(** ** gather *)

Section GatherFacts.

Context {A : Type}.
Implicit Types (tasks : list (@task A)) (vals : list A).

Lemma lookup_combine_Some {B C : Type} (l : list B) (k : list C) i x y :
  combine l k !! i = Some (x, y) <-> l !! i = Some x /\ k !! i = Some y.
Proof.
  revert k i. induction l as [|b l IH]; intros [|c k] [|i]; simpl;
    try (split; [done|intros [? ?]; done]).
  - split; [intros [= -> ->]; done|intros [[= ->] [= ->]]; done].
  - apply IH.
Qed.

Lemma insert_by_time_perm (x : nat * @task A) l :
  Permutation (insert_by_time x l) (x :: l).
Proof.
  induction l as [|y l IH]; simpl; [done|].
  destruct (_ <=? _); [done|].
  rewrite IH. apply perm_swap.
Qed.

Lemma completion_order_perm tasks :
  Permutation (completion_order tasks)
              (combine (seq 0 (List.length tasks)) tasks).
Proof.
  unfold completion_order.
  induction (combine _ tasks) as [|x l IH]; simpl; [done|].
  rewrite insert_by_time_perm. by constructor.
Qed.

Lemma fill_ret vals (done : list (nat * @task A)) :
  (forall i t o, (i, (t, o)) ∈ done ->
                 exists a, o = Ret a /\ vals !! i = Some a) ->
  forall slots, agrees vals slots ->
  exists slots', fill slots done = Ret slots' /\ agrees vals slots' /\
    forall i, (filled slots i \/ i ∈ done.*1) -> filled slots' i.
Proof.
  induction done as [|[i [t o]] done IH]; intros Hd slots Hs; simpl.
  - exists slots. repeat split; try apply Hs.
    intros i [H|H]; [done|]. by apply elem_of_nil in H.
  - destruct (Hd i t o) as (a & -> & Ha); [left|].
    assert (Hi : i < List.length slots).
    { destruct Hs as [-> _]. by eapply lookup_lt_Some. }
    destruct (IH (fun j t' o' H => Hd j t' o' (list_elem_of_further _ _ _ H))
                 (<[i:=Some a]> slots)) as (slots' & Hf & Hag & Hfl).
    { split; [rewrite length_insert; apply Hs|].
      intros j x. destruct (decide (i = j)) as [<-|Hne].
      - rewrite list_lookup_insert_eq by done. congruence.
      - rewrite list_lookup_insert_ne by done. apply Hs. }
    exists slots'. repeat split; try apply Hag; [done|].
    intros j [[x Hx]|Hj]; apply Hfl.
    + left. destruct (decide (i = j)) as [<-|Hne].
      * exists a. by rewrite list_lookup_insert_eq.
      * exists x. by rewrite list_lookup_insert_ne.
    + simpl in Hj. apply elem_of_cons in Hj as [->|Hj]; [|by right].
      left. exists a. by rewrite list_lookup_insert_eq.
Qed.

Lemma omap_id_Some vals : omap id (Some <$> vals) = vals.
Proof. induction vals as [|a vals IH]; csimpl; [done|]. by rewrite IH. Qed.

Lemma agrees_filled vals slots :
  agrees vals slots -> (forall i, i < List.length vals -> filled slots i) ->
  slots = Some <$> vals.
Proof.
  intros [Hlen Hag] Hfl. apply list_eq. intros i.
  rewrite list_lookup_fmap.
  destruct (decide (i < List.length vals)) as [Hi|Hi].
  - destruct (Hfl i Hi) as [x Hx]. by rewrite Hx, (Hag _ _ Hx).
  - rewrite !lookup_ge_None_2; [done|lia|lia].
Qed.

(** Tasks that all return: [gather] returns their values in the order of
    the awaitables, whatever the finish times. *)
Lemma gather_all_ret tasks vals :
  tasks.*2 = Ret <$> vals -> gather tasks = Ret vals.
Proof.
  intros Htv. unfold gather.
  assert (Hlen : List.length tasks = List.length vals).
  { apply (f_equal List.length) in Htv. by rewrite !length_fmap in Htv. }
  destruct (fill_ret vals (completion_order tasks)) with
    (slots := replicate (List.length tasks) (@None A))
    as (slots' & Hf & Hag & Hfl).
  - intros i t o Hin.
    rewrite completion_order_perm in Hin.
    apply list_elem_of_lookup in Hin as [j Hj].
    apply lookup_combine_Some in Hj as [Hseq Htask].
    apply lookup_seq in Hseq as [-> _]. simpl in *.
    assert (Ho : tasks.*2 !! j = Some o)
      by (by rewrite list_lookup_fmap, Htask).
    rewrite Htv, list_lookup_fmap in Ho.
    destruct (vals !! j) as [a|] eqn:Ha; simplify_eq/=. eauto.
  - split; [by rewrite length_replicate|].
    intros i x Hi. apply lookup_replicate in Hi as [? _]. done.
  - rewrite Hf. simpl. f_equal.
    rewrite (agrees_filled vals slots' Hag); [apply omap_id_Some|].
    intros i Hi. apply Hfl. right.
    rewrite completion_order_perm.
    destruct (lookup_lt_is_Some_2 tasks i) as [tk Htk]; [lia|].
    apply list_elem_of_fmap. exists (i, tk). split; [done|].
    apply list_elem_of_lookup. exists i.
    apply lookup_combine_Some.
    split; [|done]. simpl. apply lookup_seq. split; [done|].
    by eapply lookup_lt_Some.
Qed.

End GatherFacts.

(** ** oprah.py: the fetch of one URL *)

Import Oprah.

Lemma fetch_article_except_marker (url : string) (e : exn) :
  fetch_article_except url e = Ret (Spec.marker (Spec.failure_of e url)).
Proof.
  unfold fetch_article_except, Spec.failure_of. by destruct (exn_kind e).
Qed.

(** The string [fetch_article] returns is the marker of the outcome. *)
Lemma fetch_article_marker (w : world) (url : string) :
  fetch_article w url = Ret (Spec.marker (Spec.fetch_spec w url)).
Proof.
  unfold fetch_article, fetch_article_try, Spec.fetch_spec.
  destruct (session_get w url) as [response|e]; simpl;
    [|apply fetch_article_except_marker].
  destruct (Z.eqb (status response) 200); simpl; [|done].
  destruct (text response) as [html|e]; simpl;
    [|apply fetch_article_except_marker].
  destruct (parse_html_content w html) as [[|c t]|]; done.
Qed.


(** C5.  [fetch_article] never raises: for every world and every URL it
    returns a string, and that string is the one the specification gives
    for the outcome of the fetch: the cleaned text followed by the
    [Source: <url>] line on success, the [Fetch Failed] marker with the
    status when the status is not 200, the [Parse Failed] marker when the
    extraction yields nothing usable, and the [Timeout], [ClientError] or
    [UnhandledError] marker according to the exception raised; every marker
    carries the URL that was asked for. *)
Theorem fetch_article_returns_its_outcome (w : world) (url : string) :
  fetch_article w url = Ret (Spec.marker (Spec.fetch_spec w url)) /\
  match Spec.fetch_spec w url with
  | Spec.Success text =>
      exists cleaned,
        cleaned <> "" /\
        text = cleaned +:+ LF +:+ "Source: " +:+ url +:+ LF
  | Spec.FetchFailed status_ url_ => status_ <> 200%Z /\ url_ = url
  | Spec.ParseFailed url_ | Spec.Timeout url_ | Spec.ClientFailed url_
  | Spec.UnhandledError url_ => url_ = url
  end.
Proof.
  split; [apply fetch_article_marker|].
  assert (Hf : forall e,
             match Spec.failure_of e url with
             | Spec.Success _ | Spec.FetchFailed _ _ => False
             | Spec.ParseFailed u | Spec.Timeout u | Spec.ClientFailed u
             | Spec.UnhandledError u => u = url
             end)
    by (intros e; unfold Spec.failure_of; by destruct (exn_kind e)).
  unfold Spec.fetch_spec.
  destruct (session_get w url) as [response|e].
  2:{ specialize (Hf e). by destruct (Spec.failure_of e url). }
  destruct (Z.eqb_spec (status response) 200) as [E|E]; [|done].
  destruct (text response) as [html|e].
  2:{ specialize (Hf e). by destruct (Spec.failure_of e url). }
  destruct (parse_html_content w html) as [[|c t]|]; simpl; try done.
  by exists (String c t).
Qed.

(** Every failure marker opens with a bracket. *)
Lemma failure_marker_bracket (w : world) (url : string) :
  Spec.is_failure (Spec.fetch_spec w url) = true ->
  exists tail, Spec.marker (Spec.fetch_spec w url) = String "[" tail.
Proof. destruct (Spec.fetch_spec w url); intros H; try done; simpl; eauto. Qed.

(** ** oprah.py: the fan-out *)

Lemma fetch_tasks_ret (w : world) (urls : list string) :
  (map (fun url => (finish_time w url, fetch_article w url)) urls).*2
  = Ret <$> (map (fun url => Spec.marker (Spec.fetch_spec w url)) urls).
Proof.
  induction urls as [|u urls IH]; [done|].
  simpl. rewrite fetch_article_marker. f_equal. apply IH.
Qed.

(** What [webscraper] returns for a non-empty discovery. *)
Lemma webscraper_results (w : world) (query : string) (urls : list string) :
  get_news_urls w query = Ret urls -> urls <> [] ->
  webscraper w query
  = Ret (Some (map (fun url => Spec.marker (Spec.fetch_spec w url)) urls)).
Proof.
  intros Hu Hne. unfold webscraper. rewrite Hu. simpl.
  destruct urls as [|u0 urls0] eqn:E; [done|]. rewrite <- E in *.
  by rewrite (gather_all_ret _ _ (fetch_tasks_ret w urls)).
Qed.

(** C4.  For a non-empty batch of N discovered URLs, [webscraper] returns
    exactly N outcomes, the i-th being the outcome of the fetch of the i-th
    URL, whatever the order in which the fetches finish and however many of
    them fail. *)
Theorem webscraper_one_outcome_per_url (w : world) (query : string)
    (urls : list string) :
  get_news_urls w query = Ret urls -> urls <> [] ->
  exists results,
    webscraper w query = Ret (Some results) /\
    List.length results = List.length urls /\
    forall i url, urls !! i = Some url ->
      exists r, results !! i = Some r /\ fetch_article w url = Ret r.
Proof.
  intros Hu Hne.
  exists (map (fun url => Spec.marker (Spec.fetch_spec w url)) urls).
  split; [by apply webscraper_results|]. split; [by rewrite length_map|].
  intros i url Hi. exists (Spec.marker (Spec.fetch_spec w url)).
  split; [|apply fetch_article_marker].
  change (map ?f urls) with (f <$> urls). by rewrite list_lookup_fmap, Hi.
Qed.

(** Two URLs, both fetches time out: two outcomes all the same. *)
Lemma webscraper_one_outcome_per_url_witness :
  exists results,
    webscraper Examples.world_two "ipl" = Ret (Some results) /\
    List.length results = 2.
Proof.
  destruct (webscraper_one_outcome_per_url Examples.world_two "ipl"
              Examples.two_urls) as (r & H1 & H2 & _).
  - vm_compute. reflexivity.
  - discriminate.
  - exists r. split; [exact H1|exact H2].
Defined.

(** One fetch times out, one succeeds: the page comes back cleaned, without
    its betting line, with its source; the PDF, the plain-http URL and the
    blocked domain were never fetched.  (The two URLs come in the order in
    which the model enumerates the set.) *)
Example webscraper_ipl :
  webscraper Examples.world_ipl "IPL match today"
  = Ret (Some [ "[Timeout] https://a.org/1";
                "## Preview" +:+ LF +:+ LF +:+
                "Mumbai Indians (MI) vs Chennai Super Kings (CSK)" +:+ LF +:+
                LF +:+ "The toss is at seven." +:+ LF +:+ LF +:+
                "Source: https://b.org/2" +:+ LF ]).
Proof. vm_compute. reflexivity. Qed.

(** ** oprah.py: URL discovery *)

Lemma keep_hit_passes (hit : search_hit) (url : string) :
  keep_hit hit = true -> hit_url hit = Some url -> Spec.passes url.
Proof.
  unfold keep_hit. intros H Hu. rewrite Hu in H.
  apply andb_true_iff in H as [H Hskip].
  apply andb_true_iff in H as [H Hdom].
  apply andb_true_iff in H as [Hs Hpdf].
  repeat split.
  - done.
  - by apply negb_true_iff.
  - intros d Hd. rewrite forallb_forall in Hdom.
    apply negb_true_iff, Hdom. by apply list_elem_of_In.
  - intros Hin. apply negb_true_iff in Hskip.
    assert (existsb (String.eqb url) skip_set = true); [|congruence].
    apply existsb_exists. exists url. split; [by apply list_elem_of_In|].
    apply String.eqb_refl.
Qed.

Lemma hit_urls_pass (hits : list search_hit) (url : string) :
  url ∈ hit_urls hits -> Spec.passes url.
Proof.
  unfold hit_urls. intros H.
  apply list_elem_of_omap in H as (hit & Hin & Hu).
  apply list_elem_of_In, filter_In in Hin as [_ Hk].
  by eapply keep_hit_passes.
Qed.

Lemma elements_list_to_set_dedup (l : list string) :
  elements (list_to_set l : gset string) ≡ₚ remove_dups l.
Proof.
  apply NoDup_Permutation.
  - apply NoDup_elements.
  - apply NoDup_remove_dups.
  - intros x.
    by rewrite elem_of_elements, elem_of_list_to_set, elem_of_remove_dups.
Qed.

Lemma remove_dups_length_le (l : list string) :
  List.length (remove_dups l) <= List.length l.
Proof.
  apply submseteq_length, NoDup_submseteq; [apply NoDup_remove_dups|].
  intros x. by rewrite elem_of_remove_dups.
Qed.

Lemma remove_dups_NoDup_id (l : list string) : NoDup l -> remove_dups l ≡ₚ l.
Proof.
  intros H. apply NoDup_Permutation; [apply NoDup_remove_dups|done|].
  intros x. by rewrite elem_of_remove_dups.
Qed.

(** C3, as the code has it.  [get_news_urls] cuts the filtered candidates
    to the first six and then removes the duplicates: what it returns has no
    duplicate, no URL that fails a filter, at most six URLs, and is the set
    of the first six candidates; it has exactly six URLs when these first
    six candidates are pairwise distinct. *)
Theorem get_news_urls_truncates_then_dedups (w : world) (query : string)
    (urls : list string) :
  get_news_urls w query = Ret urls ->
  NoDup urls /\
  (forall url, url ∈ urls -> Spec.passes url) /\
  List.length urls <= 6 /\
  forall reply hits,
    search_get w (search_request w query) = Ret reply ->
    reply_status reply = 200%Z ->
    reply_json reply = Ret (Some hits) ->
    urls ≡ₚ remove_dups (firstn 6 (hit_urls hits)) /\
    (6 <= List.length (hit_urls hits) -> NoDup (firstn 6 (hit_urls hits)) ->
     List.length urls = 6).
Proof.
  unfold get_news_urls. intros H.
  destruct (search_get w (search_request w query)) as [reply|e]; [|done].
  simpl in H.
  destruct (Z.eqb (reply_status reply) 200) eqn:Est; simpl in H.
  2:{ injection H as <-. split; [constructor|].
      split; [intros u Hu; by apply elem_of_nil in Hu|].
      split; [simpl; lia|].
      intros reply' hits [= <-] Hs. rewrite Hs in Est. done. }
  destruct (reply_json reply) as [data|e] eqn:Ej; [|done]. simpl in H.
  injection H as <-.
  set (cands := hit_urls (match data with Some r => r | None => [] end)).
  pose proof (elements_list_to_set_dedup (firstn 6 cands)) as Hperm.
  split; [apply NoDup_elements|].
  split.
  { intros u Hu. rewrite Hperm, elem_of_remove_dups in Hu.
    apply (hit_urls_pass (match data with Some r => r | None => [] end)).
    by eapply (subseteq_take 6). }
  split.
  { rewrite Hperm. etransitivity; [apply remove_dups_length_le|].
    rewrite length_take. lia. }
  intros reply' hits [= <-] _ Hj. rewrite Ej in Hj. injection Hj as ->.
  split; [exact Hperm|].
  intros Hlen Hnd. rewrite Hperm. subst cands. simpl.
  rewrite (remove_dups_NoDup_id _ Hnd), length_take. lia.
Qed.

Lemma get_news_urls_truncates_then_dedups_witness :
  exists urls,
    get_news_urls Examples.world_dup "ipl" = Ret urls /\
    NoDup urls /\ List.length urls <= 6.
Proof.
  eexists. split; [vm_compute; reflexivity|].
  destruct (get_news_urls_truncates_then_dedups Examples.world_dup "ipl" _
              ltac:(vm_compute; reflexivity)) as (H1 & _ & H3 & _).
  split; [exact H1|exact H3].
Defined.

(** C3, as the claim has it, fails: of seven hits whose first two are
    equal, six distinct URLs pass the filters and five are returned. *)
Lemma six_distinct_pass_five_returned :
  List.length (remove_dups (hit_urls Examples.hits_dup)) = 6 /\
  exists urls,
    get_news_urls Examples.world_dup "ipl" = Ret urls /\
    List.length urls = 5.
Proof.
  split; [vm_compute; reflexivity|].
  eexists. split; [vm_compute; reflexivity|reflexivity].
Qed.

(** ** webthinker.py: the top-level search *)

Import WebThinker.

(** C7.  [WebThinkerAgent.search] never raises: for every world, every
    state of the services and every question it returns a result with both
    entries, which is either the result of the pipeline, a list of texts
    and a summary, or the degraded one with its two empty lists; it is the
    degraded one whenever a stage of the pipeline has raised. *)
Theorem search_never_raises (w : world) (sv : services) (question : string) :
  exists r, search w sv question = Ret r /\
    (r = degraded \/
     exists kept summary, r = Result kept (Summary summary)) /\
    (forall e, search_try w sv question = Raise e -> r = degraded).
Proof.
  unfold search.
  destruct (search_try w sv question) as [r|e] eqn:E; simpl.
  - exists r. split; [done|]. split; [|done]. right.
    unfold search_try in E.
    destruct (webscraper w question) as [sc|]; [|done]. simpl in E.
    destruct (keep_results sc) as [kept|]; [|done]. simpl in E.
    destruct (retrieve sv question kept) as [fr|]; [|done]. simpl in E.
    destruct (gather_extracted_info sv question fr) as [tot|]; [|done].
    simpl in E.
    destruct (finalized_chain sv question tot) as [sm|]; [|done].
    simpl in E. injection E as <-. eauto.
  - exists degraded. eauto.
Qed.

(** The stages one by one: a failed discovery, a failed retrieval and a
    failed summary give the degraded result. *)
Lemma search_degrades_on_discovery_failure (w : world) (sv : services)
    (question : string) (e : exn) :
  get_news_urls w question = Raise e -> search w sv question = Ret degraded.
Proof.
  intros H. unfold search, search_try, webscraper. by rewrite H.
Qed.

Lemma search_degrades_on_summary_failure (w : world) (sv : services)
    (question : string) :
  (forall facts, exists e, finalized_chain sv question facts = Raise e) ->
  search w sv question = Ret degraded.
Proof.
  intros H. unfold search.
  destruct (search_try w sv question) as [r|e] eqn:E; [|done].
  unfold search_try in E.
  destruct (webscraper w question) as [sc|]; [|done]. simpl in E.
  destruct (keep_results sc) as [kept|]; [|done]. simpl in E.
  destruct (retrieve sv question kept) as [fr|]; [|done]. simpl in E.
  destruct (gather_extracted_info sv question fr) as [tot|]; [|done].
  simpl in E. destruct (H tot) as [e He]. by rewrite He in E.
Qed.

(** A failed extraction call stays inside its own text. *)
Lemma extract_information_returns (sv : services)
    (question passage : string) :
  exists facts, extract_information sv question passage = Ret facts.
Proof.
  unfold extract_information.
  destruct (extraction_chain sv question passage); simpl; eauto.
Qed.

(** C10.  When discovery returns no URL, [webscraper] returns [None], the
    filtering step of [search] raises a [TypeError], the handler of
    [search] takes it, and the caller gets the degraded result. *)
Theorem no_urls_degrades (w : world) (sv : services) (question : string) :
  get_news_urls w question = Ret [] ->
  webscraper w question = Ret None /\
  (exists msg, search_try w sv question = Raise (Exn TypeError msg)) /\
  search w sv question = Ret degraded.
Proof.
  intros H.
  assert (Hw : webscraper w question = Ret None)
    by (unfold webscraper; by rewrite H).
  split; [done|].
  assert (Ht : search_try w sv question
               = Raise (Exn TypeError "'NoneType' object is not iterable"))
    by (unfold search_try; by rewrite Hw).
  split; [eauto|]. unfold search. by rewrite Ht.
Qed.

Lemma no_urls_degrades_witness :
  search Examples.world_down Examples.services_ok "ipl" = Ret degraded.
Proof.
  apply (no_urls_degrades Examples.world_down Examples.services_ok "ipl").
  vm_compute. reflexivity.
Defined.

(** ** webthinker.py: what reaches the index *)

Lemma failure_marker_not_blank (o : Spec.FetchOutcome) :
  Spec.is_failure o = true -> strip (Spec.marker o) <> "".
Proof. destruct o; intros H; try discriminate H; by apply strip_nonempty. Qed.

Lemma insert_by_distance_perm (sv : services) (q d : string)
    (l : list string) :
  Permutation (insert_by_distance sv q d l) (d :: l).
Proof.
  induction l as [|y l IH]; simpl; [done|].
  destruct (_ <=? _); [done|]. rewrite IH. apply perm_swap.
Qed.

Lemma nearest_first_perm (sv : services) (q : string) (docs : list string) :
  Permutation (nearest_first sv q docs) docs.
Proof.
  unfold nearest_first. induction docs as [|d docs IH]; simpl; [done|].
  rewrite insert_by_distance_perm. by constructor.
Qed.

(** C9.  The marker of a failed fetch is not blank, so it passes the
    filter of [search], is among the texts given to [add_texts], and, when
    the index holds no more than k texts, is among the passages that
    [search] hands to the extraction model. *)
Theorem failure_markers_are_indexed (w : world) (sv : services)
    (question : string) (urls : list string) (url : string) (k : nat) :
  get_news_urls w question = Ret urls ->
  url ∈ urls ->
  Spec.is_failure (Spec.fetch_spec w url) = true ->
  embed_probe sv = Ret tt ->
  (forall texts, embed_documents sv texts = Ret tt) ->
  embed_query sv question = Ret tt ->
  NUMBER_OF_POINTS sv = Ret k ->
  List.length urls <= k ->
  strip (Spec.marker (Spec.fetch_spec w url)) <> "" /\
  exists kept final_results,
    (do scraped <- webscraper w question; keep_results scraped) = Ret kept /\
    Spec.marker (Spec.fetch_spec w url) ∈ kept /\
    add_texts sv [] kept = Ret kept /\
    retrieve sv question kept = Ret final_results /\
    Spec.marker (Spec.fetch_spec w url) ∈ final_results.
Proof.
  intros Hu Hin Hfail Hp Hd Hq Hk Hlen.
  pose proof (failure_marker_not_blank _ Hfail) as Hnb.
  split; [done|].
  assert (Hne : urls <> []) by (intros ->; by apply elem_of_nil in Hin).
  pose proof (webscraper_results w question urls Hu Hne) as Hw.
  set (results := map (fun u => Spec.marker (Spec.fetch_spec w u)) urls) in *.
  set (m := Spec.marker (Spec.fetch_spec w url)) in *.
  set (kept := List.filter (fun r => negb (String.eqb (strip r) "")) results).
  assert (Hmr : m ∈ results).
  { apply list_elem_of_In, in_map_iff. exists url.
    split; [done|]. by apply list_elem_of_In. }
  assert (Hmk : m ∈ kept).
  { apply list_elem_of_In, filter_In. split; [by apply list_elem_of_In|].
    by apply negb_true_iff, String.eqb_neq. }
  assert (Hkl : List.length kept <= k).
  { etransitivity; [apply filter_length_le|].
    subst results. rewrite length_map. lia. }
  exists kept.
  assert (Hret : exists final_results,
             retrieve sv question kept = Ret final_results /\
             m ∈ final_results).
  { assert (Hk0 : (k =? 0) = false).
    { apply Nat.eqb_neq. intros ->.
      destruct kept; [by apply elem_of_nil in Hmk|simpl in Hkl; lia]. }
    unfold retrieve, get_vector_store, add_texts, similarity_search.
    rewrite Hp, Hk, Hq. simpl.
    destruct kept as [|k0 kept0] eqn:Ek; [by apply elem_of_nil in Hmk|].
    rewrite <- Ek in *. rewrite Hd. simpl. rewrite Hk0.
    rewrite firstn_all2
      by (rewrite (Permutation_length (nearest_first_perm sv question kept));
          lia).
    assert (Hmn : m ∈ nearest_first sv question kept)
      by (by rewrite nearest_first_perm).
    destruct (nearest_first sv question kept) as [|n0 nf] eqn:En;
      [by apply elem_of_nil in Hmn|].
    eauto. }
  destruct Hret as (fr & Hfr & Hmf).
  exists fr. rewrite Hw. simpl. fold kept.
  repeat split; try done.
  unfold add_texts. by rewrite Hd.
Qed.

Lemma failure_markers_are_indexed_witness :
  exists final_results,
    retrieve Examples.services_ok "ipl"
      ["[Timeout] https://a.org/1"; "[Timeout] https://b.org/2"]
    = Ret final_results /\
    "[Timeout] https://a.org/1" ∈ final_results.
Proof.
  destruct (failure_markers_are_indexed Examples.world_two
              Examples.services_ok "ipl" Examples.two_urls
              "https://a.org/1" 3)
    as (_ & kept & fr & Hk & _ & _ & Hr & Hm);
    try reflexivity.
  - apply list_elem_of_here.
  - vm_compute. lia.
  - vm_compute in Hk. injection Hk as <-.
    exists fr. split; [exact Hr|exact Hm].
Defined.

(** ** webthinker.py: the admission gate *)

(** Rewriting one phase moves the count of a predicate by at most one. *)
Lemma count_insert (p : phase -> bool) (l : list phase) (i : nat)
    (x y : phase) :
  l !! i = Some x ->
  List.length (List.filter p (<[i:=y]> l)) + b2n (p x)
  = List.length (List.filter p l) + b2n (p y).
Proof.
  revert i. induction l as [|a l IH]; intros [|i] H; simpl in *; try done.
  - injection H as ->. destruct (p x), (p y); simpl; lia.
  - specialize (IH i H). destruct (p a); simpl; lia.
Qed.

Lemma enter_spec (i : nat) (st st' : gate) :
  enter i st = Some st' ->
  0 < value st /\ value st' = value st - 1 /\
  in_flight st' = S (in_flight st) /\ waiting st' + 1 = waiting st.
Proof.
  unfold enter. destruct (phases st !! i) as [[| |]|] eqn:E; try done.
  destruct (0 <? value st) eqn:Ev; [|done]. intros [= <-].
  apply Nat.ltb_lt in Ev. unfold in_flight, waiting. simpl.
  pose proof (count_insert (phase_eqb Extracting) _ _ _ Extracting E) as H1.
  pose proof (count_insert (phase_eqb Waiting) _ _ _ Extracting E) as H2.
  simpl in *. lia.
Qed.

Lemma leave_spec (i : nat) (st st' : gate) :
  leave i st = Some st' ->
  value st' = value st + 1 /\ S (in_flight st') = in_flight st /\
  waiting st' = waiting st.
Proof.
  unfold leave. destruct (phases st !! i) as [[| |]|] eqn:E; try done.
  intros [= <-]. unfold in_flight, waiting. simpl.
  pose proof (count_insert (phase_eqb Extracting) _ _ _ Finished E) as H1.
  pose proof (count_insert (phase_eqb Waiting) _ _ _ Finished E) as H2.
  simpl in *. lia.
Qed.

Lemma fire_ok (e : event) (st st' : gate) :
  fire e st = Some st' -> gate_ok st -> gate_ok st'.
Proof.
  unfold gate_ok. destruct e as [i|i]; simpl; intros H.
  - apply enter_spec in H. lia.
  - apply leave_spec in H. lia.
Qed.

Lemma gate_init_ok (n : nat) : gate_ok (gate_init n).
Proof.
  unfold gate_ok, gate_init, in_flight. simpl.
  induction n as [|n IH]; simpl; [done|exact IH].
Qed.

Lemma run_events_ok (es : list event) (st st' : gate) :
  run_events es st = Some st' -> gate_ok st -> gate_ok st'.
Proof.
  revert st. induction es as [|e es IH]; simpl; intros st H Hok.
  - by injection H as <-.
  - destruct (fire e st) as [st1|] eqn:E; [|done].
    eapply IH; [exact H|]. by eapply fire_ok.
Qed.

(** C8.  In every state that [gather_extracted_info] can reach, whatever
    the number of passages and the interleaving, at most five
    [extract_information] calls are in flight; and when five are, no
    waiting call can enter: the only event that can happen is the end of
    one of the five, which leaves four in flight. *)
Theorem at_most_five_extractions_in_flight (n : nat) (es : list event)
    (st : gate) :
  run_events es (gate_init n) = Some st ->
  in_flight st <= 5 /\
  (in_flight st = 5 ->
   (forall i, enter i st = None) /\
   (forall e st', fire e st = Some st' ->
      exists i, e = Leave i /\ in_flight st' = 4)).
Proof.
  intros Hrun.
  pose proof (run_events_ok _ _ _ Hrun (gate_init_ok n)) as Hok.
  unfold gate_ok, semaphore_init in Hok.
  split; [lia|]. intros H5.
  assert (Hnone : forall i, enter i st = None).
  { intros i. destruct (enter i st) as [st'|] eqn:E; [|done].
    apply enter_spec in E. lia. }
  split; [exact Hnone|].
  intros [i|i] st' Hf; simpl in Hf.
  - by rewrite Hnone in Hf.
  - exists i. split; [done|]. apply leave_spec in Hf. lia.
Qed.

(** Six passages, five calls admitted: the sixth cannot enter. *)
Lemma at_most_five_extractions_in_flight_witness :
  in_flight Examples.gate_full <= 5 /\ enter 5 Examples.gate_full = None.
Proof.
  destruct (at_most_five_extractions_in_flight 6
              [Enter 0; Enter 1; Enter 2; Enter 3; Enter 4]
              Examples.gate_full) as [H5 H]; [vm_compute; reflexivity|].
  split; [exact H5|].
  destruct H as [H _]; [vm_compute; reflexivity|]. exact (H 5).
Defined.

Lemma no_extracting (l : list phase) (i : nat) :
  List.length (List.filter (phase_eqb Extracting) l) = 0 ->
  l !! i <> Some Extracting.
Proof.
  revert i. induction l as [|a l IH]; intros [|i]; simpl; try done.
  - intros H0 [= ->]. simpl in H0. lia.
  - destruct a; simpl; [apply IH|intros H; discriminate H|apply IH].
Qed.

Lemma some_extracting (l : list phase) :
  List.length (List.filter (phase_eqb Extracting) l) <> 0 ->
  exists i, l !! i = Some Extracting.
Proof.
  induction l as [|a l IH]; simpl; [done|]. intros H.
  destruct a; simpl in H; [|by exists 0|];
    (destruct (IH H) as [i Hi]; by exists (S i)).
Qed.

Lemma some_unfinished (l : list phase) :
  forallb (phase_eqb Finished) l = false ->
  exists i p, l !! i = Some p /\ p <> Finished.
Proof.
  induction l as [|a l IH]; simpl; [done|]. intros H.
  destruct a; simpl in H.
  - by exists 0, Waiting.
  - by exists 0, Extracting.
  - destruct (IH H) as (i & p & H1 & H2). by exists (S i), p.
Qed.

(** The gate never blocks for good: while a call has not finished, some
    event is enabled. *)
Lemma gate_never_stuck (n : nat) (es : list event) (st : gate) :
  run_events es (gate_init n) = Some st ->
  all_finished st = false ->
  exists e st', fire e st = Some st'.
Proof.
  intros Hrun Hnf.
  pose proof (run_events_ok _ _ _ Hrun (gate_init_ok n)) as Hok.
  unfold gate_ok, semaphore_init in Hok.
  destruct (decide (in_flight st = 0)) as [H0|H0].
  - destruct (some_unfinished _ Hnf) as (i & p & Hi & Hp).
    destruct p; [| |done].
    + exists (Enter i). simpl. unfold enter. rewrite Hi.
      destruct (0 <? value st) eqn:E; [eauto|]. apply Nat.ltb_ge in E. lia.
    + by apply no_extracting in Hi.
  - destruct (some_extracting _ H0) as [i Hi].
    exists (Leave i). simpl. unfold leave. rewrite Hi. eauto.
Qed.

(** Every event brings the run one step nearer to its end: after the
    events [es], twice the waiting calls plus the calls in flight is what is
    left of the [2 * n] events of a whole run. *)
Lemma run_events_measure (es : list event) (st st' : gate) :
  run_events es st = Some st' ->
  List.length es + (2 * waiting st' + in_flight st')
  = 2 * waiting st + in_flight st.
Proof.
  revert st. induction es as [|e es IH]; simpl; intros st H.
  - by injection H as <-.
  - destruct (fire e st) as [st1|] eqn:E; [|done].
    apply IH in H. destruct e as [i|i]; simpl in E.
    + apply enter_spec in E. lia.
    + apply leave_spec in E. lia.
Qed.

Lemma gate_init_counts (n : nat) :
  waiting (gate_init n) = n /\ in_flight (gate_init n) = 0.
Proof.
  unfold waiting, in_flight, gate_init. simpl.
  induction n as [|n [IH1 IH2]]; simpl; [done|]. by rewrite IH1.
Qed.

Lemma run_events_bounded (n : nat) (es : list event) (st : gate) :
  run_events es (gate_init n) = Some st ->
  List.length es + (2 * waiting st + in_flight st) = 2 * n.
Proof.
  intros H. apply run_events_measure in H.
  destruct (gate_init_counts n) as [Hw Hf]. lia.
Qed.

(** ** webthinker.py: the cache of [search_web] *)

Section CacheFacts.

Variable world_at : nat -> world.
Variable services_at : nat -> services.
Variable ttl : option nat.

Lemma first_call_runs (now request : nat) (query : string) :
  runs (search_web world_at services_at ttl cache_empty now request query).2
  = [(request, query)] /\
  forall it,
    it ∈ items (search_web world_at services_at ttl cache_empty now request
                  query).2 ->
    item_request it = request.
Proof.
  unfold search_web. simpl.
  destruct (search_web_wrapped _ _ _ _); simpl.
  - split; [done|]. intros it Hit.
    apply list_elem_of_singleton in Hit. by subst.
  - split; [done|]. intros it Hit. by apply elem_of_nil in Hit.
Qed.

Lemma find_other_request (request : nat) (query : string)
    (l : list cache_item) :
  (forall it, it ∈ l -> item_request it <> request) ->
  List.find (same_key request query) l = None.
Proof.
  induction l as [|a l IH]; intros H; simpl; [done|].
  unfold same_key at 1.
  destruct (Nat.eqb_spec (item_request a) request) as [E|E].
  - exfalso. eapply H; [left|done].
  - simpl. apply IH. intros it Hit. apply H. by right.
Qed.

(** C1, where the code departs from it.  Two calls of [search_web] with the
    same query that come with two different [Request] objects both run the
    pipeline, however close in time they are: the entry of the first call is
    keyed on its [Request] and is never found by the second. *)
Theorem search_web_misses_across_requests (query : string)
    (request1 request2 now1 now2 : nat) :
  request1 <> request2 ->
  runs (search_web world_at services_at ttl
          (search_web world_at services_at ttl cache_empty now1 request1
             query).2
          now2 request2 query).2
  = [(request1, query); (request2, query)].
Proof.
  intros Hne.
  destruct (first_call_runs now1 request1 query) as [Hr Hit].
  destruct (search_web world_at services_at ttl cache_empty now1 request1
              query) as [v1 c1].
  simpl in *. unfold search_web.
  rewrite find_other_request.
  - simpl. by rewrite Hr.
  - intros it Hin. apply list_elem_of_In, filter_In in Hin as [Hin _].
    apply list_elem_of_In in Hin. by rewrite (Hit _ Hin).
Qed.

Lemma same_key_refl (request : nat) (query : string) (v : outcome info)
    (e : option nat) :
  same_key request query (CacheItem request query v e) = true.
Proof. unfold same_key. simpl. by rewrite Nat.eqb_refl, String.eqb_refl. Qed.

Lemma search_web_wrapped_returns (now : nat) (query : string) :
  exists v, search_web_wrapped world_at services_at now query = Ret v.
Proof.
  unfold search_web_wrapped, search.
  destruct (search_try _ _ _) as [r|e]; simpl; eauto.
Qed.

(** For one and the same [Request] object the cache does its work: within
    the time to live the second call is served from the entry, after it the
    pipeline runs again. *)
Lemma search_web_same_request (query : string)
    (request now1 now2 life : nat) :
  ttl = Some life ->
  let first :=
    search_web world_at services_at ttl cache_empty now1 request query in
  let second :=
    search_web world_at services_at ttl first.2 now2 request query in
  (now2 < now1 + life ->
     runs second.2 = [(request, query)] /\ second.1 = first.1) /\
  (now1 + life <= now2 ->
     runs second.2 = [(request, query); (request, query)]).
Proof.
  intros Httl.
  destruct (search_web_wrapped_returns now1 query) as [v Hv].
  assert (Hfirst :
    search_web world_at services_at ttl cache_empty now1 request query
    = (Ret v, Cache [CacheItem request query (Ret v) (Some (now1 + life))]
                    [(request, query)])).
  { unfold search_web. simpl. by rewrite Hv, Httl. }
  rewrite Hfirst. cbv zeta. cbn [fst snd].
  unfold search_web. cbn [items runs List.filter alive item_expiry].
  split; intros Ht.
  - apply Nat.ltb_lt in Ht. rewrite Ht.
    cbn [List.find]. by rewrite same_key_refl.
  - apply Nat.ltb_ge in Ht. rewrite Ht. cbn [List.find].
    destruct (search_web_wrapped_returns now2 query) as [v2 Hv2].
    by rewrite Hv2.
Qed.

End CacheFacts.

(** The same query one second apart, carried by two requests: two runs. *)
Lemma search_web_misses_across_requests_witness :
  runs (search_web (fun _ => Examples.world_two)
          (fun _ => Examples.services_ok) (Some 300)
          (search_web (fun _ => Examples.world_two)
             (fun _ => Examples.services_ok) (Some 300) cache_empty 0 1
             "ipl").2
          1 2 "ipl").2
  = [(1, "ipl"); (2, "ipl")].
Proof.
  apply (search_web_misses_across_requests (fun _ => Examples.world_two)
           (fun _ => Examples.services_ok) (Some 300) "ipl" 1 2 0 1).
  lia.
Defined.

(** ** markdown_cleaner.py *)

(** The betting rule drops the whole line that holds a keyword and leaves
    its neighbours alone. *)
Example betting_line_removed :
  MarkdownCleaner._remove_betting_promotions
    ("Intro line." +:+ LF +:+ "Bet now and claim your bonus" +:+ LF +:+
     "The toss is at seven.")
  = "Intro line." +:+ LF +:+ "The toss is at seven.".
Proof. vm_compute. reflexivity. Qed.

(** C2, where the code departs from it.  [clean] is the sequential
    composition of the thirteen rules in the order a, b, c, i, j, d, e, f,
    g, h, k, l, m, not in the order a to m: the stripping of links (j) runs
    before the promotion rules (e, f, g), whose link patterns then find
    nothing.  A betting link and an [ALSO READ] link, which rule e and rule
    g delete when they see them and which the order a to m deletes, keep
    their labels in what [clean] returns. *)
Theorem clean_strips_links_before_promotion_rules
    (urlparse : string -> option MarkdownCleaner.url_parts) :
  (forall text,
     MarkdownCleaner.clean urlparse false text
     = Spec.run_rules (Spec.code_order urlparse) text) /\
  (MarkdownCleaner._remove_betting_promotions Examples.betting_link = "" /\
   Spec.clean_in_spec_order urlparse Examples.betting_link = Some "" /\
   MarkdownCleaner.clean urlparse false Examples.betting_link
   = Some "Bet big offer") /\
  (MarkdownCleaner._remove_other_article_promotions
     "[ALSO READ: toss report](https://example.org/toss)" = "" /\
   Spec.clean_in_spec_order urlparse
     "[ALSO READ: toss report](https://example.org/toss)" = Some "" /\
   MarkdownCleaner.clean urlparse false
     "[ALSO READ: toss report](https://example.org/toss)"
   = Some "ALSO READ: toss report").
Proof.
  split; [|split].
  - intros text. unfold MarkdownCleaner.clean, Spec.code_order. simpl.
    unfold Spec.rule_c.
    destruct (MarkdownCleaner._clean_image_references urlparse _);
      reflexivity.
  - repeat split; vm_compute; reflexivity.
  - repeat split; vm_compute; reflexivity.
Qed.


(** * Further properties of the sources *)

Import Shape.

(** ** Strings *)

Lemma ceqb_eq (a b : ascii) : ceqb a b = true <-> a = b.
Proof. apply Ascii.eqb_eq. Qed.

Lemma ceqb_neq (a b : ascii) : ceqb a b = false <-> a <> b.
Proof. apply Ascii.eqb_neq. Qed.

Lemma of_str_app (a b : string) : of_str (a +:+ b) = of_str a ++ of_str b.
Proof.
  induction a as [|c a IH]; simpl; [done|].
  unfold of_str in *. simpl. by rewrite IH.
Qed.

(** [s.replace(a, b)] for single characters is a character map. *)
Lemma replace_go_char (a b : ascii) (s : chars) :
  replace_go [a] [b] 0 s = map (fun c => if ceqb a c then b else c) s.
Proof.
  induction s as [|x s IH]; simpl; [done|].
  rewrite andb_true_r.
  destruct (ceqb a x); simpl; by rewrite IH.
Qed.

Lemma replace_char_map (s : string) (a b : ascii) :
  replace s (String a EmptyString) (String b EmptyString)
  = to_str (map (fun c => if ceqb a c then b else c) (of_str s)).
Proof. unfold replace, replace_l. simpl. by rewrite replace_go_char. Qed.

(** Nothing is replaced in a text without the first character of [old]. *)
Lemma replace_go_absent (a : ascii) (old new s : chars) :
  ~ In a s -> replace_go (a :: old) new 0 s = s.
Proof.
  induction s as [|x s IH]; intros H; [done|].
  cbn [replace_go prefix_l].
  destruct (ceqb a x) eqn:E.
  - apply ceqb_eq in E. subst. exfalso. apply H. by left.
  - simpl. f_equal. apply IH. intros Hin. apply H. by right.
Qed.

Lemma contains_l_char (c : ascii) (s : chars) :
  contains_l [c] s = existsb (ceqb c) s.
Proof.
  induction s as [|x s IH]; [done|]. simpl. by rewrite andb_true_r, IH.
Qed.

Lemma contains_char_absent (c : ascii) (text : string) :
  contains (String c EmptyString) text = false <->
  Spec.absent c text = true.
Proof.
  unfold contains, Spec.absent.
  change (of_str (String c EmptyString)) with [c].
  rewrite contains_l_char. by rewrite negb_true_iff.
Qed.

Lemma existsb_map_swap (a b : ascii) (l : chars) :
  ceqb a b = false ->
  existsb (ceqb a) (map (fun c => if ceqb a c then b else c) l) = false.
Proof.
  intros Hab. induction l as [|x l IH]; [done|]. cbn [map existsb].
  rewrite IH, orb_false_r. by destruct (ceqb a x) eqn:E.
Qed.

Lemma prefix_l_app (p s : chars) : prefix_l p (p ++ s) = true.
Proof.
  induction p as [|a p IH]; [done|]. simpl. unfold ceqb.
  by rewrite Ascii.eqb_refl.
Qed.

Lemma prefix_l_split (p s : chars) :
  prefix_l p s = true -> exists t, s = p ++ t.
Proof.
  revert s. induction p as [|a p IH]; intros s H; [by exists s|].
  destruct s as [|b s]; [done|]. simpl in H.
  apply andb_true_iff in H as [Hab H]. apply ceqb_eq in Hab. subst b.
  destruct (IH s H) as [t ->]. by exists t.
Qed.

(** [p in s]: [p] is an infix of [s]. *)
Lemma contains_l_infix (p s : chars) :
  contains_l p s = true <-> exists a b, s = a ++ p ++ b.
Proof.
  split.
  - induction s as [|c s IH]; simpl.
    + rewrite orb_false_r. intros H. apply prefix_l_split in H as [t ->].
      by exists [], t.
    + intros H. apply orb_true_iff in H as [H|H].
      * apply prefix_l_split in H as [t ->]. by exists [], t.
      * destruct (IH H) as (a & b & ->). by exists (c :: a), b.
  - intros (a & b & ->). induction a as [|c a IH].
    + pose proof (prefix_l_app p b) as H. simpl.
      destruct (p ++ b); simpl; by rewrite H.
    + simpl. rewrite IH. apply orb_true_r.
Qed.

Lemma contains_l_inside (p a m b : chars) :
  contains_l p (a ++ m ++ b) = false -> contains_l p m = false.
Proof.
  intros H. destruct (contains_l p m) eqn:E; [|done].
  apply contains_l_infix in E as (x & y & ->).
  assert (contains_l p (a ++ (x ++ p ++ y) ++ b) = true); [|congruence].
  apply contains_l_infix. exists (a ++ x), (y ++ b).
  by rewrite <- !app_assoc.
Qed.

Lemma contains_app_r (p a b : string) :
  contains p b = true -> contains p (a +:+ b) = true.
Proof.
  unfold contains. rewrite of_str_app. intros H.
  apply contains_l_infix in H as (x & y & ->).
  apply contains_l_infix. exists (of_str a ++ x), y.
  by rewrite <- app_assoc.
Qed.

Lemma contains_app_l (p a b : string) :
  contains p a = true -> contains p (a +:+ b) = true.
Proof.
  unfold contains. rewrite of_str_app. intros H.
  apply contains_l_infix in H as (x & y & ->).
  apply contains_l_infix. exists x, (y ++ of_str b).
  by rewrite <- !app_assoc.
Qed.

Lemma contains_refl (p : string) : contains p p = true.
Proof.
  unfold contains. apply contains_l_infix. exists [], [].
  by rewrite app_nil_r.
Qed.

Lemma endswith_app (a b : string) : endswith (a +:+ b) b = true.
Proof.
  unfold endswith, suffix_l. rewrite of_str_app, rev_app_distr.
  apply prefix_l_app.
Qed.

(** Stripping keeps what is not a blank. *)
Lemma lstrip_l_keeps (c : ascii) (s : chars) :
  is_space c = false -> In c s -> In c (lstrip_l s).
Proof.
  intros Hc. induction s as [|x s IH]; simpl; [done|].
  destruct (is_space x) eqn:E; [|done].
  intros [->|H]; [congruence|by apply IH].
Qed.

Lemma strip_l_keeps (c : ascii) (s : chars) :
  is_space c = false -> In c s -> In c (strip_l s).
Proof.
  intros Hc H. unfold strip_l. rewrite <- in_rev.
  apply lstrip_l_keeps; [done|]. rewrite <- in_rev.
  by apply lstrip_l_keeps.
Qed.

Lemma strip_not_blank (c : ascii) (s : string) :
  is_space c = false -> In c (of_str s) -> strip s <> "".
Proof.
  intros Hc H Hs. apply (strip_l_keeps c) in H; [|done].
  unfold strip in Hs. apply (f_equal of_str) in Hs.
  rewrite of_to_str in Hs. rewrite Hs in H. done.
Qed.

(** What [strip] returns is an infix of its argument. *)
Lemma strip_l_infix (s : chars) : exists a b, s = a ++ strip_l s ++ b.
Proof.
  unfold strip_l.
  destruct (lstrip_l_suffix s) as [a Ha].
  destruct (lstrip_l_suffix (rev (lstrip_l s))) as [b Hb].
  exists a, (rev b).
  rewrite <- rev_app_distr, <- Hb, rev_involutive. exact Ha.
Qed.

(** ** Splitting on one character and joining again *)

Lemma split_go_char_cons (c : ascii) (cur : chars) (x : ascii) (s : chars) :
  split_go [c] None 0 cur (x :: s) =
  if ceqb c x then rev cur :: split_go [c] None 0 [] s
  else split_go [c] None 0 (x :: cur) s.
Proof. simpl. by rewrite andb_true_r. Qed.

(** The pieces of a split hold no separator. *)
Lemma split_go_char_pieces (c : ascii) (s : chars) :
  forall cur, ~ In c cur ->
    Forall (fun p => ~ In c p) (split_go [c] None 0 cur s).
Proof.
  induction s as [|x s IH]; intros cur Hc.
  - simpl. constructor; [|constructor]. by rewrite <- in_rev.
  - rewrite split_go_char_cons. destruct (ceqb c x) eqn:E.
    + constructor; [by rewrite <- in_rev|]. apply IH. simpl. tauto.
    + apply IH. apply ceqb_neq in E. simpl. intros [H|H]; [by subst|done].
Qed.

(** Splitting a piece without the separator gives the piece back. *)
Lemma split_go_char_piece (c : ascii) (p : chars) :
  forall cur, ~ In c p ->
    split_go [c] None 0 cur p = [rev cur ++ p].
Proof.
  induction p as [|x p IH]; intros cur Hc.
  - simpl. by rewrite app_nil_r.
  - rewrite split_go_char_cons.
    destruct (ceqb c x) eqn:E.
    + apply ceqb_eq in E. subst. exfalso. apply Hc. by left.
    + rewrite IH; [|intros H; apply Hc; by right].
      simpl. by rewrite <- app_assoc.
Qed.

(** Round trip: joining pieces that hold no separator and splitting the
    result gives the pieces back. *)
Lemma split_join_char (c : ascii) (p : chars) (ps : list chars) :
  forall cur,
    Forall (fun p => ~ In c p) (p :: ps) ->
    split_go [c] None 0 cur (join_l [c] (p :: ps)) = (rev cur ++ p) :: ps.
Proof.
  revert p. induction ps as [|q ps IH]; intros p cur H.
  - simpl. apply split_go_char_piece. by inversion H.
  - inversion H as [|? ? Hp Hps]; subst.
    change (join_l [c] (p :: q :: ps)) with (p ++ [c] ++ join_l [c] (q :: ps)).
    clear H. revert cur. induction p as [|x p IHp]; intros cur.
    + cbn [app]. rewrite split_go_char_cons.
      unfold ceqb. rewrite Ascii.eqb_refl.
      rewrite (IH q [] Hps). simpl. by rewrite app_nil_r.
    + cbn [app]. rewrite split_go_char_cons.
      destruct (ceqb c x) eqn:E.
      * apply ceqb_eq in E. subst. exfalso. apply Hp. by left.
      * rewrite IHp; [|intros Hx; apply Hp; by right].
        simpl. by rewrite <- app_assoc.
Qed.

Lemma filter_Forall {A : Type} (P : A -> Prop) (f : A -> bool) (l : list A) :
  Forall P l -> Forall P (List.filter f l).
Proof.
  induction 1 as [|x l Hx Hl IH]; simpl; [constructor|].
  destruct (f x); [constructor|]; auto.
Qed.

Lemma filter_all {A : Type} (f : A -> bool) (l : list A) :
  Forall (fun x => f x = true) l -> List.filter f l = l.
Proof. induction 1 as [|x l Hx _ IH]; simpl; [done|]. by rewrite Hx, IH. Qed.

Lemma map_of_to (l : list chars) : map of_str (map to_str l) = l.
Proof. induction l as [|a l IH]; simpl; [done|]. by rewrite of_to_str, IH. Qed.

Lemma filter_map_comm {A B : Type} (g : A -> B) (f : B -> bool)
    (l : list A) :
  List.filter f (map g l) = map g (List.filter (fun x => f (g x)) l).
Proof.
  induction l as [|a l IH]; simpl; [done|].
  destruct (f (g a)); simpl; by rewrite IH.
Qed.

(** ** markdown_cleaner.py: the line-break rule *)

(** X1.  [_normalize_line_breaks] leaves no carriage return in the text,
    whatever mixture of line endings it is given, and a text that holds no
    carriage return comes back as it is. *)
Theorem normalize_line_breaks_leaves_no_cr (text : string) :
  contains CR (MarkdownCleaner._normalize_line_breaks text) = false /\
  (contains CR text = false ->
   MarkdownCleaner._normalize_line_breaks text = text).
Proof.
  unfold MarkdownCleaner._normalize_line_breaks. split.
  - unfold CR, LF.
    rewrite replace_char_map. unfold contains. rewrite of_to_str.
    change (of_str (String (ascii_of_nat 13) EmptyString))
      with [ascii_of_nat 13].
    rewrite contains_l_char.
    by apply existsb_map_swap.
  - unfold contains. change (of_str CR) with [ascii_of_nat 13].
    rewrite contains_l_char. intros H.
    assert (Hn : ~ In (ascii_of_nat 13) (of_str text)).
    { intros Hin.
      assert (existsb (ceqb (ascii_of_nat 13)) (of_str text) = true);
        [|congruence].
      apply existsb_exists. eexists. split; [exact Hin|].
      apply Ascii.eqb_refl. }
    unfold replace, replace_l.
    change (of_str (CR +:+ LF)) with [ascii_of_nat 13; ascii_of_nat 10].
    change (of_str CR) with [ascii_of_nat 13].
    rewrite (replace_go_absent _ _ _ _ Hn), of_to_str.
    by rewrite (replace_go_absent _ _ _ _ Hn), to_of_str.
Qed.

Lemma normalize_line_breaks_leaves_no_cr_witness :
  MarkdownCleaner._normalize_line_breaks ("a" +:+ LF +:+ "b")
  = "a" +:+ LF +:+ "b".
Proof.
  apply (normalize_line_breaks_leaves_no_cr ("a" +:+ LF +:+ "b")).
  reflexivity.
Defined.

(** ** markdown_cleaner.py: the date rule *)

(** X2.  When [date_pattern] finds no date, [_extract_article_date] returns
    the text as it is; when it finds one, the result holds the phrase
    [Published on <day> <month> <year>] built from the first three groups of
    the match. *)
Theorem extract_article_date_writes_the_date (text : string) :
  match Re.search MarkdownCleaner.ci_off MarkdownCleaner.date_pattern text with
  | None => MarkdownCleaner._extract_article_date text = text
  | Some date_match =>
      contains ("Published on " +:+ grp date_match 1 +:+ " " +:+
                grp date_match 2 +:+ " " +:+ grp date_match 3)
               (MarkdownCleaner._extract_article_date text) = true
  end.
Proof.
  unfold MarkdownCleaner._extract_article_date.
  destruct (Re.search _ _ text) as [m|]; [|done]. cbv zeta.
  set (d1 := "Published on " +:+ grp m 1 +:+ " " +:+ grp m 2 +:+ " " +:+
             grp m 3).
  match goal with
  | |- context [replace (replace text (whole m) ?d) ?d ""] =>
      set (d3 := d); assert (Hd : contains d1 d3 = true)
  end.
  { unfold d3. destruct (has_grp m 7).
    - apply contains_app_l.
      destruct (_ && _); [apply contains_app_l|]; apply contains_refl.
    - destruct (_ && _); [apply contains_app_l|]; apply contains_refl. }
  destruct (2 <=? _).
  - destruct (contains "![" _);
      do 3 apply contains_app_r; by apply contains_app_l.
  - by apply contains_app_l.
Qed.

(** ** markdown_cleaner.py: where the characters of a result come from *)

Section KeepsChars.

Variable P : ascii -> Prop.

Lemma lit_match_chars (ci : bool) (lit : chars) :
  forall pre s pre' s',
    Forall P pre -> Forall P s ->
    lit_match ci lit pre s = Some (pre', s') ->
    Forall P pre' /\ Forall P s'.
Proof.
  induction lit as [|a lit IH]; intros pre s pre' s' Hp Hs H; simpl in H.
  - by injection H as <- <-.
  - destruct s as [|x s]; [done|].
    destruct (chr_match ci a x); [|done].
    inversion Hs; subst. eapply IH; [| |exact H]; [by constructor|done].
Qed.

Lemma rep_loop_chars {R : Type}
    (body : chars -> chars -> captures ->
            (chars -> chars -> captures -> option R) -> option R)
    (greedy : bool) (lo : nat) (hi : option nat)
    (k : chars -> chars -> captures -> option R) (x : R) :
  keeps_chars P body ->
  forall fuel cnt pre s g,
    Forall P pre -> Forall P s -> captures_in P g ->
    rep_loop body greedy lo hi k fuel cnt pre s g = Some x ->
    exists pre' s' g',
      Forall P pre' /\ Forall P s' /\ captures_in P g' /\
      k pre' s' g' = Some x.
Proof.
  intros Hbody.
  assert (Hstop : forall cnt pre s g,
            Forall P pre -> Forall P s -> captures_in P g ->
            (if lo <=? cnt then k pre s g else None) = Some x ->
            exists pre' s' g',
              Forall P pre' /\ Forall P s' /\ captures_in P g' /\
              k pre' s' g' = Some x).
  { intros cnt pre s g Hp Hs Hg H.
    destruct (lo <=? cnt); [|done]. by exists pre, s, g. }
  induction fuel as [|fuel IHf]; intros cnt pre s g Hp Hs Hg H; simpl in H.
  - destruct greedy; [by apply (Hstop cnt pre s g)|].
    apply (Hstop cnt pre s g); try done.
    destruct (if lo <=? cnt then _ else _); [exact H|done].
  - assert (Hmore :
      (if below hi cnt then
         body pre s g
           (fun pre' s' g' =>
              if List.length s' <? List.length s
              then rep_loop body greedy lo hi k fuel (S cnt) pre' s' g'
              else None)
       else None) = Some x ->
      exists pre' s' g',
        Forall P pre' /\ Forall P s' /\ captures_in P g' /\
        k pre' s' g' = Some x).
    { intros H0. destruct (below hi cnt); [|done].
      apply Hbody in H0 as (p1 & s1 & g1 & Hp1 & Hs1 & Hg1 & H0); try done.
      destruct (_ <? _); [|done].
      by apply IHf in H0. }
    destruct greedy.
    + match type of H with
      | match ?M with _ => _ end = _ => destruct M as [y|] eqn:EM
      end.
      * injection H as ->. by apply Hmore.
      * by apply (Hstop cnt pre s g).
    + match type of H with
      | match ?M with _ => _ end = _ => destruct M as [y|] eqn:EM
      end.
      * injection H as ->. by apply (Hstop cnt pre s g).
      * by apply Hmore.
Qed.

(** A match reads characters of the text only, and so do its groups. *)
Lemma run_chars (r : regex) :
  forall (R : Type) ci,
    keeps_chars (R := R) P (fun pre s g k => run ci r pre s g k).
Proof.
  induction r as [lit| |neg items|r1 IH1 r2 IH2|r1 IH1 r2 IH2
                 |greedy lo hi r' IH|n r' IH| | |r' IH];
    intros R ci pre s g k x Hp Hs Hg H; cbn [run] in H.
  - destruct (lit_match ci (of_str lit) pre s) as [[pre' s']|] eqn:E; [|done].
    destruct (lit_match_chars _ _ _ _ _ _ Hp Hs E). by exists pre', s', g.
  - destruct s as [|a s]; [done|]. destruct (ceqb a nl); [done|].
    inversion Hs; subst. exists (a :: pre), s, g. repeat split; try done.
    by constructor.
  - destruct s as [|a s]; [done|].
    destruct (cls_match ci neg items a); [|done].
    inversion Hs; subst. exists (a :: pre), s, g. repeat split; try done.
    by constructor.
  - apply IH1 in H as (p1 & s1 & g1 & Hp1 & Hs1 & Hg1 & H); try done.
    by apply IH2 in H.
  - destruct (run ci r1 pre s g k) eqn:E1.
    + injection H as ->. by apply IH1 in E1.
    + by apply IH2 in H.
  - eapply rep_loop_chars in H; try done; apply IH.
  - apply IH in H as (p1 & s1 & g1 & Hp1 & Hs1 & Hg1 & H); try done.
    exists p1, s1, ((n, rev (firstn (List.length p1 - List.length pre) p1))
                    :: g1).
    split; [done|]. split; [done|]. split; [|done].
    constructor; [|done]. simpl.
    apply Forall_rev. by apply Forall_take.
  - destruct (at_eol s); [|done]. by exists pre, s, g.
  - destruct (at_word_boundary pre s); [|done]. by exists pre, s, g.
  - destruct (run ci r' pre s g _); [done|]. by exists pre, s, g.
Qed.

Lemma match_here_chars (ci : bool) (r : regex) (pre s : chars) (f : found) :
  Forall P pre -> Forall P s ->
  match_here ci r pre s = Some f ->
  Forall P (f_text f) /\ captures_in P (f_groups f) /\
  Forall P (f_pre f) /\ Forall P (f_rest f).
Proof.
  intros Hp Hs H. unfold match_here in H.
  apply run_chars in H as (p1 & s1 & g1 & Hp1 & Hs1 & Hg1 & H);
    [|done|done|constructor].
  injection H as <-. simpl. repeat split; try done.
  apply Forall_rev. by apply Forall_take.
Qed.

Lemma search_from_chars (ci : bool) (r : regex) (s : chars) :
  forall pre before f,
    Forall P pre -> Forall P s ->
    search_from ci r pre s = Some (before, f) ->
    Forall P (f_text f) /\ captures_in P (f_groups f).
Proof.
  induction s as [|a s IH]; intros pre before f Hp Hs H; simpl in H.
  - destruct (match_here ci r pre []) as [f'|] eqn:E; [|done].
    injection H as _ <-. by apply match_here_chars in E as (? & ? & _).
  - destruct (match_here ci r pre (a :: s)) as [f'|] eqn:E.
    + injection H as _ <-. by apply match_here_chars in E as (? & ? & _).
    + inversion Hs; subst. eapply IH; [| |exact H]; [by constructor|done].
Qed.

Lemma search_chars (ci : bool) (r : regex) (text : string) (m : found) :
  chars_in P text -> Re.search ci r text = Some m ->
  chars_in P (whole m) /\ forall n, chars_in P (grp m n).
Proof.
  unfold Re.search, search_l, chars_in, whole, grp. intros Ht H.
  destruct (search_from ci r [] (of_str text)) as [[before f]|] eqn:E;
    [|done].
  injection H as <-.
  apply search_from_chars in E as [H1 H2]; [|constructor|done].
  split; [by rewrite of_to_str|]. intros n.
  induction H2 as [|[i v] g Hv Hg IH]; simpl; [constructor|].
  destruct (Nat.eqb i n); [by rewrite of_to_str|done].
Qed.

Lemma chars_in_app (a b : string) :
  chars_in P (a +:+ b) <-> chars_in P a /\ chars_in P b.
Proof. unfold chars_in. rewrite of_str_app. apply Forall_app. Qed.

Lemma replace_go_Forall (old new : chars) (s : chars) :
  Forall P new -> forall skip, Forall P s ->
  Forall P (replace_go old new skip s).
Proof.
  intros Hn skip Hs. revert skip.
  induction Hs as [|c s Hc Hs IH]; intros skip; simpl; [constructor|].
  destruct skip; [|apply IH].
  destruct (prefix_l old (c :: s)).
  - apply Forall_app. split; [done|apply IH].
  - constructor; [done|apply IH].
Qed.

Lemma chars_in_replace (s old new : string) :
  chars_in P s -> chars_in P new -> chars_in P (replace s old new).
Proof.
  unfold chars_in, replace, replace_l. intros Hs Hn. rewrite of_to_str.
  destruct (of_str old); [|by apply replace_go_Forall].
  apply Forall_app. split; [done|].
  induction Hs; simpl; [constructor|]. constructor; [done|].
  apply Forall_app. by split.
Qed.

Lemma split_go_Forall (sep : chars) (s : chars) :
  forall budget skip cur, Forall P cur -> Forall P s ->
  Forall (Forall P) (split_go sep budget skip cur s).
Proof.
  induction s as [|c s IH]; intros budget skip cur Hc Hs; simpl.
  - constructor; [by apply Forall_rev|constructor].
  - inversion Hs; subst. destruct skip; [|by apply IH].
    destruct (_ && _).
    + constructor; [by apply Forall_rev|]. by apply IH.
    + apply IH; [by constructor|done].
Qed.

Lemma chars_in_split (s sep : string) (maxsplit : option nat) :
  chars_in P s -> Forall (chars_in P) (split s sep maxsplit).
Proof.
  unfold chars_in, split, split_l. intros Hs.
  apply Forall_map.
  eapply Forall_impl; [apply split_go_Forall; [constructor|done]|].
  intros x Hx. simpl. by rewrite of_to_str.
Qed.

Lemma join_l_Forall (sep : chars) (parts : list chars) :
  Forall P sep -> Forall (Forall P) parts -> Forall P (join_l sep parts).
Proof.
  intros Hsep. induction 1 as [|p ps Hp Hps IH]; simpl; [constructor|].
  destruct ps; [done|]. apply Forall_app. split; [done|].
  apply Forall_app. by split.
Qed.

Lemma chars_in_join (sep : string) (parts : list string) :
  chars_in P sep -> Forall (chars_in P) parts -> chars_in P (join sep parts).
Proof.
  unfold chars_in, join. intros Hsep Hp. rewrite of_to_str.
  apply join_l_Forall; [done|]. by apply Forall_map.
Qed.

Lemma chars_in_hd (parts : list string) :
  Forall (chars_in P) parts -> chars_in P (hd "" parts).
Proof. destruct 1; simpl; [constructor|done]. Qed.

Lemma chars_in_tl (parts : list string) :
  Forall (chars_in P) parts -> Forall (chars_in P) (tl parts).
Proof. destruct 1; simpl; [constructor|done]. Qed.

(** The date rule writes characters of the text and of its own phrase
    only. *)
Lemma _extract_article_date_chars (text : string) :
  chars_in P ("Published on at:" +:+ LF) ->
  chars_in P text ->
  chars_in P (MarkdownCleaner._extract_article_date text).
Proof.
  intros Hlit Ht. unfold MarkdownCleaner._extract_article_date.
  destruct (Re.search MarkdownCleaner.ci_off MarkdownCleaner.date_pattern
              text)
    as [m|] eqn:Em; [|done].
  destruct (search_chars _ _ _ _ Ht Em) as [Hw Hg].
  assert (Hin : forall c, In c (of_str ("Published on at:" +:+ LF)) -> P c).
  { intros c Hc. unfold chars_in in Hlit. rewrite Forall_forall in Hlit.
    by apply Hlit, list_elem_of_In. }
  assert (Hsp : chars_in P " ").
  { constructor; [|constructor]. apply Hin. simpl. tauto. }
  assert (Hcol : chars_in P ":").
  { constructor; [|constructor]. apply Hin. simpl. tauto. }
  assert (Hlf : chars_in P LF).
  { constructor; [|constructor]. apply Hin. simpl. tauto. }
  assert (Hat : chars_in P " at ").
  { unfold chars_in. simpl.
    repeat (constructor; [apply Hin; simpl; tauto|]). constructor. }
  assert (Hpub : chars_in P "Published on ").
  { unfold chars_in. simpl.
    repeat (constructor; [apply Hin; simpl; tauto|]). constructor. }
  cbv zeta.
  repeat first
    [ assumption
    | apply Hg
    | match goal with
      | |- chars_in _ (if ?b then _ else _) => destruct b
      | |- chars_in _ (_ +:+ _) => apply chars_in_app; split
      | |- chars_in _ (replace _ _ _) => apply chars_in_replace
      | |- chars_in _ (join _ _) => apply chars_in_join
      | |- chars_in _ (hd _ _) => apply chars_in_hd
      | |- Forall (chars_in _) (tl _) => apply chars_in_tl
      | |- Forall (chars_in _) (split _ _ _) => apply chars_in_split
      | |- chars_in _ "" => constructor
      end ].
Qed.

Lemma _normalize_line_breaks_chars (text : string) :
  chars_in P LF -> chars_in P text ->
  chars_in P (MarkdownCleaner._normalize_line_breaks text).
Proof.
  intros Hlf Ht. unfold MarkdownCleaner._normalize_line_breaks.
  apply chars_in_replace; [|done]. by apply chars_in_replace.
Qed.

End KeepsChars.

Lemma chars_in_absent (c : ascii) (text : string) :
  chars_in (fun x => x <> c) text <-> Spec.absent c text = true.
Proof.
  unfold chars_in, Spec.absent. rewrite negb_true_iff.
  induction (of_str text) as [|a l IH]; simpl.
  - split; [done|constructor].
  - rewrite orb_false_iff, <- IH. unfold ceqb. rewrite Ascii.eqb_neq.
    split.
    + intros H. inversion H; subst. split; [congruence|done].
    + intros [H1 H2]. constructor; [congruence|done].
Qed.

(** ** markdown_cleaner.py: the image rule *)

Lemma sub_try_go_no_match (ci : bool) (r : regex)
    (repl : found -> option chars) (s : chars) :
  forall fuel pre,
    search_from ci r pre s = None ->
    sub_try_go fuel ci r repl pre s = Some s.
Proof.
  induction s as [|c s IH]; intros [|fuel] pre H; simpl in *; try done.
  - destruct (match_here ci r pre []); done.
  - destruct (match_here ci r pre (c :: s)); [done|]. by rewrite IH.
Qed.

Lemma _clean_image_references_plain
    (urlparse : string -> option MarkdownCleaner.url_parts) (text : string) :
  Spec.absent "!" text = true ->
  MarkdownCleaner._clean_image_references urlparse text = Some text.
Proof.
  intros Ha. unfold MarkdownCleaner._clean_image_references, sub_try.
  rewrite sub_try_go_no_match; [simpl; by rewrite to_of_str|].
  apply (search_from_needs "!"); [done|done|by apply absent_not_in].
Qed.

(** X3.  The cleaner can fail on an image reference only: on a text without
    exclamation mark the image rule returns the text as it is, whatever
    [urlparse] does, and [clean] returns a cleaned text (the verbose cleaner
    on a non-empty text), since neither the line-break rule nor the date
    rule writes an exclamation mark. *)
Theorem clean_fails_only_on_image_references
    (urlparse : string -> option MarkdownCleaner.url_parts) (verbose : bool)
    (text : string) :
  contains "!" text = false ->
  verbose && (String.length text =? 0) = false ->
  MarkdownCleaner._clean_image_references urlparse text = Some text /\
  exists cleaned, MarkdownCleaner.clean urlparse verbose text = Some cleaned.
Proof.
  intros Ha Hv. apply contains_char_absent in Ha.
  split; [by apply _clean_image_references_plain|].
  unfold MarkdownCleaner.clean. rewrite Hv.
  rewrite _clean_image_references_plain; [eauto|].
  apply chars_in_absent. apply _extract_article_date_chars.
  - unfold chars_in. simpl.
    repeat (constructor; [discriminate|]). constructor.
  - apply _normalize_line_breaks_chars.
    + unfold chars_in. simpl.
      repeat (constructor; [discriminate|]). constructor.
    + by apply chars_in_absent.
Qed.

Lemma clean_fails_only_on_image_references_witness :
  MarkdownCleaner._clean_image_references Examples.urlparse_raises
    "Match report" = Some "Match report" /\
  exists cleaned,
    MarkdownCleaner.clean Examples.urlparse_raises false "Match report"
    = Some cleaned.
Proof.
  apply (clean_fails_only_on_image_references Examples.urlparse_raises false
           "Match report"); reflexivity.
Defined.

(** ** markdown_cleaner.py: plain text *)

(** X4.  The rules that look for markup leave a text without that markup
    as it is: without opening square bracket,
    [_remove_other_article_promotions] and [_remove_general_links]; without
    exclamation mark and less-than sign, [_remove_logos]; without star,
    [_fix_bold_formatting]; without opening parenthesis, star and full stop,
    [_fix_heading_structure]. *)
Theorem plain_text_is_left_alone (text : string) :
  (contains "[" text = false ->
   MarkdownCleaner._remove_other_article_promotions text = text /\
   MarkdownCleaner._remove_general_links text = text) /\
  (contains "!" text = false -> contains "<" text = false ->
   MarkdownCleaner._remove_logos text = text) /\
  (contains "*" text = false ->
   MarkdownCleaner._fix_bold_formatting text = text) /\
  (contains "(" text = false -> contains "*" text = false ->
   contains "." text = false ->
   MarkdownCleaner._fix_heading_structure text = text).
Proof.
  split; [|split; [|split]].
  - intros H. apply contains_char_absent in H. split.
    + apply (inert_settled Spec.RuleG); [done|].
      unfold Spec.inert. simpl. by rewrite H.
    + apply (inert_settled Spec.RuleJ); [done|].
      unfold Spec.inert. simpl. by rewrite H.
  - intros H1 H2. apply contains_char_absent in H1, H2.
    apply (inert_settled Spec.RuleI); [done|].
    unfold Spec.inert. simpl. by rewrite H1, H2.
  - intros H. apply contains_char_absent in H.
    apply (inert_settled Spec.RuleK); [done|].
    unfold Spec.inert. simpl. by rewrite H.
  - intros H1 H2 H3. apply contains_char_absent in H1, H2, H3.
    apply (inert_settled Spec.RuleL); [done|].
    unfold Spec.inert. simpl. by rewrite H1, H2, H3.
Qed.

Lemma plain_text_is_left_alone_witness :
  (MarkdownCleaner._remove_other_article_promotions "toss at seven"
   = "toss at seven" /\
   MarkdownCleaner._remove_general_links "toss at seven" = "toss at seven") /\
  MarkdownCleaner._remove_logos "toss at seven" = "toss at seven" /\
  MarkdownCleaner._fix_bold_formatting "toss at seven" = "toss at seven" /\
  MarkdownCleaner._fix_heading_structure "toss at seven" = "toss at seven".
Proof.
  destruct (plain_text_is_left_alone "toss at seven") as (H1 & H2 & H3 & H4).
  split; [apply H1; reflexivity|].
  split; [apply H2; reflexivity|].
  split; [apply H3; reflexivity|apply H4; reflexivity].
Defined.

(** ** markdown_cleaner.py: the keyword loops *)

(** The loop on lists of characters: the pieces of its result are the
    kept pieces of the input. *)
Lemma drop_keyword_lines_pieces (keywords : list string) (text : string) :
  split_l [nl] None
    (of_str (MarkdownCleaner.drop_keyword_lines keywords text)) =
  match List.filter (fun piece => keeps keywords (to_str piece))
                    (split_l [nl] None (of_str text)) with
  | [] => [[]]
  | kept => kept
  end.
Proof.
  unfold MarkdownCleaner.drop_keyword_lines.
  change (fun line =>
            negb (existsb (fun keyword => contains keyword (lower line))
                    keywords))
    with (keeps keywords).
  unfold split, join, split_l. rewrite of_to_str.
  change (of_str LF) with [nl].
  rewrite filter_map_comm, map_of_to.
  pose proof (split_go_char_pieces nl (of_str text) [] (fun H => H)) as HF.
  apply (filter_Forall _ (fun x => keeps keywords (to_str x))) in HF.
  destruct (List.filter _ (split_go [nl] None 0 [] (of_str text))) as [|p ps].
  - reflexivity.
  - by rewrite split_join_char.
Qed.

(** X5.  The loop over the lines in [_remove_betting_promotions] and
    [_remove_social_media_promotions] is a filter on lines: splitting its
    result at the newlines gives back exactly the lines of the input that
    hold no keyword, in their order, and the single empty line when no line
    is kept. *)
Theorem keyword_loop_returns_the_kept_lines (keywords : list string)
    (text : string) :
  split (MarkdownCleaner.drop_keyword_lines keywords text) LF None =
  match List.filter (keeps keywords) (split text LF None) with
  | [] => [""]
  | kept => kept
  end.
Proof.
  unfold split. change (of_str LF) with [nl].
  rewrite drop_keyword_lines_pieces, filter_map_comm.
  destruct (List.filter _ (split_l [nl] None (of_str text))) as [|p ps].
  - reflexivity.
  - reflexivity.
Qed.

Lemma keeps_empty_line (keywords : list string) :
  forallb (fun keyword => negb (String.eqb keyword "")) keywords = true ->
  keeps keywords "" = true.
Proof.
  unfold keeps. intros H. apply negb_true_iff.
  induction keywords as [|k ks IH]; [done|]. simpl in *.
  apply andb_true_iff in H as [Hk Hks]. rewrite (IH Hks), orb_false_r.
  destruct k; [done|]. reflexivity.
Qed.

Lemma drop_keyword_lines_clean (keywords : list string) (text : string) :
  forallb (fun keyword => negb (String.eqb keyword "")) keywords = true ->
  Forall (fun line => keeps keywords line = true)
         (split (MarkdownCleaner.drop_keyword_lines keywords text) LF None).
Proof.
  intros Hk. unfold split. change (of_str LF) with [nl].
  rewrite drop_keyword_lines_pieces. apply Forall_map.
  destruct (List.filter _ _) as [|l ls] eqn:E.
  - constructor; [by apply keeps_empty_line|constructor].
  - rewrite <- E. apply Forall_forall. intros piece Hl.
    by apply list_elem_of_In, filter_In in Hl as [_ Hl].
Qed.

(** X6.  No line of what [_remove_betting_promotions] returns holds a
    betting keyword, and no line of what [_remove_social_media_promotions]
    returns holds a social-media keyword, in whatever case the line writes
    it. *)
Theorem promotion_rules_leave_no_keyword_line (text : string) :
  Forall (fun line =>
            forall keyword, keyword ∈ MarkdownCleaner.betting_keywords ->
                            contains keyword (lower line) = false)
    (split (MarkdownCleaner._remove_betting_promotions text) LF None) /\
  Forall (fun line =>
            forall keyword, keyword ∈ MarkdownCleaner.social_keywords ->
                            contains keyword (lower line) = false)
    (split (MarkdownCleaner._remove_social_media_promotions text) LF None).
Proof.
  assert (Hk : forall keywords line keyword,
             keeps keywords line = true -> keyword ∈ keywords ->
             contains keyword (lower line) = false).
  { intros keywords line keyword Hkeep Hin. unfold keeps in Hkeep.
    apply negb_true_iff in Hkeep.
    destruct (contains keyword (lower line)) eqn:E; [|done].
    assert (existsb (fun keyword => contains keyword (lower line)) keywords
            = true); [|congruence].
    apply existsb_exists. exists keyword. split; [|done].
    by apply list_elem_of_In. }
  split.
  - eapply Forall_impl;
      [apply (drop_keyword_lines_clean MarkdownCleaner.betting_keywords);
       reflexivity|].
    intros line Hl keyword. by apply Hk.
  - eapply Forall_impl;
      [apply (drop_keyword_lines_clean MarkdownCleaner.social_keywords);
       reflexivity|].
    intros line Hl keyword. by apply Hk.
Qed.

(** ** markdown_cleaner.py: the whitespace rule *)

Lemma blanks_length (s : chars) : blanks s <= List.length s.
Proof.
  induction s as [|c s IH]; cbn [blanks List.length]; [lia|].
  destruct (ceqb blank c); lia.
Qed.

(** The greedy repetition of the blank reads every blank at the head of
    the text. *)
Lemma rep_loop_blanks {R : Type}
    (body : chars -> chars -> captures ->
            (chars -> chars -> captures -> option R) -> option R)
    (F : chars -> chars -> captures -> R) (lo : nat) :
  (forall pre s g k, body pre s g k = run false (Lit " ") pre s g k) ->
  forall fuel cnt pre s g,
    blanks s <= fuel ->
    rep_loop body true lo None (fun p s' g' => Some (F p s' g'))
             fuel cnt pre s g
    = if lo <=? cnt + blanks s
      then Some (F (rev (firstn (blanks s) s) ++ pre)
                   (skipn (blanks s) s) g)
      else None.
Proof.
  intros Hbody.
  induction fuel as [|fuel IH]; intros cnt pre s g Hf.
  - assert (blanks s = 0) as -> by lia. cbn [rep_loop]. simpl.
    rewrite Nat.add_0_r. by destruct (lo <=? cnt).
  - cbn [rep_loop below]. rewrite Hbody. cbn [run].
    destruct s as [|c s].
    + simpl. rewrite Nat.add_0_r. by destruct (lo <=? cnt).
    + change (of_str " ") with [blank]. cbn [lit_match chr_match blanks].
      destruct (ceqb blank c) eqn:Ec.
      * apply ceqb_eq in Ec. subst c.
        assert (Hlt : (List.length s <? List.length (blank :: s)) = true)
          by (apply Nat.ltb_lt; simpl; lia).
        rewrite Hlt.
        assert (Hb : blanks s <= fuel).
        { simpl in Hf. change (ceqb blank blank) with true in Hf. lia. }
        rewrite (IH (S cnt) (blank :: pre) s g Hb).
        replace (cnt + S (blanks s)) with (S cnt + blanks s) by lia.
        destruct (lo <=? S cnt + blanks s) eqn:El.
        -- simpl. by rewrite <- app_assoc.
        -- apply Nat.leb_gt in El.
           destruct (Nat.leb_spec lo cnt); [lia|done].
      * rewrite Nat.add_0_r. simpl. by destruct (lo <=? cnt).
Qed.

Lemma match_here_blank_run (pre s : chars) :
  match_here false blank_run pre s
  = if 2 <=? blanks s
    then Some (Found (rev (firstn (List.length (rev (firstn (blanks s) s)
                                                ++ pre)
                                   - List.length pre)
                                  (rev (firstn (blanks s) s) ++ pre)))
                     [] (rev (firstn (blanks s) s) ++ pre)
                     (skipn (blanks s) s))
    else None.
Proof.
  unfold match_here, blank_run, at_least. cbn [run].
  rewrite (rep_loop_blanks _
             (fun pre' s' g' =>
                Found (rev (firstn (List.length pre' - List.length pre) pre'))
                      g' pre' s')).
  - done.
  - done.
  - pose proof (blanks_length s). lia.
Qed.

Lemma squeeze_run (s : chars) :
  2 <= blanks s -> squeeze s = blank :: squeeze (skipn (blanks s) s).
Proof.
  induction s as [|c s IH]; cbn [blanks]; [lia|].
  destruct (ceqb blank c) eqn:Ec; [|lia]. intros Hb.
  apply ceqb_eq in Ec. subst c.
  cbn [skipn squeeze]. change (ceqb blank blank) with true. cbn [andb].
  destruct s as [|d s]; [simpl in Hb; lia|].
  cbn [starts_blank]. cbn [blanks] in *.
  destruct (ceqb blank d) eqn:Ed; [|lia].
  destruct (blanks s) as [|b] eqn:Eb.
  - apply ceqb_eq in Ed. subst d. cbn [skipn squeeze].
    change (ceqb blank blank) with true. cbn [andb].
    destruct s as [|e s]; [done|]. cbn [starts_blank].
    cbn [blanks] in Eb. destruct (ceqb blank e); [done|]. done.
  - apply IH. lia.
Qed.

Lemma squeeze_no_run (c : ascii) (s : chars) :
  blanks (c :: s) < 2 -> squeeze (c :: s) = c :: squeeze s.
Proof.
  cbn [blanks squeeze]. destruct (ceqb blank c); [|done].
  destruct s as [|d s]; [done|]. cbn [starts_blank blanks].
  destruct (ceqb blank d); [lia|done].
Qed.

Lemma sub_go_blank_run (repl : found -> chars) :
  (forall f, repl f = [blank]) ->
  forall fuel pre s,
    List.length s < fuel ->
    sub_go fuel false blank_run repl pre s = squeeze s.
Proof.
  intros Hrepl. induction fuel as [|fuel IH]; intros pre s Hf; [lia|].
  cbn [sub_go]. rewrite match_here_blank_run.
  destruct (Nat.leb_spec 2 (blanks s)) as [Hb|Hb].
  - cbn [f_rest f_pre]. rewrite Hrepl.
    pose proof (blanks_length s).
    assert (Hl : List.length (skipn (blanks s) s) < List.length s)
      by (rewrite length_skipn; lia).
    apply Nat.ltb_lt in Hl as Hl'. rewrite Hl'.
    rewrite IH by lia. by rewrite (squeeze_run s Hb).
  - destruct s as [|c s]; [done|].
    rewrite IH by (simpl in Hf; lia). by rewrite squeeze_no_run.
Qed.

(** The last substitution of [_clean_whitespace] turns every run of blanks
    into one blank. *)
Lemma sub_blank_run (s : string) :
  sub false blank_run (fun _ => " ") s = to_str (squeeze (of_str s)).
Proof.
  unfold sub, sub_l. by rewrite sub_go_blank_run by (done || lia).
Qed.

Lemma starts_blank_squeeze (s : chars) :
  starts_blank (squeeze s) = starts_blank s.
Proof.
  induction s as [|c s IH]; [done|]. cbn [squeeze].
  change (starts_blank (c :: s)) with (ceqb blank c).
  destruct (ceqb blank c) eqn:Ec; cbn [andb].
  - destruct (starts_blank s) eqn:Es.
    + by rewrite IH.
    + change (starts_blank (c :: squeeze s)) with (ceqb blank c). exact Ec.
  - change (starts_blank (c :: squeeze s)) with (ceqb blank c). exact Ec.
Qed.

Lemma prefix_two_blanks (s : chars) :
  prefix_l [blank; blank] s
  = match s with c :: t => ceqb blank c && starts_blank t | [] => false end.
Proof.
  destruct s as [|c [|d t]]; cbn [prefix_l starts_blank]; try done.
  by rewrite andb_true_r.
Qed.

Lemma squeeze_no_two_blanks (s : chars) :
  contains_l [blank; blank] (squeeze s) = false.
Proof.
  induction s as [|c s IH]; [done|]. cbn [squeeze].
  destruct (ceqb blank c && starts_blank s) eqn:E; [done|].
  cbn [contains_l]. rewrite IH, orb_false_r, prefix_two_blanks.
  by rewrite starts_blank_squeeze.
Qed.

Lemma strip_no_two_blanks (s : string) :
  contains "  " s = false -> contains "  " (strip s) = false.
Proof.
  unfold contains, strip. rewrite of_to_str. intros H.
  destruct (strip_l_infix (of_str s)) as (a & b & Hs).
  rewrite Hs in H. by apply contains_l_inside in H.
Qed.

Lemma _clean_whitespace_tidy (text : string) :
  strip (MarkdownCleaner._clean_whitespace text)
  = MarkdownCleaner._clean_whitespace text /\
  contains "  " (MarkdownCleaner._clean_whitespace text) = false.
Proof.
  unfold MarkdownCleaner._clean_whitespace. split; [apply strip_idem|].
  apply strip_no_two_blanks.
  unfold MarkdownCleaner.apply_rewrites, MarkdownCleaner.whitespace_rewrites.
  cbn [fold_left fst snd].
  change (at_least 2 (Lit " ")) with blank_run.
  change MarkdownCleaner.ci_off with false.
  rewrite sub_blank_run. unfold contains. rewrite of_to_str.
  apply squeeze_no_two_blanks.
Qed.

(** X7.  Whatever [clean] returns is tidy: it neither starts nor ends with
    white space (stripping it again changes nothing) and it holds no two
    blanks in a row. *)
Theorem clean_output_is_tidy
    (urlparse : string -> option MarkdownCleaner.url_parts) (verbose : bool)
    (text cleaned : string) :
  MarkdownCleaner.clean urlparse verbose text = Some cleaned ->
  strip cleaned = cleaned /\ contains "  " cleaned = false.
Proof.
  unfold MarkdownCleaner.clean. destruct (_ && _); [done|].
  destruct (MarkdownCleaner._clean_image_references _ _); [|done].
  intros [= <-]. apply _clean_whitespace_tidy.
Qed.

Lemma clean_output_is_tidy_witness :
  strip "toss at seven" = "toss at seven" /\
  contains "  " "toss at seven" = false.
Proof.
  apply (clean_output_is_tidy Examples.urlparse_raises false
           "  toss   at  seven " "toss at seven").
  vm_compute. reflexivity.
Defined.

(** ** oprah.py: the request to the search service *)

(** Writing a plus sign for a blank commutes with lower-casing. *)
Lemma lower_char_plus (c : ascii) :
  lower_char (if ceqb " " c then "+"%char else c)
  = if ceqb " " (lower_char c) then "+"%char else lower_char c.
Proof. destruct c as [[] [] [] [] [] [] [] []]; reflexivity. Qed.

(** A pattern without blank and plus sign cannot tell the two apart. *)
Lemma prefix_l_plus (p : chars) :
  Forall (fun a => ceqb a " " = false /\ ceqb a "+" = false) p ->
  forall s,
    prefix_l p (map (fun c => if ceqb " " c then "+"%char else c) s)
    = prefix_l p s.
Proof.
  induction 1 as [|a p [Ha1 Ha2] Hp IH]; intros s; [done|].
  destruct s as [|c s]; [done|]. cbn [map prefix_l]. rewrite IH. f_equal.
  destruct (ceqb " " c) eqn:Ec; [|done].
  apply ceqb_eq in Ec. subst c. by rewrite Ha1, Ha2.
Qed.

Lemma contains_l_plus (p : chars) :
  Forall (fun a => ceqb a " " = false /\ ceqb a "+" = false) p ->
  forall s,
    contains_l p (map (fun c => if ceqb " " c then "+"%char else c) s)
    = contains_l p s.
Proof.
  intros Hp. induction s as [|c s IH].
  - reflexivity.
  - cbn [map contains_l]. rewrite <- IH. f_equal.
    apply (prefix_l_plus p Hp (c :: s)).
Qed.

Lemma contains_lower_plus (p query : string) :
  Forall (fun a => ceqb a " " = false /\ ceqb a "+" = false) (of_str p) ->
  contains p (lower query) = contains p (lower (replace query " " "+")).
Proof.
  intros Hp. unfold contains, lower, lower_l.
  change " " with (String " " EmptyString).
  change "+" with (String "+" EmptyString).
  rewrite replace_char_map, !of_to_str.
  rewrite <- (contains_l_plus _ Hp (map lower_char (of_str query))).
  f_equal. rewrite !map_map. apply map_ext. intros c.
  symmetry. apply lower_char_plus.
Qed.

(** X8.  [get_news_urls] cannot tell a blank from a plus sign: two queries
    that read the same once every blank is written as a plus sign get the
    same request URL, the [&time_range=day] flag included, and so the same
    answer of the discovery; a plus sign in a query is searched for as a
    blank. *)
Theorem get_news_urls_confuses_blank_and_plus (w : world)
    (query1 query2 : string) :
  replace query1 " " "+" = replace query2 " " "+" ->
  search_request w query1 = search_request w query2 /\
  get_news_urls w query1 = get_news_urls w query2.
Proof.
  intros H.
  assert (Hreq : search_request w query1 = search_request w query2).
  { unfold search_request.
    rewrite (contains_lower_plus "latest" query1),
            (contains_lower_plus "current" query1),
            (contains_lower_plus "latest" query2),
            (contains_lower_plus "current" query2), H;
      try (repeat (constructor; [by split|]); constructor). }
  split; [done|]. unfold get_news_urls. by rewrite Hreq.
Qed.

Lemma get_news_urls_confuses_blank_and_plus_witness :
  search_request Examples.world_two "ipl latest score"
  = search_request Examples.world_two "ipl+latest score" /\
  get_news_urls Examples.world_two "ipl latest score"
  = get_news_urls Examples.world_two "ipl+latest score".
Proof.
  apply (get_news_urls_confuses_blank_and_plus Examples.world_two
           "ipl latest score" "ipl+latest score").
  reflexivity.
Defined.

(** ** oprah.py: what a fetch hands on *)

(** Every outcome of a fetch holds something else than blanks. *)
Lemma marker_not_blank (w : world) (url : string) :
  strip (Spec.marker (Spec.fetch_spec w url)) <> "".
Proof.
  destruct (Spec.is_failure (Spec.fetch_spec w url)) eqn:E;
    [by apply failure_marker_not_blank|].
  unfold Spec.fetch_spec in *.
  destruct (session_get w url) as [response|e];
    [|unfold Spec.failure_of in E; by destruct (exn_kind e)].
  destruct (Z.eqb (status response) 200); [|done].
  destruct (text response) as [html|e];
    [|unfold Spec.failure_of in E; by destruct (exn_kind e)].
  destruct (Spec.usable (parse_html_content w html)) as [cleaned|]; [|done].
  simpl. apply (strip_not_blank "S"); [done|].
  rewrite !of_str_app. rewrite !in_app_iff. right. right. left. by left.
Qed.

Lemma keep_results_markers (w : world) (urls : list string) :
  keep_results
    (Some (map (fun url => Spec.marker (Spec.fetch_spec w url)) urls))
  = Ret (map (fun url => Spec.marker (Spec.fetch_spec w url)) urls).
Proof.
  unfold keep_results. f_equal. apply filter_all.
  apply Forall_forall. intros x Hx.
  apply list_elem_of_In, in_map_iff in Hx as (u & <- & _).
  apply negb_true_iff, String.eqb_neq, marker_not_blank.
Qed.

(** X9.  [webscraper] returns [None] or a list that is not empty, never the
    empty list: [None] exactly when discovery returned no URL, and otherwise
    as many results as there are URLs. *)
Theorem webscraper_never_returns_an_empty_list (w : world) (query : string)
    (scraped : option (list string)) :
  webscraper w query = Ret scraped ->
  match scraped with
  | None => get_news_urls w query = Ret []
  | Some results =>
      results <> [] /\
      exists urls, get_news_urls w query = Ret urls /\
                   List.length results = List.length urls
  end.
Proof.
  intros H.
  destruct (get_news_urls w query) as [urls|e] eqn:Hu;
    [|unfold webscraper in H; by rewrite Hu in H].
  destruct urls as [|u urls].
  - unfold webscraper in H. rewrite Hu in H. simpl in H. by injection H as <-.
  - rewrite (webscraper_results w query (u :: urls) Hu) in H by done.
    injection H as <-. split; [done|]. exists (u :: urls).
    split; [done|]. simpl. f_equal. apply List.length_map.
Qed.

Lemma webscraper_never_returns_an_empty_list_witness :
  get_news_urls Examples.world_down "ipl" = Ret [].
Proof.
  apply (webscraper_never_returns_an_empty_list Examples.world_down "ipl"
           None).
  vm_compute. reflexivity.
Defined.

(** X10.  The filter at the head of [search] drops nothing that
    [webscraper] returns: every string [fetch_article] returns, the failure
    markers included, holds something else than white space, so
    [search_results] has one entry per discovered URL, in the order of the
    URLs. *)
Theorem search_keeps_every_outcome (w : world) (query : string)
    (urls : list string) :
  get_news_urls w query = Ret urls -> urls <> [] ->
  exists results,
    webscraper w query = Ret (Some results) /\
    keep_results (Some results) = Ret results /\
    Forall2 (fun url result_ => fetch_article w url = Ret result_ /\
                                strip result_ <> "")
            urls results.
Proof.
  intros Hu Hne. eexists. split; [by apply webscraper_results|].
  split; [apply keep_results_markers|].
  clear. induction urls as [|u urls IH]; simpl; constructor; [|done].
  split; [apply fetch_article_marker|apply marker_not_blank].
Qed.

Lemma search_keeps_every_outcome_witness :
  exists results,
    webscraper Examples.world_two "ipl" = Ret (Some results) /\
    keep_results (Some results) = Ret results /\
    Forall2 (fun url result_ =>
               fetch_article Examples.world_two url = Ret result_ /\
               strip result_ <> "")
            ["https://a.org/1"; "https://b.org/2"] results.
Proof.
  apply (search_keeps_every_outcome Examples.world_two "ipl").
  - vm_compute. reflexivity.
  - discriminate.
Defined.

(** ** oprah.py: the browser fetch *)

(** X11.  On a page that the HTTP session serves with status 200 and that
    the browser renders to the same HTML, [fetch_with_browser] and
    [fetch_article] agree: when the browser fetch returns an article,
    [fetch_article] returns the same string, which ends with the
    [Source: <url>] line, and when it returns [None], [fetch_article]
    returns the [Parse Failed] marker. *)
Theorem fetch_with_browser_agrees_with_fetch_article (w : world)
    (page_content : string -> outcome string) (url html : string) :
  session_get w url = Ret (HttpResponse 200 (Ret html)) ->
  page_content url = Ret html ->
  match Browser.fetch_with_browser w page_content url with
  | Some article =>
      fetch_article w url = Ret article /\
      endswith article (LF +:+ "Source: " +:+ url +:+ LF) = true
  | None => fetch_article w url = Ret ("[Parse Failed] " +:+ url)
  end.
Proof.
  intros Hs Hp.
  assert (H1 : Browser.fetch_with_browser w page_content url
               = match parse_html_content w html with
                 | None | Some "" => None
                 | Some parsed =>
                     Some (parsed +:+ LF +:+ "Source: " +:+ url +:+ LF)
                 end).
  { unfold Browser.fetch_with_browser. rewrite Hp. simpl.
    by destruct (parse_html_content w html) as [[|c parsed]|]. }
  assert (H2 : fetch_article w url
               = Ret match parse_html_content w html with
                     | None | Some "" => "[Parse Failed] " +:+ url
                     | Some parsed =>
                         parsed +:+ LF +:+ "Source: " +:+ url +:+ LF
                     end).
  { unfold fetch_article, fetch_article_try. rewrite Hs. simpl.
    by destruct (parse_html_content w html) as [[|c parsed]|]. }
  rewrite H1, H2.
  destruct (parse_html_content w html) as [[|c parsed]|]; try done.
  split; [done|]. apply endswith_app.
Qed.

Lemma fetch_with_browser_agrees_with_fetch_article_witness :
  match Browser.fetch_with_browser Examples.world_ipl
          (fun _ => Ret Examples.page) "https://b.org/2" with
  | Some article =>
      fetch_article Examples.world_ipl "https://b.org/2" = Ret article /\
      endswith article
        (LF +:+ "Source: " +:+ "https://b.org/2" +:+ LF) = true
  | None =>
      fetch_article Examples.world_ipl "https://b.org/2"
      = Ret ("[Parse Failed] " +:+ "https://b.org/2")
  end.
Proof.
  apply (fetch_with_browser_agrees_with_fetch_article Examples.world_ipl
           (fun _ => Ret Examples.page) "https://b.org/2" Examples.page);
    reflexivity.
Defined.

(** ** webthinker.py: extraction *)

Lemma extraction_tasks_ret (sv : services) (question : string)
    (passages : list string) :
  exists facts,
    (map (fun result_ => (extraction_time sv result_,
                          extract_information sv question result_))
         passages).*2 = Ret <$> facts /\
    Forall2 (fun passage fact =>
               extract_information sv question passage = Ret fact)
            passages facts.
Proof.
  induction passages as [|p ps (facts & H1 & H2)].
  - exists []. by split.
  - destruct (extract_information_returns sv question p) as [f Hf].
    exists (f :: facts). split; [|by constructor].
    simpl. rewrite Hf. f_equal. apply H1.
Qed.

Lemma gather_extracted_info_returns (sv : services) (question : string)
    (passages : list string) :
  exists facts,
    gather_extracted_info sv question passages
    = Ret (join (LF +:+ LF) facts) /\
    Forall2 (fun passage fact =>
               extract_information sv question passage = Ret fact)
            passages facts.
Proof.
  destruct (extraction_tasks_ret sv question passages) as (facts & H1 & H2).
  exists facts. split; [|done].
  unfold gather_extracted_info. by rewrite (gather_all_ret _ facts H1).
Qed.

(** X12.  [gather_extracted_info] never raises: it returns the texts of
    the extraction calls joined by blank lines, one per passage and in the
    order of the passages whatever the order in which the calls finish, the
    text of a call that failed being [Error extracting information: ]
    followed by the message of the exception. *)
Theorem gather_extracted_info_joins_in_order (sv : services)
    (question : string) (passages : list string) :
  exists facts,
    gather_extracted_info sv question passages
    = Ret (join (LF +:+ LF) facts) /\
    Forall2 (fun passage fact =>
               match extraction_chain sv question passage with
               | Ret answer => fact = answer
               | Raise e =>
                   fact = "Error extracting information: " +:+ exn_msg e
               end)
            passages facts.
Proof.
  destruct (gather_extracted_info_returns sv question passages)
    as (facts & H1 & H2).
  exists facts. split; [done|].
  eapply Forall2_impl; [exact H2|]. intros p f Hf. simpl in Hf.
  unfold extract_information in Hf.
  destruct (extraction_chain sv question p); simpl in Hf; by injection Hf.
Qed.

(** ** webthinker.py: retrieval *)

(** X13.  The retrieval step of [search] returns only with a positive
    [NUMBER_OF_POINTS] k (at k = 0 the index search raises), and then it
    never hands an empty list to the extraction: from kept texts it hands
    over min(k, number of kept texts) passages, each of them one of the kept
    texts, and from no kept text the one sentence
    [No relevant information found.]. *)
Theorem retrieve_never_hands_over_nothing (sv : services) (question : string)
    (kept final_results : list string) :
  retrieve sv question kept = Ret final_results ->
  exists k,
    NUMBER_OF_POINTS sv = Ret k /\ 0 < k /\
    final_results <> [] /\
    match kept with
    | [] => final_results = [no_information]
    | _ :: _ =>
        List.length final_results = Nat.min k (List.length kept) /\
        Forall (fun passage => passage ∈ kept) final_results
    end.
Proof.
  unfold retrieve, get_vector_store, add_texts, similarity_search.
  intros H.
  destruct (embed_probe sv) as [[]|]; [|done]. simpl in H.
  destruct (match kept with [] => _ | _ => _ end) as [store|] eqn:Es; [|done].
  assert (store = kept) as ->.
  { destruct kept; [by injection Es as <-|].
    destruct (embed_documents sv _); [|done]. simpl in Es.
    by injection Es as <-. }
  clear Es. destruct (NUMBER_OF_POINTS sv) as [k|]; [|done]. simpl in H.
  destruct (embed_query sv question); [|done]. simpl in H.
  destruct (Nat.eqb_spec k 0) as [->|Hk]; [done|].
  exists k. split; [done|]. split; [lia|].
  pose proof (nearest_first_perm sv question kept) as Hp.
  pose proof (Permutation_length Hp) as Hl.
  destruct (firstn k (nearest_first sv question kept)) as [|r0 rs] eqn:Ef.
  - injection H as <-. split; [done|].
    apply (f_equal List.length) in Ef. rewrite length_firstn, Hl in Ef.
    destruct kept; [done|]. cbn [List.length] in Ef. lia.
  - injection H as <-. split; [done|].
    assert (Hlen : List.length (r0 :: rs) = Nat.min k (List.length kept))
      by (rewrite <- Ef, length_firstn; lia).
    destruct kept as [|k0 kept0] eqn:Ek;
      [cbn [List.length] in Hlen; lia|].
    rewrite <- Ek in *. split; [done|]. apply Forall_forall.
    intros p Hin. rewrite <- Ef in Hin.
    apply (subseteq_take k) in Hin. by rewrite Hp in Hin.
Qed.

(** Four kept texts and k = 3: three of them are handed over. *)
Lemma retrieve_never_hands_over_nothing_witness :
  exists k,
    NUMBER_OF_POINTS Examples.services_ok = Ret k /\ 0 < k /\
    ["[Timeout] https://a.org/1"; "Toss at seven."; "Rain delay."] <> [] /\
    List.length ["[Timeout] https://a.org/1"; "Toss at seven."; "Rain delay."]
    = Nat.min k
        (List.length ["[Timeout] https://a.org/1"; "Toss at seven.";
                      "Rain delay."; "Squad news."]) /\
    Forall (fun passage =>
              passage ∈ ["[Timeout] https://a.org/1"; "Toss at seven.";
                         "Rain delay."; "Squad news."])
           ["[Timeout] https://a.org/1"; "Toss at seven."; "Rain delay."].
Proof.
  exact (retrieve_never_hands_over_nothing Examples.services_ok "ipl"
           ["[Timeout] https://a.org/1"; "Toss at seven."; "Rain delay.";
            "Squad news."]
           ["[Timeout] https://a.org/1"; "Toss at seven."; "Rain delay."]
           eq_refl).
Defined.

(** ** webthinker.py: the path of [search] that succeeds *)

(** X14.  Failed fetches and failed extraction calls do not degrade a
    search: when discovery returns URLs, [NUMBER_OF_POINTS] is positive and
    the embedding services and the summary model answer, [search] returns a
    summary, with one [search_results] entry per URL (what [fetch_article]
    returned for it), whatever the fetches and the extraction model do. *)
Theorem search_survives_failed_fetches_and_extractions (w : world)
    (sv : services) (question : string) (urls : list string) (k : nat) :
  get_news_urls w question = Ret urls -> urls <> [] ->
  embed_probe sv = Ret tt ->
  (forall texts, embed_documents sv texts = Ret tt) ->
  embed_query sv question = Ret tt ->
  NUMBER_OF_POINTS sv = Ret k ->
  0 < k ->
  (forall facts, exists summary,
     finalized_chain sv question facts = Ret summary) ->
  exists kept summary,
    search w sv question = Ret (Result kept (Summary summary)) /\
    Forall2 (fun url result_ => fetch_article w url = Ret result_) urls kept.
Proof.
  intros Hu Hne Hp Hd Hq Hk Hpos Hf.
  assert (Hk0 : (k =? 0) = false) by (apply Nat.eqb_neq; lia).
  exists (map (fun url => Spec.marker (Spec.fetch_spec w url)) urls).
  pose proof (keep_results_markers w urls) as Hkeep.
  pose proof (webscraper_results w question urls Hu Hne) as Hweb.
  set (kept := map _ urls) in *.
  assert (Hr : exists fr, retrieve sv question kept = Ret fr).
  { unfold retrieve, get_vector_store, add_texts, similarity_search.
    rewrite Hp, Hk, Hq. simpl.
    destruct kept; simpl; [|rewrite Hd; simpl]; rewrite Hk0;
      destruct (firstn k _); eauto. }
  destruct Hr as [fr Hr].
  destruct (gather_extracted_info_returns sv question fr)
    as (facts & Hg & _).
  destruct (Hf (join (LF +:+ LF) facts)) as [summary Hs].
  exists summary. split.
  - unfold search, search_try.
    rewrite Hweb. cbn [bind]. rewrite Hkeep. cbn [bind].
    rewrite Hr. simpl. rewrite Hg. simpl. by rewrite Hs.
  - subst kept. clear. induction urls as [|u urls IH]; simpl; constructor;
      [apply fetch_article_marker|done].
Qed.

Lemma search_survives_failed_fetches_and_extractions_witness :
  exists kept summary,
    search Examples.world_two services_mute "ipl"
    = Ret (Result kept (Summary summary)) /\
    Forall2 (fun url result_ =>
               fetch_article Examples.world_two url = Ret result_)
            Examples.two_urls kept.
Proof.
  apply (search_survives_failed_fetches_and_extractions Examples.world_two
           services_mute "ipl" Examples.two_urls 3);
    try reflexivity.
  - discriminate.
  - lia.
  - intros facts. exists facts. reflexivity.
Defined.

(** ** webthinker.py: the gate runs to completion *)

Lemma all_finished_counts (st : gate) :
  all_finished st = true <-> waiting st = 0 /\ in_flight st = 0.
Proof.
  unfold all_finished, waiting, in_flight.
  induction (phases st) as [|p l IH]; simpl; [done|].
  destruct p; simpl; rewrite ?IH; split; try done; try (intros [? ?]; done).
Qed.

(** X15.  Every schedule of the extraction calls through the semaphore
    makes progress and ends: a run from n waiting calls has at most 2n
    events, all calls have finished exactly when it has 2n, and until then
    some call can enter or leave (the gate never blocks for good). *)
Theorem gate_runs_to_completion (n : nat) (es : list event) (st : gate) :
  run_events es (gate_init n) = Some st ->
  List.length es <= 2 * n /\
  (all_finished st = true <-> List.length es = 2 * n) /\
  (all_finished st = false -> exists e st', fire e st = Some st').
Proof.
  intros H. pose proof (run_events_bounded n es st H) as Hb.
  split; [lia|]. split.
  - rewrite all_finished_counts. lia.
  - intros Hnf. by apply (gate_never_stuck n es).
Qed.

Lemma gate_runs_to_completion_witness :
  List.length [Enter 0; Enter 1; Leave 1; Leave 0] <= 2 * 2 /\
  (all_finished (Gate 5 [Finished; Finished]) = true <->
   List.length [Enter 0; Enter 1; Leave 1; Leave 0] = 2 * 2) /\
  (all_finished (Gate 5 [Finished; Finished]) = false ->
   exists e st', fire e (Gate 5 [Finished; Finished]) = Some st').
Proof.
  apply (gate_runs_to_completion 2 [Enter 0; Enter 1; Leave 1; Leave 0]).
  reflexivity.
Defined.

(** ** webthinker.py: what the cache of [search_web] keeps true *)

Lemma same_key_item_key (request : nat) (query : string) (it : cache_item) :
  same_key request query it = true <-> item_key it = (request, query).
Proof.
  unfold same_key, item_key. rewrite andb_true_iff, Nat.eqb_eq, String.eqb_eq.
  split; [intros [-> ->]; done|intros [= -> ->]; done].
Qed.

Lemma find_same_key_None (request : nat) (query : string)
    (l : list cache_item) :
  List.find (same_key request query) l = None ->
  (request, query) ∉ map item_key l.
Proof.
  intros H Hin. apply list_elem_of_In, in_map_iff in Hin as (it & Hk & Hin).
  apply (find_none _ _ H) in Hin. apply same_key_item_key in Hk. congruence.
Qed.

Lemma NoDup_map_filter {A B : Type} (f : A -> B) (p : A -> bool)
    (l : list A) :
  NoDup (map f l) -> NoDup (map f (List.filter p l)).
Proof.
  induction l as [|a l IH]; simpl; [done|].
  intros H. apply NoDup_cons in H as [Ha Hl].
  destruct (p a); simpl; [|by apply IH].
  apply NoDup_cons. split; [|by apply IH].
  intros Hin. apply Ha.
  apply list_elem_of_In, in_map_iff in Hin as (x & Hx & Hin).
  apply filter_In in Hin as [Hin _].
  apply list_elem_of_In, in_map_iff. by exists x.
Qed.

Lemma NoDup_add_last {A : Type} (l : list A) (x : A) :
  NoDup l -> x ∉ l -> NoDup (l ++ [x]).
Proof.
  intros Hl Hx. apply NoDup_app. split; [done|]. split.
  - intros y Hy Hy'. apply list_elem_of_singleton in Hy'. by subst.
  - apply NoDup_singleton.
Qed.

Lemma NoDup_tail {A : Type} (l : list A) : NoDup l -> NoDup (tl l).
Proof.
  destruct l; simpl; [done|]. intros H. by apply NoDup_cons in H as [_ H].
Qed.

Lemma Forall_tail {A : Type} (P : A -> Prop) (l : list A) :
  Forall P l -> Forall P (tl l).
Proof. destruct l; simpl; [done|]. intros H. by inversion H. Qed.

Lemma filter_length_lt {A : Type} (p : A -> bool) (l : list A) (x : A) :
  In x l -> p x = false -> List.length (List.filter p l) < List.length l.
Proof.
  induction l as [|a l IH]; simpl; [done|].
  intros [->|Hin] Hp.
  - rewrite Hp. pose proof (filter_length_le p l). lia.
  - specialize (IH Hin Hp). destruct (p a); simpl; lia.
Qed.

Lemma find_filter_alive (now request : nat) (query : string)
    (l : list cache_item) (it : cache_item) :
  List.find (same_key request query) l = Some it ->
  alive now it = true ->
  List.find (same_key request query) (List.filter (alive now) l) = Some it.
Proof.
  induction l as [|a l IH]; simpl; [done|].
  destruct (same_key request query a) eqn:Ek.
  - intros [= ->] Ha. rewrite Ha. simpl. by rewrite Ek.
  - intros Hf Ha. destruct (alive now a); simpl; [rewrite Ek|]; by apply IH.
Qed.

Lemma find_filter_expired (now request : nat) (query : string)
    (l : list cache_item) (it : cache_item) :
  NoDup (map item_key l) ->
  List.find (same_key request query) l = Some it ->
  alive now it = false ->
  List.find (same_key request query) (List.filter (alive now) l) = None.
Proof.
  intros Hnd Hf Ha.
  destruct (List.find _ (List.filter _ l)) as [it'|] eqn:E; [|done].
  exfalso. apply find_some in E as [Hin' Hk'].
  apply filter_In in Hin' as [Hin' Ha'].
  apply find_some in Hf as [Hin Hk].
  apply same_key_item_key in Hk, Hk'.
  assert (it = it'); [|congruence].
  clear -Hnd Hin Hin' Hk Hk'. rewrite <- Hk' in Hk. clear Hk'.
  induction l as [|a l IH]; [done|]. simpl in Hnd.
  apply NoDup_cons in Hnd as [Ha Hl].
  destruct Hin as [->|Hin], Hin' as [->|Hin']; try done.
  - exfalso. apply Ha. rewrite Hk. apply list_elem_of_In, in_map. done.
  - exfalso. apply Ha. rewrite <- Hk. apply list_elem_of_In, in_map. done.
  - by apply IH.
Qed.

Lemma find_filter_None {A : Type} (p q : A -> bool) (l : list A) :
  List.find p l = None -> List.find p (List.filter q l) = None.
Proof.
  induction l as [|a l IH]; simpl; [done|].
  destruct (p a) eqn:E; [done|]. intros H.
  destruct (q a); simpl; [rewrite E|]; by apply IH.
Qed.

Lemma find_same_key_last (request : nat) (query : string)
    (l : list cache_item) (it : cache_item) :
  List.find (same_key request query) l = None ->
  same_key request query it = true ->
  List.find (same_key request query) (l ++ [it]) = Some it.
Proof.
  induction l as [|a l IH]; simpl; intros Hf Hk; [by rewrite Hk|].
  destruct (same_key request query a); [done|]. by apply IH.
Qed.

(** The entry that [find] returns is the first with the key. *)
Lemma find_split {A : Type} (p : A -> bool) (l : list A) (x : A) :
  List.find p l = Some x ->
  exists l1 l2,
    l = l1 ++ x :: l2 /\ p x = true /\ Forall (fun y => p y = false) l1.
Proof.
  induction l as [|a l IH]; simpl; [done|].
  destruct (p a) eqn:E.
  - intros [= ->]. exists [], l. by repeat split.
  - intros H. destruct (IH H) as (l1 & l2 & -> & Hx & Hl1).
    exists (a :: l1), l2. split; [done|]. split; [done|]. by constructor.
Qed.

Lemma cache_empty_ok : cache_ok cache_empty.
Proof. repeat split; simpl; [unfold maxsize; lia|constructor|constructor]. Qed.

Section CacheInvariant.

Variable world_at : nat -> world.
Variable services_at : nat -> services.
Variable ttl : option nat.

Lemma search_web_cache_ok (c : cache) (now request : nat) (query : string) :
  cache_ok c ->
  cache_ok (search_web world_at services_at ttl c now request query).2 /\
  exists v,
    (search_web world_at services_at ttl c now request query).1 = Ret v.
Proof.
  intros (Hlen & Hnd & Hret). unfold search_web.
  set (live := List.filter (alive now) (items c)).
  assert (Hl1 : List.length live <= maxsize)
    by (pose proof (filter_length_le (alive now) (items c)); unfold live; lia).
  assert (Hl2 : NoDup (map item_key live)) by by apply NoDup_map_filter.
  assert (Hl3 : Forall (fun it => exists v, item_value it = Ret v) live).
  { apply Forall_forall. intros it Hit.
    apply list_elem_of_In, filter_In in Hit as [Hit _].
    rewrite Forall_forall in Hret. by apply Hret, list_elem_of_In. }
  destruct (List.find (same_key request query) live) as [it|] eqn:Ef.
  - apply find_some in Ef as [Hin Hk]. cbn [fst snd]. split.
    + unfold cache_ok. cbn [items]. repeat split.
      * rewrite length_app. simpl.
        assert (H : List.length
                      (List.filter
                         (fun x => negb (same_key request query x)) live)
                    < List.length live)
          by (apply filter_length_lt with (x := it); [done|by rewrite Hk]).
        lia.
      * rewrite map_app. simpl.
        apply NoDup_add_last; [by apply NoDup_map_filter|].
        intros Hx. apply list_elem_of_In, in_map_iff in Hx as (x & Hx & Hxin).
        apply filter_In in Hxin as [_ Hxk]. apply negb_true_iff in Hxk.
        apply same_key_item_key in Hk. rewrite Hk in Hx.
        apply same_key_item_key in Hx. congruence.
      * apply Forall_app. split.
        -- apply Forall_forall. intros x Hx.
           apply list_elem_of_In, filter_In in Hx as [Hx _].
           rewrite Forall_forall in Hl3. by apply Hl3, list_elem_of_In.
        -- constructor; [|constructor].
           rewrite Forall_forall in Hl3. by apply Hl3, list_elem_of_In.
    + rewrite Forall_forall in Hl3. by apply Hl3, list_elem_of_In.
  - cbn [fst snd].
    destruct (search_web_wrapped_returns world_at services_at now query)
      as [v Hv].
    rewrite Hv. split; [|eauto].
    set (new := CacheItem request query (Ret v) _).
    assert (Ha2 : NoDup (map item_key (live ++ [new]))).
    { rewrite map_app. simpl. apply NoDup_add_last; [done|].
      by apply find_same_key_None. }
    assert (Ha3 : Forall (fun it => exists v, item_value it = Ret v)
                         (live ++ [new])).
    { apply Forall_app. split; [done|]. constructor; [|constructor].
      by exists v. }
    unfold cache_ok. cbn [items].
    destruct (maxsize <? List.length (live ++ [new])) eqn:E.
    + repeat split.
      * clear -Hl1. clearbody live. destruct live as [|a l]; simpl in *; [lia|].
        rewrite length_app. simpl. lia.
      * rewrite <- tl_map. by apply NoDup_tail.
      * by apply Forall_tail.
    + apply Nat.ltb_ge in E. by repeat split.
Qed.

(** X16.  [search_web] never raises and keeps its cache least recently
    used first: from a cache that holds at most [maxsize] entries, one per
    pair of request and query, each with a returned value, every call
    returns a value and leaves a cache of that kind; expired entries are
    dropped; a call that finds its entry moves it to the most recently used
    end and no other live entry moves or leaves; a call that finds none puts
    the new entry at that end, and when [maxsize] live entries are there
    already, the first of them, the least recently used, leaves and no
    other. *)
Theorem search_web_evicts_the_least_recently_used (c : cache)
    (now request : nat) (query : string) :
  cache_ok c ->
  let live := List.filter (alive now) (items c) in
  let answer := search_web world_at services_at ttl c now request query in
  (exists v, answer.1 = Ret v) /\
  cache_ok answer.2 /\
  match List.find (same_key request query) live with
  | Some it =>
      exists before after,
        live = before ++ it :: after /\
        items answer.2 = before ++ after ++ [it]
  | None =>
      exists new,
        item_key new = (request, query) /\
        item_value new = answer.1 /\
        items answer.2
        = (if List.length live <? maxsize then live else tl live) ++ [new]
  end.
Proof.
  intros Hc. cbv zeta.
  destruct (search_web_cache_ok c now request query Hc) as [Hc' Hv].
  split; [done|]. split; [done|].
  destruct Hc as (Hlen & Hnd & _).
  pose proof (NoDup_map_filter item_key (alive now) _ Hnd) as Hnd'.
  unfold search_web.
  set (live := List.filter (alive now) (items c)) in *.
  destruct (List.find (same_key request query) live) as [it|] eqn:Ef.
  - destruct (find_split _ _ _ Ef) as (l1 & l2 & Hl & Hit & Hl1).
    exists l1, l2. split; [done|]. cbn [snd items].
    rewrite Hl, List.filter_app. cbn [List.filter]. rewrite Hit. cbn [negb].
    rewrite <- app_assoc. f_equal; [|f_equal].
    + apply filter_all. eapply Forall_impl; [exact Hl1|].
      intros x Hx. simpl in Hx. by rewrite Hx.
    + apply filter_all. apply Forall_forall. intros x Hx.
      apply negb_true_iff.
      destruct (same_key request query x) eqn:Ex; [|done]. exfalso.
      rewrite Hl, map_app in Hnd'. cbn [map] in Hnd'.
      apply NoDup_app in Hnd' as (_ & _ & Hnd').
      apply NoDup_cons in Hnd' as [Hnot _]. apply Hnot.
      apply same_key_item_key in Hit, Ex. rewrite Hit, <- Ex.
      apply list_elem_of_In, in_map. by apply list_elem_of_In.
  - destruct (search_web_wrapped_returns world_at services_at now query)
      as [v Hw].
    rewrite Hw. cbn [fst snd items].
    exists (CacheItem request query (Ret v)
              (option_map (fun t => now + t) ttl)).
    split; [done|]. split; [done|].
    rewrite length_app. cbn [List.length].
    destruct (Nat.ltb_spec (List.length live) maxsize) as [Hlt|Hge].
    + assert (E : (maxsize <? List.length live + 1) = false)
        by (apply Nat.ltb_ge; lia).
      by rewrite E.
    + assert (E : (maxsize <? List.length live + 1) = true)
        by (apply Nat.ltb_lt; lia).
      rewrite E. destruct live as [|a l]; [|done].
      unfold maxsize in Hge. simpl in Hge. lia.
Qed.

(** X17.  [search_web] serves an entry only while it lives: with an entry
    under the key of the call that has not expired, the call returns the
    value of the entry and the pipeline does not run; with an expired
    entry, or none, the pipeline runs and its result is returned. *)
Theorem search_web_serves_live_entries_only (c : cache) (now request : nat)
    (query : string) :
  cache_ok c ->
  let answer := search_web world_at services_at ttl c now request query in
  match List.find (same_key request query) (items c) with
  | Some it =>
      if alive now it
      then answer.1 = item_value it /\ runs answer.2 = runs c
      else answer.1 = search_web_wrapped world_at services_at now query /\
           runs answer.2 = runs c ++ [(request, query)]
  | None =>
      answer.1 = search_web_wrapped world_at services_at now query /\
      runs answer.2 = runs c ++ [(request, query)]
  end.
Proof.
  intros (_ & Hnd & _). cbv zeta. unfold search_web.
  destruct (List.find (same_key request query) (items c)) as [it|] eqn:Ef.
  - destruct (alive now it) eqn:Ea.
    + by rewrite (find_filter_alive _ _ _ _ _ Ef Ea).
    + by rewrite (find_filter_expired _ _ _ _ _ Hnd Ef Ea).
  - by rewrite (find_filter_None _ _ _ Ef).
Qed.

(** X18.  Round trip through the cache: after a call that ran the
    pipeline, a call with the same request object and query within the time
    to live returns the same value without running the pipeline again,
    whatever has changed outside in between; the degraded answer of a failed
    search is kept and served like any other. *)
Theorem search_web_round_trip (c : cache) (request now1 now2 life : nat)
    (query : string) :
  ttl = Some life ->
  List.find (same_key request query) (List.filter (alive now1) (items c))
  = None ->
  now2 < now1 + life ->
  let first := search_web world_at services_at ttl c now1 request query in
  let second :=
    search_web world_at services_at ttl first.2 now2 request query in
  first.1 = search_web_wrapped world_at services_at now1 query /\
  second.1 = first.1 /\
  runs second.2 = runs c ++ [(request, query)] /\
  (search (world_at now1) (services_at now1) query = Ret degraded ->
   second.1 = Ret EmptyList).
Proof.
  intros Httl Hmiss Hlt. cbv zeta.
  destruct (search_web_wrapped_returns world_at services_at now1 query)
    as [v Hv].
  set (live := List.filter (alive now1) (items c)) in *.
  set (new := CacheItem request query (Ret v) (Some (now1 + life))).
  assert (Hfirst : exists kept,
    search_web world_at services_at ttl c now1 request query
    = (Ret v, Cache kept (runs c ++ [(request, query)])) /\
    exists old, kept = old ++ [new] /\
      List.find (same_key request query) old = None).
  { unfold search_web. fold live. rewrite Hmiss, Hv, Httl. simpl.
    fold new. eexists. split; [done|].
    destruct (maxsize <? _) eqn:E.
    - destruct live as [|a l] eqn:El.
      + simpl in E. done.
      + exists l. split; [done|]. simpl in Hmiss.
        by destruct (same_key request query a).
    - by exists live. }
  destruct Hfirst as (kept & Hfirst & old & -> & Hold).
  rewrite Hfirst. cbn [fst snd].
  assert (Hsecond :
    List.find (same_key request query)
      (List.filter (alive now2) (old ++ [new])) = Some new).
  { rewrite List.filter_app. simpl.
    assert (Ha : alive now2 new = true)
      by (unfold alive; simpl; by apply Nat.ltb_lt).
    rewrite Ha. apply find_same_key_last.
    - by apply find_filter_None.
    - apply same_key_refl. }
  unfold search_web at 1 2 3. cbn [items runs]. rewrite Hsecond.
  cbn [fst snd runs item_value new].
  repeat split; try done.
  intros Hd. unfold search_web_wrapped in Hv. rewrite Hd in Hv.
  simpl in Hv. by injection Hv as <-.
Qed.

(** ** app.py: the endpoint *)

(** X19.  The [/search] endpoint never answers 500: a query of at least
    two characters is answered with status 200, the query and the results
    (the empty list when the search degraded), because [search_web] does not
    raise; a missing or shorter query is turned down by the validation
    before the handler runs and leaves the cache as it was. *)
Theorem search_endpoint_never_answers_500 (c : cache) (now request : nat)
    (q : option string) :
  cache_ok c ->
  let reply := App.search world_at services_at ttl c now request q in
  cache_ok reply.2 /\
  match reply.1 with
  | App.Ok query _ => q = Some query /\ 2 <= App.str_len query
  | App.UnprocessableEntity =>
      reply.2 = c /\
      match q with
      | Some query => App.str_len query < 2
      | None => True
      end
  | App.InternalServerError _ => False
  end.
Proof.
  intros Hc. cbv zeta. unfold App.search.
  destruct q as [q|]; [|done].
  destruct (Nat.ltb_spec (App.str_len q) 2) as [Hl|Hl]; [done|].
  destruct (search_web_cache_ok c now request q Hc) as (Hc' & v & Hv).
  destruct (search_web _ _ _ _ _ _ _) as [o c']. simpl in *. by subst.
Qed.

End CacheInvariant.

Lemma NoDup_map_inj {A B : Type} (f : A -> B) (l : list A) :
  (forall x y, f x = f y -> x = y) -> NoDup l -> NoDup (map f l).
Proof.
  intros Hf. induction 1 as [|x l Hx Hl IH]; simpl; [constructor|].
  apply NoDup_cons. split; [|done]. intros Hin.
  apply list_elem_of_In, in_map_iff in Hin as (y & Hy & Hin).
  apply Hf in Hy. subst. by apply Hx, list_elem_of_In.
Qed.

Lemma cache_one_ok : cache_ok cache_one.
Proof.
  repeat split; simpl; [unfold maxsize; lia|apply NoDup_singleton|].
  constructor; [eauto|constructor].
Qed.

Lemma cache_full_ok : cache_ok cache_full.
Proof.
  unfold cache_ok, cache_full. cbn [items]. split; [|split].
  - by rewrite length_map, length_seq.
  - rewrite map_map. cbn [item_key item_request item_query].
    apply NoDup_map_inj; [|apply NoDup_seq].
    intros x y H. by injection H.
  - apply Forall_map, Forall_forall. intros request _. simpl. eauto.
Qed.

(** The full cache and a new key: the entry of request 0, the least
    recently used, leaves, and the new entry comes last. *)
Lemma search_web_evicts_the_least_recently_used_witness :
  exists new,
    item_key new = (999, "ipl") /\
    items (search_web (fun _ => Examples.world_two)
             (fun _ => Examples.services_ok) (Some 300) cache_full 0 999
             "ipl").2
    = tl (items cache_full) ++ [new].
Proof.
  destruct (search_web_evicts_the_least_recently_used
              (fun _ => Examples.world_two) (fun _ => Examples.services_ok)
              (Some 300) cache_full 0 999 "ipl" cache_full_ok)
    as (_ & _ & H).
  assert (E : List.find (same_key 999 "ipl")
                (List.filter (alive 0) (items cache_full)) = None)
    by (vm_compute; reflexivity).
  rewrite E in H. destruct H as (new & Hk & _ & H).
  exists new. split; [exact Hk|]. rewrite H. f_equal.
Defined.

(** The entry of [cache_one] is served at the instant 10 and no longer at
    the instant 300, when the pipeline runs again. *)
Lemma search_web_serves_live_entries_only_witness :
  ((search_web (fun _ => Examples.world_two) (fun _ => Examples.services_ok)
      (Some 300) cache_one 10 1 "ipl").1
   = Ret (Summary "Mumbai won.") /\
   runs (search_web (fun _ => Examples.world_two)
           (fun _ => Examples.services_ok) (Some 300) cache_one 10 1
           "ipl").2
   = [(1, "ipl")]) /\
  ((search_web (fun _ => Examples.world_two) (fun _ => Examples.services_ok)
      (Some 300) cache_one 300 1 "ipl").1
   = search_web_wrapped (fun _ => Examples.world_two)
       (fun _ => Examples.services_ok) 300 "ipl" /\
   runs (search_web (fun _ => Examples.world_two)
           (fun _ => Examples.services_ok) (Some 300) cache_one 300 1
           "ipl").2
   = [(1, "ipl"); (1, "ipl")]).
Proof.
  split.
  - exact (search_web_serves_live_entries_only (fun _ => Examples.world_two)
             (fun _ => Examples.services_ok) (Some 300) cache_one 10 1 "ipl"
             cache_one_ok).
  - exact (search_web_serves_live_entries_only (fun _ => Examples.world_two)
             (fun _ => Examples.services_ok) (Some 300) cache_one 300 1 "ipl"
             cache_one_ok).
Defined.

(** The search service is down at the first call and back at the second,
    one minute later: the second call still gets the empty answer. *)
Lemma search_web_round_trip_witness :
  (search_web
     (fun now => if now <? 30 then Examples.world_down
                 else Examples.world_two)
     (fun _ => Examples.services_ok) (Some 300)
     (search_web
        (fun now => if now <? 30 then Examples.world_down
                    else Examples.world_two)
        (fun _ => Examples.services_ok) (Some 300) cache_empty 0 1 "ipl").2
     60 1 "ipl").1
  = Ret EmptyList.
Proof.
  apply (search_web_round_trip
           (fun now => if now <? 30 then Examples.world_down
                       else Examples.world_two)
           (fun _ => Examples.services_ok) (Some 300) cache_empty 1 0 60 300
           "ipl"); try reflexivity.
  simpl. lia.
Defined.

Lemma search_endpoint_never_answers_500_witness :
  let reply :=
    App.search (fun _ => Examples.world_down) (fun _ => Examples.services_ok)
      (Some 300) cache_empty 0 1 (Some "ipl") in
  cache_ok reply.2 /\
  match reply.1 with
  | App.Ok query _ => Some "ipl" = Some query /\ 2 <= App.str_len query
  | App.UnprocessableEntity =>
      reply.2 = cache_empty /\ App.str_len "ipl" < 2
  | App.InternalServerError _ => False
  end.
Proof.
  apply (search_endpoint_never_answers_500 (fun _ => Examples.world_down)
           (fun _ => Examples.services_ok) (Some 300) cache_empty 0 1
           (Some "ipl")).
  apply cache_empty_ok.
Defined.

(** ** markdown_cleaner.py: how far the late rules are idempotent *)
















